(** * Interbank contagion stress tester: the simulation core of [src/app.js]

    The development embeds the two operations of the "Simulation Core Logic"
    part of [app.js], [generateNetwork] and [runSimulation], together with
    the one presentation routine that writes to the engine's state and can
    stop a run (the in-place [nodes.sort] of [updateMetricsDashboard] and
    the reads of [network.adj[node.id]] for the rows of its table).

    Modelling conventions.
    - A JavaScript number is an exact rational ([Q]); the program's
      comparisons are the boolean comparisons on [Q], and equalities between
      numbers are stated with [==].  Rounding, overflow and NaN are outside
      the model.  The one division whose divisor can be zero on finite
      inputs is written out where it occurs ([initialRank]).
    - Arrays are lists, read with stdpp's lookup [l !! i] and written with
      [<[i:=x]> l].  A computation returns [None] where the script would
      stop with a TypeError (reading a property of [undefined]); the reads
      and writes that the script cannot make out of range are noted where
      they occur.
    - [Math.random] is a sequence [rnd : nat -> Q] of the values returned by
      successive calls; [d3.shuffle] (library code) is a parameter.
    - The module constant [N] is a parameter of the definitions, so that the
      small scenarios of the specification can be evaluated; the script
      fixes it to [App.N = 50].
    - The D3 rendering, the DOM updates and the module variable
      [selectedBankId] are left out.  The [links] array and the module
      variable [totalInitialCapital], which [generateNetwork] builds beside
      the network and only the presentation reads, are functions of their
      own ([links_of], [totalInitialCapital_of]), as are the figures of the
      dashboard and of the details panel and the lookup of [selectBank]. *)

From Stdlib Require Import QArith Qminmax Qabs Qround Lqa Lia.
From Stdlib Require Import String DecimalString.
From Stdlib Require Import Permutation Sorted.
From stdpp Require Import base option list relations.

Open Scope Q_scope.

(** ** Numbers *)

(** [x < y] as the script evaluates it. *)
Definition Qltb (x y : Q) : bool := negb (Qle_bool y x).

(** ** Configuration and constants *)

Module App.
(** [const N = 50]. *)
Definition N : nat := 50.
End App.

Definition MACRO_LOSS_FACTOR : Q := 20 # 100.
Definition MIN_CAPITAL_RATIO : Q := 8 # 100.
Definition MAX_CAPITAL_RATIO : Q := 15 # 100.
Definition ASSETS_MIN : Q := 1000.
Definition ASSETS_MAX : Q := 5000.
Definition DEBT_RANK_TOLERANCE : Q := 1 # 10000.
Definition MAX_ITERATIONS : nat := 100.

Definition INDIAN_BANK_NAMES : list string :=
  [ "State Bank of India"; "HDFC Bank"; "ICICI Bank"; "Punjab National Bank";
    "Bank of Baroda"; "Union Bank of India"; "Canara Bank"; "Axis Bank";
    "Kotak Mahindra Bank"; "IndusInd Bank"; "Indian Bank";
    "Central Bank of India"; "Bank of India"; "Indian Overseas Bank";
    "UCO Bank"; "IDBI Bank"; "Yes Bank"; "Federal Bank"; "RBL Bank";
    "IDFC First Bank"; "South Indian Bank"; "J&K Bank"; "Karur Vysya Bank";
    "Dhanlaxmi Bank"; "City Union Bank"; "Bandhan Bank";
    "Au Small Finance Bank"; "Equitas Small Finance Bank"; "CSB Bank";
    "DCB Bank"; "Suryoday Small Finance Bank"; "TMB"; "CanaFin Homes";
    "HDFC LTD"; "PNB Housing"; "LIC Housing Finance"; "IIFL Finance";
    "Shriram Transport Finance"; "Muthoot Finance"; "Bajaj Finance";
    "Bank A"; "Bank B"; "Bank C"; "Bank D"; "Bank E";
    "Bank F"; "Bank G"; "Bank H"; "Bank I"; "Bank J" ]%string.

(** [clamp = (num, min, max) => Math.min(Math.max(num, min), max)]. *)
Definition clamp (num lo hi : Q) : Q := Qmin (Qmax num lo) hi.

(** ** Data model *)

(** [stressLevel]: the script stores 0, 1 and 2. *)
Inductive stress : Type :=
  | Healthy   (* 0 *)
  | Stressed  (* 1 *)
  | Failed.   (* 2 *)

(** A bank object, as pushed by [generateNetwork] (plus [A_external], which
    the script adds to the object in its third step). *)
Record node : Type := mkNode {
  id : nat;
  name : string;
  A : Q;
  E_initial : Q;
  E : Q;
  L : Q;
  isFailed : bool;
  debtRank : Q;
  stressLevel : stress;
  L_interbank : Q;
  A_interbank : Q;
  A_external : Q
}.

Definition set_E (n : node) (v : Q) : node :=
  mkNode (id n) (name n) (A n) (E_initial n) v (L n) (isFailed n)
         (debtRank n) (stressLevel n) (L_interbank n) (A_interbank n)
         (A_external n).

Definition set_isFailed (n : node) (v : bool) : node :=
  mkNode (id n) (name n) (A n) (E_initial n) (E n) (L n) v
         (debtRank n) (stressLevel n) (L_interbank n) (A_interbank n)
         (A_external n).

Definition set_debtRank (n : node) (v : Q) : node :=
  mkNode (id n) (name n) (A n) (E_initial n) (E n) (L n) (isFailed n)
         v (stressLevel n) (L_interbank n) (A_interbank n)
         (A_external n).

Definition set_stressLevel (n : node) (v : stress) : node :=
  mkNode (id n) (name n) (A n) (E_initial n) (E n) (L n) (isFailed n)
         (debtRank n) v (L_interbank n) (A_interbank n)
         (A_external n).

Definition set_L_interbank (n : node) (v : Q) : node :=
  mkNode (id n) (name n) (A n) (E_initial n) (E n) (L n) (isFailed n)
         (debtRank n) (stressLevel n) v (A_interbank n)
         (A_external n).

Definition set_A_interbank (n : node) (v : Q) : node :=
  mkNode (id n) (name n) (A n) (E_initial n) (E n) (L n) (isFailed n)
         (debtRank n) (stressLevel n) (L_interbank n) v
         (A_external n).

Definition set_A_external (n : node) (v : Q) : node :=
  mkNode (id n) (name n) (A n) (E_initial n) (E n) (L n) (isFailed n)
         (debtRank n) (stressLevel n) (L_interbank n) (A_interbank n)
         v.

(** The module variable [network] (without [links]): [adj !! i] is row [i],
    and [adj[i][j]] is what bank [i] owes to bank [j]. *)
Record network : Type := mkNetwork {
  nodes : list node;
  adj : list (list Q)
}.

(** ** Loops *)

(** [for (let k = 0; k < n; k++) body], over a state, stopping at the
    first TypeError. *)
Fixpoint for_upto {St : Type} (n : nat) (body : nat -> St -> option St)
    (s : St) : option St :=
  match n with
  | O => Some s
  | S k => s' ← for_upto k body s; body k s'
  end.

(** ** The stress test: [runSimulation] *)

(** [DOM.shockType.value] with [parseInt(DOM.targetedBankId.value)].  A
    value other than the three the script tests for applies no shock; a
    target that parses to NaN matches no bank, like an id that no bank
    has. *)
Inductive shockType : Type :=
  | Macro
  | Targeted (targetedBankId : nat)
  | Random
  | Unrecognised.

(** The working copy made at the start of a run:
    [{ ...n, E: n.E_initial, isFailed: false, debtRank: 0, stressLevel: 0 }]. *)
Definition working_copy (n : node) : node :=
  mkNode (id n) (name n) (A n) (E_initial n) (E_initial n) (L n) false
         0 Healthy (L_interbank n) (A_interbank n) (A_external n).

(** The shock branch of Phase 1 for one bank; [u] is the value of
    [Math.random()], which the script draws for this bank only when the
    shock type is ['random']. *)
Definition apply_shock (shock : shockType) (u : Q) (n : node) : node :=
  match shock with
  | Macro => set_E n (E n - A_external n * MACRO_LOSS_FACTOR)
  | Targeted t => if Nat.eqb (id n) t then set_E n (-1) else n
  | Random => if Qltb u (1 # 10) then set_E n (E n - E_initial n * (8 # 10))
              else n
  | Unrecognised => n
  end.

(** [clamp(1 - (node.E / node.E_initial), 0, 1)], evaluated only when
    [node.E > 0].  For [E_initial = 0] the quotient is [+Infinity] in the
    script, so the clamped value is 0. *)
Definition initialRank (n : node) : Q :=
  if Qeq_bool (E_initial n) 0 then 0
  else clamp (1 - E n / E_initial n) 0 1.

(** The status part of Phase 1 for one bank. *)
Definition initial_status (n : node) : node :=
  if Qle_bool (E n) 0 then
    set_debtRank (set_stressLevel (set_isFailed n true) Failed) 1
  else
    let n' := set_debtRank n (initialRank n) in
    if Qle_bool (5 # 10) (debtRank n') then set_stressLevel n' Stressed
    else n'.

(** Phase 1 over the working copy, in array order: bank number [k] of the
    array receives the [k]-th random draw. *)
Definition phase1 (shock : shockType) (rnd : nat -> Q) (ns : list node)
  : list node :=
  imap (fun k n => initial_status (apply_shock shock (rnd k) n)) ns.

(** [initialRanks = nodes.map(n => 0)], then
    [initialRanks[node.id] = node.debtRank] for every bank in array order.
    A write past the end would lengthen the array in the script; the added
    cells are never read (Phase 2 reads [previousRanks[i]] only after
    [nodes[i]] was found), so the model drops them. *)
Definition initialRanks_of (ns : list node) : list Q :=
  fold_left (fun ranks n => <[id n := debtRank n]> ranks) ns
            (map (fun _ => 0) ns).

(** State of one Phase-2 pass while the creditor loop runs. *)
Record pass_state : Type := mkPass {
  p_nodes : list node;
  totalDebtRankChange : Q;
  p_hasConverged : bool
}.

(** The inner loop over debtors [i] for creditor [j].  [adj[i]] missing is
    a TypeError; [adj[i][j]] missing is [undefined], for which [L_ij > 0]
    is false.  The rank vectors have the length of [nodes], so the two
    rank reads succeed whenever [nodes[i]] does. *)
Definition propagatedLossRatio (N : nat) (adj : list (list Q))
    (nodes : list node) (currentRanks previousRanks : list Q) (j : nat)
  : option Q :=
  for_upto N (fun i acc =>
    row ← adj !! i;
    match row !! j with
    | Some L_ij =>
        if Qltb 0 L_ij then
          n_i ← nodes !! i;
          if Qltb 0 (L_interbank n_i) then
            c ← currentRanks !! i;
            p ← previousRanks !! i;
            let weight := L_ij / L_interbank n_i in
            let deltaH := c - p in
            Some (acc + weight * deltaH)
          else Some acc
        else Some acc
    | None => Some acc
    end) 0.

(** [newRank] of the DebtRank update for a creditor with rank [h]. *)
Definition newRank_of (h propagated : Q) : Q :=
  let rankIncrease := (1 - h) * propagated in
  clamp (h + rankIncrease) h 1.

(** Body of the creditor loop for index [j]. *)
Definition update_creditor (N : nat) (adj : list (list Q))
    (currentRanks previousRanks : list Q) (j : nat) (st : pass_state)
  : option pass_state :=
  n_j ← p_nodes st !! j;
  if Qltb (debtRank n_j) 1 then
    p ← propagatedLossRatio N adj (p_nodes st) currentRanks previousRanks j;
    let newRank := newRank_of (debtRank n_j) p in
    let d := Qabs (newRank - debtRank n_j) in
    let total := if Qltb DEBT_RANK_TOLERANCE d
                 then totalDebtRankChange st + d
                 else totalDebtRankChange st in
    let conv := if Qltb DEBT_RANK_TOLERANCE d then false
                else p_hasConverged st in
    Some (mkPass (<[j := set_debtRank n_j newRank]> (p_nodes st)) total conv)
  else Some st.

(** "Re-evaluate bank capital and status", for one bank. *)
Definition reevaluate (n : node) : node :=
  let n1 := set_E n (E_initial n * (1 - debtRank n)) in
  if Qle_bool (E n1) 0 || Qle_bool (9999 # 10000) (debtRank n1) then
    set_E (set_debtRank (set_stressLevel (set_isFailed n1 true) Failed) 1) 0
  else if Qltb (4 # 10) (debtRank n1) then set_stressLevel n1 Stressed
  else set_stressLevel n1 Healthy.

(** What one execution of the [while] body leaves behind. *)
Record pass_result : Type := mkPassResult {
  r_nodes : list node;
  r_currentRanks : list Q;
  r_hasConverged : bool
}.

(** The creditor loop [for (let j = 0; j < N; j++)] of one pass, started
    with [hasConverged = true] and [totalDebtRankChange = 0]. *)
Definition update_ranks (N : nat) (adj : list (list Q))
    (previousRanks : list Q) (ns : list node) : option pass_state :=
  for_upto N (update_creditor N adj (map debtRank ns) previousRanks)
           (mkPass ns 0 true).

(** [hasConverged] at the end of the pass, after
    [if (totalDebtRankChange < DEBT_RANK_TOLERANCE) hasConverged = true]. *)
Definition pass_flag (st : pass_state) : bool :=
  if Qltb (totalDebtRankChange st) DEBT_RANK_TOLERANCE then true
  else p_hasConverged st.

(** One execution of the body of the [while] loop: the creditor loop,
    [previousRanks = currentRanks], the re-evaluation of every bank, and
    the final test on [totalDebtRankChange]. *)
Definition phase2_pass (N : nat) (adj : list (list Q))
    (previousRanks : list Q) (ns : list node) : option pass_result :=
  st ← update_ranks N adj previousRanks ns;
  Some (mkPassResult (map reevaluate (p_nodes st)) (map debtRank ns)
                     (pass_flag st)).

(** The variables the [while] loop carries. *)
Record loop_state : Type := mkLoop {
  l_nodes : list node;
  iterations : nat;
  hasConverged : bool;
  previousRanks : list Q
}.

(** The guard [!hasConverged && iterations < MAX_ITERATIONS]. *)
Definition loop_guard (st : loop_state) : bool :=
  negb (hasConverged st) && Nat.ltb (iterations st) MAX_ITERATIONS.

(** The [while] loop; [fuel] bounds the number of passes and is
    [MAX_ITERATIONS] at the call ([phase2_loop_fuel] shows that the guard,
    not the fuel, ends the loop). *)
Fixpoint phase2_loop (N : nat) (adj : list (list Q)) (fuel : nat)
    (st : loop_state) : option loop_state :=
  match fuel with
  | O => Some st
  | S fuel' =>
      if loop_guard st then
        r ← phase2_pass N adj (previousRanks st) (l_nodes st);
        phase2_loop N adj fuel'
          (mkLoop (r_nodes r) (S (iterations st)) (r_hasConverged r)
                  (r_currentRanks r))
      else Some st
  end.

(** The state in which the [while] loop is entered. *)
Definition loop_init (net : network) (shock : shockType) (rnd : nat -> Q)
  : loop_state :=
  let ns := phase1 shock rnd (map working_copy (nodes net)) in
  mkLoop ns 0 false (initialRanks_of ns).

(** Phases 1 and 2: the variables of the loop when it has ended;
    [l_nodes] is the working copy [nodes]. *)
Definition simulate (N : nat) (net : network) (shock : shockType)
    (rnd : nat -> Q) : option loop_state :=
  phase2_loop N (adj net) MAX_ITERATIONS (loop_init net shock rnd).

(** One pass of the [while] loop as a step between loop states. *)
Inductive loop_step (N : nat) (adj : list (list Q))
  : loop_state -> loop_state -> Prop :=
  | loop_step_pass (st : loop_state) (r : pass_result) :
      loop_guard st = true ->
      phase2_pass N adj (previousRanks st) (l_nodes st) = Some r ->
      loop_step N adj st
        (mkLoop (r_nodes r) (S (iterations st)) (r_hasConverged r)
                (r_currentRanks r)).

(** [nodes.sort((a, b) => b.debtRank - a.debtRank)] of
    [updateMetricsDashboard]: [Array.prototype.sort] sorts the array in
    place and is stable, so the outcome is the stable descending order,
    computed here by insertion from the right. *)
Fixpoint insert_desc (x : node) (l : list node) : list node :=
  match l with
  | [] => [x]
  | y :: l' =>
      if Qltb (debtRank x) (debtRank y) then y :: insert_desc x l'
      else x :: l
  end.

Definition sort_by_debtRank (l : list node) : list node :=
  foldr insert_desc [] l.

(** The effect of [updateMetricsDashboard] on [network]: its [nodes] array
    is sorted in place.  The reads that the same statement makes for every
    row of the table are [dashboard_rows]; a caller of the dashboard runs
    both. *)
Definition updateMetricsDashboard (net : network) : network :=
  mkNetwork (sort_by_debtRank (nodes net)) (adj net).

(** [adj.reduce((sum, row) => sum + (row[node.id] > 0 ? 1 : 0), 0)] of
    [updateDetailsPanel] and [updateMetricsDashboard]. *)
Definition inConnections (adj : list (list Q)) (n : node) : nat :=
  fold_left (fun sum row =>
               match row !! id n with
               | Some v => if Qltb 0 v then (sum + 1)%nat else (sum + 0)%nat
               | None => (sum + 0)%nat
               end) adj 0%nat.

(** [adj[node.id].filter(val => val > 0).length]; a TypeError when the row
    is missing. *)
Definition outConnections (adj : list (list Q)) (n : node) : option nat :=
  row ← adj !! id n;
  Some (length (List.filter (fun val => Qltb 0 val) row)).

(** The callback of [nodes.sort(...).forEach(node => ...)] in
    [updateMetricsDashboard], for the banks in the order of the table: the
    two counts of each row.  [network.adj[node.id].filter] is a TypeError
    when the matrix has no row for the id of a bank. *)
Definition dashboard_rows (net : network) : option (list (nat * nat)) :=
  mapM (fun n => out ← outConnections (adj net) n;
                 Some (inConnections (adj net) n, out)) (nodes net).

(** [runSimulation] as a transformer of the module variable [network]:
    Phases 1 and 2 on the working copy, [network.nodes = nodes], then
    [renderNetwork(false)], whose first statement is
    [updateMetricsDashboard(false)]: the sort, then the rows of the table. *)
Definition runSimulation (N : nat) (net : network) (shock : shockType)
    (rnd : nat -> Q) : option network :=
  st ← simulate N net shock rnd;
  let net' := updateMetricsDashboard (mkNetwork (l_nodes st) (adj net)) in
  _ ← dashboard_rows net';
  Some net'.

(** ** Network generation: [generateNetwork] *)

(** A loop whose body cannot fail. *)
Fixpoint loop_upto {St : Type} (n : nat) (body : nat -> St -> St) (s : St)
  : St :=
  match n with
  | O => s
  | S k => body k (loop_upto k body s)
  end.

(** [shuffledNames[i] || `Bank ${i+1}`]: the fallback is taken for a
    missing or empty name. *)
Definition bank_name (shuffledNames : list string) (i : nat) : string :=
  let fallback :=
    String.append "Bank " (NilEmpty.string_of_uint (Nat.to_uint (i + 1))) in
  match shuffledNames !! i with
  | Some s => if String.eqb s EmptyString then fallback else s
  | None => fallback
  end.

(** [adj[i][j] = v]; a TypeError when row [i] is missing.  The script
    writes at the ids of two banks of [nodes], which are below [N], the
    length of every row. *)
Definition adj_write (adj : list (list Q)) (i j : nat) (v : Q)
  : option (list (list Q)) :=
  row ← adj !! i;
  Some (<[i := <[j := v]> row]> adj).

(** [adj[i][j]] read as a number, for [i] and [j] below [N] in the [N] by
    [N] matrix. *)
Definition adj_read (adj : list (list Q)) (i j : nat) : option Q :=
  row ← adj !! i;
  row !! j.

(** State of the distribution of one debtor's interbank liability. *)
Record share_state : Type := mkShare {
  s_adj : list (list Q);
  assignedLiability : Q;
  s_calls : nat
}.

Section Generator.

(** [rnd k] is the value of the [k]-th call of [Math.random()]. *)
Variable rnd : nat -> Q.

(** [d3.shuffle]: given an array and the number of [Math.random()] calls
    made so far, the shuffled array and the number of calls afterwards. *)
Variable shuffle : forall T : Type, list T -> nat -> list T * nat.

(** Step 1, body of the loop that pushes bank [i]; the state is the array
    built so far and the number of random calls made.  [A_external] is not
    yet a property of the pushed object: step 3 assigns it before anything
    reads it, and the record holds 0 until then. *)
Definition push_bank (shuffledNames : list string) (i : nat)
    (st : list node * nat) : list node * nat :=
  let '(ns, c) := st in
  let totalAssets := rnd c * (ASSETS_MAX - ASSETS_MIN) + ASSETS_MIN in
  let capitalRatio :=
    rnd (c + 1) * (MAX_CAPITAL_RATIO - MIN_CAPITAL_RATIO)
    + MIN_CAPITAL_RATIO in
  let E0 := totalAssets * capitalRatio in
  let L0 := totalAssets - E0 in
  (ns ++ [mkNode i (bank_name shuffledNames i) totalAssets E0 E0 L0 false
                 0 Healthy 0 0 0],
   (c + 2)%nat).

(** Step 2, body of the inner [forEach] over the chosen creditors. *)
Definition assign_share (debtor : node) (totalIBL : Q) (st : share_state)
    (creditor : node) : option share_state :=
  let liabilityShare0 := totalIBL * (rnd (s_calls st) * (4 # 10) + (1 # 10)) in
  let liabilityShare :=
    Qmin liabilityShare0 (totalIBL - assignedLiability st) in
  if Qltb 0 liabilityShare then
    adj' ← adj_write (s_adj st) (id debtor) (id creditor) liabilityShare;
    Some (mkShare adj' (assignedLiability st + liabilityShare)
                  (S (s_calls st)))
  else Some (mkShare (s_adj st) (assignedLiability st) (S (s_calls st))).

(** [forEach] over an array whose body can fail. *)
Fixpoint forEach_opt {T St : Type} (body : St -> T -> option St)
    (l : list T) (s : St) : option St :=
  match l with
  | [] => Some s
  | x :: l' => s' ← body s x; forEach_opt body l' s'
  end.

(** Step 2, body of the outer [forEach] for the debtor at position [d] of
    [nodes]; the loop visits the [N] positions of the array.  The random
    draws lie in the interval from 0 to 1, so [numCreditors] is between 1
    and 4. *)
Definition assign_debtor (d : nat) (st : list node * list (list Q) * nat)
  : option (list node * list (list Q) * nat) :=
  let '(ns, adj, c) := st in
  match ns !! d with
  | None => Some st
  | Some debtor0 =>
      let totalIBL := L debtor0 * ((15 # 100) + rnd c * (15 # 100)) in
      let debtor := set_L_interbank debtor0 totalIBL in
      let ns' := <[d := debtor]> ns in
      let numCreditors := (Z.to_nat (Qfloor (rnd (c + 1) * 4)) + 1)%nat in
      let potentialCreditors :=
        filter (fun n => id n <> id debtor) ns' in
      let '(shuffled, c') := shuffle node potentialCreditors (c + 2)%nat in
      sh ← forEach_opt (assign_share debtor totalIBL)
                       (take numCreditors shuffled) (mkShare adj 0 c');
      Some (ns', s_adj sh, s_calls sh)
  end.

(** Step 3 for one bank: the column sum and the external assets. *)
Definition finalize_bank (N : nat) (adj : list (list Q)) (n : node)
  : option node :=
  a ← for_upto N (fun j acc => x ← adj_read adj j (id n); Some (acc + x)) 0;
  let n' := set_A_interbank n a in
  Some (set_A_external n' (A n' - A_interbank n')).

(** [generateNetwork]: the value it assigns to [network], or [None] if it
    stops with a TypeError.  The call [updateMetricsDashboard(true)] at its
    end sorts the new array as well and reads the rows of the table. *)
Definition generateNetwork (N : nat) : option network :=
  let '(shuffledNames, c0) :=
    shuffle string (take N INDIAN_BANK_NAMES) 0%nat in
  let '(ns1, c1) := loop_upto N (push_bank shuffledNames) ([], c0) in
  let adj0 := replicate N (replicate N 0) in
  '(ns2, adj, _) ← for_upto N assign_debtor (ns1, adj0, c1);
  ns3 ← mapM (finalize_bank N adj) ns2;
  let net := updateMetricsDashboard (mkNetwork ns3 adj) in
  _ ← dashboard_rows net;
  Some net.

End Generator.

(** ** Snapshots and scenarios *)

(** The shape of a snapshot for [N] banks. *)
Definition shape (N : nat) (net : network) : Prop :=
  length (nodes net) = N /\ length (adj net) = N
  /\ Forall (fun row => length row = N) (adj net).

(** The bank stored at position [i] is bank [i], as [generateNetwork]
    leaves the array. *)
Definition ids_aligned (ns : list node) : Prop :=
  forall i n, ns !! i = Some n -> id n = i.

(** Sum of a row of the exposure matrix. *)
Definition row_sum (row : list Q) : Q := foldr Qplus 0 row.

(** A bank of the five-bank scenario: assets 1000, capital 100,
    liabilities 900. *)
Definition scenario_bank (i : nat) (l_ib a_ib : Q) : node :=
  mkNode i "Bank" 1000 100 100 900 false 0 Healthy l_ib a_ib (1000 - a_ib).

(** The targeted-shock scenario: [N = 5]; bank 0 owes its whole interbank
    liability, which is all of its liabilities, to bank 1; there is no
    other exposure. *)
Definition scenario : network :=
  mkNetwork
    [ scenario_bank 0 900 0; scenario_bank 1 200 900; scenario_bank 2 200 0;
      scenario_bank 3 200 0; scenario_bank 4 200 0 ]
    [ [0; 900; 0; 0; 0];
      [0; 0; 0; 0; 0];
      [0; 0; 0; 0; 0];
      [0; 0; 0; 0; 0];
      [0; 0; 0; 0; 0] ].

(** A two-bank snapshot in which bank 0 owes 1 to bank 1 and bank 1 owes
    5000 of its interbank liability of 10000 to bank 0. *)
Definition two_banks : network :=
  mkNetwork
    [ mkNode 0 "Bank" 20000 1000 1000 19000 false 0 Healthy 100 5000 15000;
      mkNode 1 "Bank" 20000 1000 1000 19000 false 0 Healthy 10000 1 19999 ]
    [ [0; 1];
      [5000; 0] ].

(** A sequence of random draws, all equal to one half. *)
Definition rnd_half : nat -> Q := fun _ => 1 # 2.

(** A sequence of random draws, all equal to one twentieth. *)
Definition rnd_low : nat -> Q := fun _ => 1 # 20.

(** A shuffle that leaves the array as it is and draws nothing. *)
Definition shuffle_id (T : Type) (l : list T) (c : nat) : list T * nat :=
  (l, c).

(** The values [network] takes once the run button is enabled ([init]
    disables it, [generateNetwork] enables it): the result of
    [generateNetwork], then of any number of runs. *)
Inductive reachable (N : nat) : network -> Prop :=
  | reachable_generated (rnd : nat -> Q)
      (shuffle : forall T : Type, list T -> nat -> list T * nat)
      (net : network) :
      generateNetwork rnd shuffle N = Some net -> reachable N net
  | reachable_run (net : network) (shock : shockType) (rnd : nat -> Q)
      (net' : network) :
      reachable N net -> runSimulation N net shock rnd = Some net' ->
      reachable N net'.

(** The fields of a bank that a run copies and never assigns. *)
Definition static_fields (n : node)
  : nat * string * Q * Q * Q * Q * Q * Q :=
  (id n, name n, A n, E_initial n, L n, L_interbank n, A_interbank n,
   A_external n).

(** ** Predicates of the statements and loop invariants *)

(** After the re-evaluation a bank of rank 1 is failed and has no capital. *)
Definition settled (n : node) : Prop :=
  debtRank n == 1 -> isFailed n = true /\ stressLevel n = Failed /\ E n == 0.

(** Invariant of the creditor loop of a pass started on [ns] with
    [previousRanks = prev], before creditor [k] is visited. *)
Definition creditor_inv (prev : list Q) (ns : list node) (k : nat)
    (st : pass_state) : Prop :=
  (k <= length ns)%nat
  /\ length (p_nodes st) = length ns
  /\ (forall j n, ns !! j = Some n ->
        exists n', p_nodes st !! j = Some n'
          /\ n' = set_debtRank n (debtRank n')
          /\ ((k <= j)%nat -> n' = n)
          /\ (debtRank n <= 1 -> debtRank n <= debtRank n' /\ debtRank n' <= 1)
          /\ (map debtRank ns = prev -> debtRank n' == debtRank n))
  /\ (p_hasConverged st = true <->
        forall j n n', (j < k)%nat -> ns !! j = Some n ->
          p_nodes st !! j = Some n' ->
          Qabs (debtRank n' - debtRank n) <= DEBT_RANK_TOLERANCE)
  /\ (p_hasConverged st = true -> totalDebtRankChange st = 0)
  /\ (p_hasConverged st = false ->
        DEBT_RANK_TOLERANCE < totalDebtRankChange st).

(** The relation "same bank, rank not lower" between two states of the
    working copy. *)
Definition not_lower (n n' : node) : Prop :=
  id n' = id n /\ debtRank n <= debtRank n'.

(** Size of the change of a bank's rank in the creditor loop of a pass. *)
Definition rank_delta (n n' : node) : Q := Qabs (debtRank n' - debtRank n).

(** The condition under which the re-evaluation forces a bank to Failed. *)
Definition forced (n : node) : bool :=
  Qle_bool (E_initial n * (1 - debtRank n)) 0
  || Qle_bool (9999 # 10000) (debtRank n).

(** What the run makes of the Phase-1 state [n1] of a bank when nothing is
    propagated: the same bank, failed with rank 1 and no capital if
    [forced], and with its Phase-1 rank otherwise. *)
Definition phase1_outcome (n1 n2 : node) : Prop :=
  id n2 = id n1
  /\ (forced n1 = true ->
      debtRank n2 == 1 /\ isFailed n2 = true /\ stressLevel n2 = Failed
      /\ E n2 == 0)
  /\ (forced n1 = false ->
      debtRank n2 == debtRank n1 /\ isFailed n2 = isFailed n1
      /\ E n2 == E_initial n1 * (1 - debtRank n1)).

(** A well-formed row of the matrix: [N] non-negative entries. *)
Definition row_ok (N : nat) (row : list Q) : Prop :=
  length row = N /\ Forall (fun x => 0 <= x) row.

(** A bank as the first step of [generateNetwork] leaves it, up to its
    interbank fields: liabilities that are not negative and rank 0. *)
Definition fresh_bank (n : node) : Prop := 0 <= L n /\ debtRank n = 0.

(** [Math.random()] returns a number in the interval from 0 (included) to
    1 (excluded). *)
Definition in_unit_interval (rnd : nat -> Q) : Prop :=
  forall k, 0 <= rnd k /\ rnd k < 1.

(** Invariant of the distribution of debtor [k]'s liability [totalIBL]
    over its creditors, [adj0] being the matrix before the distribution. *)
Definition share_inv (N k : nat) (adj0 : list (list Q)) (totalIBL : Q)
    (sh : share_state) : Prop :=
  length (s_adj sh) = N
  /\ Forall (row_ok N) (s_adj sh)
  /\ (forall i, i <> k -> s_adj sh !! i = adj0 !! i)
  /\ (forall row, s_adj sh !! k = Some row ->
        row_sum row <= assignedLiability sh)
  /\ 0 <= assignedLiability sh
  /\ assignedLiability sh <= totalIBL.

(** Invariant of the loop over debtors before debtor [k] is visited. *)
Definition debtor_inv (rnd : nat -> Q) (N k : nat)
    (st : list node * list (list Q) * nat) : Prop :=
  length (fst (fst st)) = N
  /\ ids_aligned (fst (fst st))
  /\ Forall (fun n => debtRank n = 0) (fst (fst st))
  /\ length (snd (fst st)) = N
  /\ Forall (row_ok N) (snd (fst st))
  /\ (in_unit_interval rnd ->
      Forall fresh_bank (fst (fst st))
      /\ forall i n row,
           fst (fst st) !! i = Some n -> snd (fst st) !! i = Some row ->
           ((i < k)%nat -> row_sum row <= L_interbank n)
           /\ ((k <= i)%nat -> row_sum row == 0)).

(** ** Further operations of the script *)

(** An entry of [links]: [{ source: node.id, target: j, value: adj[node.id][j] }]. *)
Record link : Type := mkLink {
  source : nat;
  target : nat;
  value : Q
}.

(** The [links.push] of the third step of [generateNetwork] for one bank:
    the loop over [j] that also sums the column.  [adj[node.id]] missing is
    a TypeError; a missing entry is [undefined], which is not above 0. *)
Definition push_links (N : nat) (adj : list (list Q)) (links : list link)
    (n : node) : option (list link) :=
  for_upto N (fun j ls =>
    row ← adj !! id n;
    match row !! j with
    | Some v => if Qltb 0 v then Some (ls ++ [mkLink (id n) j v]) else Some ls
    | None => Some ls
    end) links.

(** The array [links] that the third step of [generateNetwork] builds. *)
Definition links_of (N : nat) (net : network) : option (list link) :=
  forEach_opt (push_links N (adj net)) (nodes net) [].

(** The statement [totalInitialCapital += E] of the first step of
    [generateNetwork], with the two draws of the iteration; the state is
    the number of random calls made and the running total. *)
Definition accumulate_capital (rnd : nat -> Q) (i : nat) (st : nat * Q)
  : nat * Q :=
  let '(c, total) := st in
  let totalAssets := rnd c * (ASSETS_MAX - ASSETS_MIN) + ASSETS_MIN in
  let capitalRatio :=
    rnd (c + 1)%nat * (MAX_CAPITAL_RATIO - MIN_CAPITAL_RATIO)
    + MIN_CAPITAL_RATIO in
  let E0 := totalAssets * capitalRatio in
  ((c + 2)%nat, total + E0).

(** The module variable [totalInitialCapital] after [generateNetwork]: set
    to 0, then increased in the loop of the first step. *)
Definition totalInitialCapital_of (rnd : nat -> Q)
    (shuffle : forall T : Type, list T -> nat -> list T * nat) (N : nat) : Q :=
  let '(_, c0) := shuffle string (take N INDIAN_BANK_NAMES) 0%nat in
  snd (loop_upto N (accumulate_capital rnd) (c0, 0)).

(** [nodes.filter(n => n.isFailed).length] of [updateMetricsDashboard]. *)
Definition totalFailures (ns : list node) : nat :=
  length (List.filter (fun n => isFailed n) ns).

(** [nodes.reduce((sum, n) => sum + Math.max(0, n.E), 0)]. *)
Definition totalPostShockCapital (ns : list node) : Q :=
  fold_left (fun sum n => sum + Qmax 0 (E n)) ns 0.

(** [totalInitialCapital - totalPostShockCapital]. *)
Definition totalLoss (totalInitialCapital : Q) (ns : list node) : Q :=
  totalInitialCapital - totalPostShockCapital ns.

(** [totalInitialCapital > 0 ? (totalLoss / totalInitialCapital) * 100 : 0]. *)
Definition contagionIndex (totalInitialCapital : Q) (ns : list node) : Q :=
  if Qltb 0 totalInitialCapital
  then totalLoss totalInitialCapital ns / totalInitialCapital * 100
  else 0.

(** [network.nodes.find(n => n.id === bankId)] of [selectBank]. *)
Definition find_bank (bankId : nat) (ns : list node) : option node :=
  List.find (fun n => Nat.eqb (id n) bankId) ns.

(** ** Predicates of the further statements *)

(** [d3.shuffle] returns a rearrangement of its argument. *)
Definition shuffle_permutes
    (shuffle : forall T : Type, list T -> nat -> list T * nat) : Prop :=
  forall (T : Type) (l : list T) (c : nat), fst (shuffle T l c) ≡ₚ l.

(** Sum of column [k] of the exposure matrix. *)
Definition column_sum (adj : list (list Q)) (k : nat) : Q :=
  foldr Qplus 0 (map (fun row => default 0 (row !! k)) adj).

(** Sum of a quantity over the banks. *)
Definition sum_over (f : node -> Q) (ns : list node) : Q :=
  foldr Qplus 0 (map f ns).

(** The status that the re-evaluation gives to a rank. *)
Definition status_of_rank (h : Q) : stress :=
  if Qeq_bool h 1 then Failed
  else if Qltb (4 # 10) h then Stressed else Healthy.

(** A bank between two steps of a run: its rank is between 0 and 1, and
    it is marked failed only with rank 1. *)
Definition coherent (n : node) : Prop :=
  0 <= debtRank n /\ debtRank n <= 1
  /\ (isFailed n = true -> debtRank n == 1).

(** A bank as the re-evaluation leaves it. *)
Definition evaluated (n : node) : Prop :=
  0 <= debtRank n /\ debtRank n <= 1
  /\ E n == E_initial n * (1 - debtRank n)
  /\ (debtRank n == 1 \/ debtRank n < 9999 # 10000)
  /\ isFailed n = Qeq_bool (debtRank n) 1
  /\ stressLevel n = status_of_rank (debtRank n).

(** No bank owes anything to bank [j]. *)
Definition unexposed (adj : list (list Q)) (j : nat) : Prop :=
  forall i row v, adj !! i = Some row -> row !! j = Some v -> v <= 0.

(** The banks are listed by non-increasing rank. *)
Definition by_rank (a b : node) : Prop := debtRank b <= debtRank a.

(** The bank that the first step of [generateNetwork] pushes at position
    [i], when [c0] random calls were made before the loop: iteration [i]
    makes calls number [c0 + 2 i] and [c0 + 2 i + 1]. *)
Definition bank_at_birth (rnd : nat -> Q) (names : list string) (c0 i : nat)
  : node :=
  let totalAssets :=
    rnd (c0 + 2 * i)%nat * (ASSETS_MAX - ASSETS_MIN) + ASSETS_MIN in
  let capitalRatio :=
    rnd (c0 + 2 * i + 1)%nat * (MAX_CAPITAL_RATIO - MIN_CAPITAL_RATIO)
    + MIN_CAPITAL_RATIO in
  let E0 := totalAssets * capitalRatio in
  mkNode i (bank_name names i) totalAssets E0 E0 (totalAssets - E0) false
         0 Healthy 0 0 0.

(** The fields of a bank that the second and third step of
    [generateNetwork] leave as the first step set them. *)
Definition birth_fields (n : node)
  : nat * string * Q * Q * Q * Q * bool * Q * stress :=
  (id n, name n, A n, E_initial n, E n, L n, isFailed n, debtRank n,
   stressLevel n).

(** No bank owes anything to itself: the diagonal of the matrix holds the
    0 it was filled with. *)
Definition no_self_exposure (adj : list (list Q)) : Prop :=
  forall i row v, adj !! i = Some row -> row !! i = Some v -> v = 0.

(** Number of entries of a row that are above 0. *)
Definition positive_entries (row : list Q) : nat :=
  length (List.filter (fun val => Qltb 0 val) row).

(** * Properties *)

(** ** Comparisons *)

Lemma Qltb_iff (x y : Q) : Qltb x y = true <-> x < y.
Proof.
  unfold Qltb. rewrite negb_true_iff. split.
  - intros H. apply Qnot_le_lt. intros Hle.
    apply Qle_bool_iff in Hle. congruence.
  - intros H. destruct (Qle_bool y x) eqn:Hb; [|done].
    apply Qle_bool_iff in Hb. lra.
Qed.

Lemma Qltb_false_iff (x y : Q) : Qltb x y = false <-> y <= x.
Proof.
  unfold Qltb. rewrite negb_false_iff. apply Qle_bool_iff.
Qed.

Lemma Qle_bool_false_iff (x y : Q) : Qle_bool x y = false <-> y < x.
Proof.
  split.
  - intros H. apply Qnot_le_lt. intros Hle.
    apply Qle_bool_iff in Hle. congruence.
  - intros H. destruct (Qle_bool x y) eqn:Hb; [|done].
    apply Qle_bool_iff in Hb. lra.
Qed.

(** Case analysis on the boolean comparisons, leaving the order facts as
    hypotheses for [lra]. *)
Ltac case_cmp :=
  match goal with
  | |- context [Qltb ?x ?y] =>
      let H := fresh "Hlt" in
      destruct (Qltb x y) eqn:H;
      [apply Qltb_iff in H | apply Qltb_false_iff in H]
  | |- context [Qle_bool ?x ?y] =>
      let H := fresh "Hle" in
      destruct (Qle_bool x y) eqn:H;
      [apply Qle_bool_iff in H | apply Qle_bool_false_iff in H]
  end.


(** ** Loops *)

(** Loop invariants for [for_upto]: an invariant [P k s] that holds at the
    start and is kept by every successful body holds at the end. *)
Lemma for_upto_inv {St : Type} (P : nat -> St -> Prop) (n : nat)
    (body : nat -> St -> option St) (s s' : St) :
  for_upto n body s = Some s' ->
  P 0%nat s ->
  (forall k t t', (k < n)%nat -> P k t -> body k t = Some t' -> P (S k) t') ->
  P n s'.
Proof.
  revert s'. induction n as [|n IH]; intros s' Hrun H0 Hstep; simpl in Hrun.
  - by inversion Hrun; subst.
  - destruct (for_upto n body s) as [t|] eqn:Hn; simpl in Hrun; [|done].
    apply (Hstep n t s'); [lia| |done].
    apply IH; [done|done|].
    intros k u u' Hk. apply Hstep. lia.
Qed.

(** A loop whose body succeeds wherever the invariant holds runs to its
    end. *)
Lemma for_upto_total {St : Type} (P : nat -> St -> Prop) (n : nat)
    (body : nat -> St -> option St) (s : St) :
  P 0%nat s ->
  (forall k t, (k < n)%nat -> P k t ->
     exists t', body k t = Some t' /\ P (S k) t') ->
  exists s', for_upto n body s = Some s' /\ P n s'.
Proof.
  intros H0 Hstep. induction n as [|n IH]; simpl.
  - by exists s.
  - destruct IH as (t & Ht & HP).
    { intros k u Hk. apply Hstep. lia. }
    rewrite Ht. simpl. apply Hstep; [lia|done].
Qed.

(** ** One bank *)

Lemma clamp_bounds (x lo hi : Q) :
  lo <= hi -> lo <= clamp x lo hi /\ clamp x lo hi <= hi.
Proof.
  intros Hlh. unfold clamp. split.
  - apply Q.min_glb; [apply Q.le_max_r|done].
  - apply Q.le_min_r.
Qed.

Lemma clamp_id (x lo hi : Q) : lo <= x -> x <= hi -> clamp x lo hi == x.
Proof.
  intros H1 H2. unfold clamp.
  rewrite (Q.max_l x lo) by done. by apply Q.min_l.
Qed.

(** The DebtRank update never lowers a rank that is at most 1, and never
    raises it above 1. *)
Lemma newRank_of_bounds (h p : Q) :
  h <= 1 -> h <= newRank_of h p /\ newRank_of h p <= 1.
Proof. intros Hh. unfold newRank_of. by apply clamp_bounds. Qed.

Lemma reevaluate_id (n : node) : id (reevaluate n) = id n.
Proof.
  unfold reevaluate. simpl.
  destruct (_ || _); [done|]. by destruct (Qltb _ _).
Qed.

(** The re-evaluation leaves a rank as it is or sets it to 1. *)
Lemma reevaluate_debtRank (n : node) :
  debtRank (reevaluate n) = debtRank n \/ debtRank (reevaluate n) = 1.
Proof.
  unfold reevaluate. simpl.
  destruct (_ || _); [by right|]. left. by destruct (Qltb _ _).
Qed.

Lemma reevaluate_bounds (n : node) :
  debtRank n <= 1 ->
  debtRank n <= debtRank (reevaluate n) /\ debtRank (reevaluate n) <= 1.
Proof.
  intros Hn. destruct (reevaluate_debtRank n) as [-> | ->]; lra.
Qed.

Lemma reevaluate_settled (n : node) : settled (reevaluate n).
Proof.
  unfold settled, reevaluate. simpl.
  destruct (Qle_bool (E_initial n * (1 - debtRank n)) 0) eqn:He; simpl.
  - intros _. repeat split; reflexivity.
  - destruct (Qle_bool (9999 # 10000) (debtRank n)) eqn:Hr; simpl.
    + intros _. repeat split; reflexivity.
    + apply Qle_bool_false_iff in Hr.
      destruct (Qltb (4 # 10) (debtRank n)); simpl; intros H1; lra.
Qed.

(** ** The creditor loop of a pass *)

Lemma set_debtRank_same (n : node) : set_debtRank n (debtRank n) = n.
Proof. by destruct n. Qed.

(** The inner loop runs to its end when the arrays have [N] cells. *)
Lemma propagatedLossRatio_total (N : nat) (adj : list (list Q))
    (ns : list node) (cur prev : list Q) (j : nat) :
  (N <= length adj)%nat -> (N <= length ns)%nat ->
  (N <= length cur)%nat -> (N <= length prev)%nat ->
  exists p, propagatedLossRatio N adj ns cur prev j = Some p.
Proof.
  intros Ha Hn Hc Hp. unfold propagatedLossRatio.
  destruct (for_upto_total (fun _ _ => True) N
    (fun i acc =>
       row ← adj !! i;
       match row !! j with
       | Some L_ij =>
           if Qltb 0 L_ij then
             n_i ← ns !! i;
             if Qltb 0 (L_interbank n_i) then
               c ← cur !! i; p ← prev !! i;
               Some (acc + L_ij / L_interbank n_i * (c - p))
             else Some acc
           else Some acc
       | None => Some acc
       end) 0) as (p & Hp' & _); [done| |by exists p].
  intros i acc Hi _.
  destruct (lookup_lt_is_Some_2 adj i) as [row ->]; [lia|].
  destruct (lookup_lt_is_Some_2 ns i) as [n_i Hni]; [lia|].
  destruct (lookup_lt_is_Some_2 cur i) as [c Hci]; [lia|].
  destruct (lookup_lt_is_Some_2 prev i) as [q Hqi]; [lia|].
  simpl. destruct (row !! j) as [L_ij|]; [|by eauto].
  destruct (Qltb 0 L_ij); [|by eauto].
  rewrite Hni. simpl. destruct (Qltb 0 (L_interbank n_i)); [|by eauto].
  rewrite Hci, Hqi. simpl. by eauto.
Qed.

(** When the previous ranks are the current ranks, nothing is propagated. *)
Lemma propagatedLossRatio_zero (N : nat) (adj : list (list Q))
    (ns : list node) (cur : list Q) (j : nat) (p : Q) :
  propagatedLossRatio N adj ns cur cur j = Some p -> p == 0.
Proof.
  unfold propagatedLossRatio. intros Hrun.
  apply (for_upto_inv (fun _ acc => acc == 0) _ _ _ _ Hrun); [reflexivity|].
  intros i acc acc' _ Hacc Hbody.
  apply bind_Some in Hbody as (row & _ & Hbody).
  destruct (row !! j) as [L_ij|]; [|by inversion Hbody; subst].
  destruct (Qltb 0 L_ij); [|by inversion Hbody; subst].
  apply bind_Some in Hbody as (n_i & _ & Hbody).
  destruct (Qltb 0 (L_interbank n_i)); [|by inversion Hbody; subst].
  apply bind_Some in Hbody as (c & Hc & Hbody).
  rewrite Hc in Hbody. simpl in Hbody. inversion Hbody; subst.
  rewrite Hacc. ring.
Qed.

(** What the body of the creditor loop does to the state: bank [j]
    receives a rank [h'], and the convergence variables follow the size
    [d] of the change. *)
Lemma update_creditor_spec (N : nat) (adj : list (list Q))
    (cur prev : list Q) (j : nat) (st st' : pass_state) :
  update_creditor N adj cur prev j st = Some st' ->
  exists n_j h',
    p_nodes st !! j = Some n_j
    /\ p_nodes st' = <[j := set_debtRank n_j h']> (p_nodes st)
    /\ (debtRank n_j <= 1 -> debtRank n_j <= h' /\ h' <= 1)
    /\ (cur = prev -> h' == debtRank n_j)
    /\ totalDebtRankChange st' =
         (if Qltb DEBT_RANK_TOLERANCE (Qabs (h' - debtRank n_j))
          then totalDebtRankChange st + Qabs (h' - debtRank n_j)
          else totalDebtRankChange st)
    /\ p_hasConverged st' =
         (if Qltb DEBT_RANK_TOLERANCE (Qabs (h' - debtRank n_j))
          then false else p_hasConverged st).
Proof.
  unfold update_creditor. intros Hrun.
  apply bind_Some in Hrun as (n_j & Hj & Hrun).
  destruct (Qltb (debtRank n_j) 1) eqn:Hlt.
  - apply bind_Some in Hrun as (p & Hp & Hrun).
    inversion Hrun; subst; clear Hrun. simpl.
    exists n_j, (newRank_of (debtRank n_j) p).
    repeat split; try done.
    + by apply newRank_of_bounds.
    + by apply newRank_of_bounds.
    + intros ->. apply propagatedLossRatio_zero in Hp.
      apply Qltb_iff in Hlt. unfold newRank_of.
      assert (debtRank n_j + (1 - debtRank n_j) * p == debtRank n_j) as Hx
        by (rewrite Hp; ring).
      rewrite clamp_id; [done|lra|lra].
  - inversion Hrun; subst; clear Hrun.
    exists n_j, (debtRank n_j).
    assert (Qltb DEBT_RANK_TOLERANCE
              (Qabs (debtRank n_j - debtRank n_j)) = false) as Hd.
    { apply Qltb_false_iff, Qabs_Qle_condition.
      unfold DEBT_RANK_TOLERANCE. split; lra. }
    rewrite Hd, set_debtRank_same, list_insert_id by done.
    repeat split; try done; lra.
Qed.

Section CreditorLoop.

Variables (N : nat) (adj : list (list Q)) (prev : list Q) (ns : list node).

Lemma creditor_inv_init : creditor_inv prev ns 0 (mkPass ns 0 true).
Proof.
  unfold creditor_inv. simpl. repeat split; try done; try lia.
  intros j n Hj. exists n. rewrite set_debtRank_same.
  repeat split; try done; lra.
Qed.

Lemma creditor_inv_step (k : nat) (t t' : pass_state) :
  creditor_inv prev ns k t ->
  update_creditor N adj (map debtRank ns) prev k t = Some t' ->
  creditor_inv prev ns (S k) t'.
Proof.
  intros (Hk & Hlen & Hnodes & [Hconv1 Hconv2] & Htrue & Hfalse) Hbody.
  apply update_creditor_spec in Hbody
    as (n_k & h' & Hlook & Hnew & Hbnd & Hzero & Htot & Hflag).
  assert (k < length ns)%nat as Hklt.
  { rewrite <- Hlen. by eapply lookup_lt_Some. }
  destruct (lookup_lt_is_Some_2 ns k Hklt) as [n0 Hn0].
  destruct (Hnodes k n0 Hn0) as (n0' & Hn0' & _ & Hsame & _).
  rewrite Hlook in Hn0'. inversion Hn0'; subst n0'.
  rewrite (Hsame (le_n k)) in *. clear Hsame Hn0'.
  assert (forall j, j <> k -> p_nodes t' !! j = p_nodes t !! j) as Hother.
  { intros j Hjk. rewrite Hnew. by apply list_lookup_insert_ne. }
  assert (p_nodes t' !! k = Some (set_debtRank n0 h')) as Hat.
  { rewrite Hnew. apply list_lookup_insert_eq. by rewrite Hlen. }
  unfold creditor_inv. split; [lia|]. split.
  { by rewrite Hnew, length_insert. }
  split.
  { intros j n Hj. destruct (decide (j = k)) as [->|Hjk].
    - rewrite Hn0 in Hj. inversion Hj; subst n.
      exists (set_debtRank n0 h'). simpl.
      repeat split; try done; try lia; by apply Hbnd.
    - destruct (Hnodes j n Hj) as (n' & Hn' & Hst & Hsame & Hb & Hz).
      exists n'. rewrite Hother by done.
      repeat split; try done; try (by apply Hb).
      intros Hle. apply Hsame. lia. }
  split.
  { rewrite Hflag. split.
    - intros Hc j n n' Hjk Hj Hj'.
      destruct (Qltb _ _) eqn:Hd; [done|].
      apply Qltb_false_iff in Hd.
      destruct (decide (j = k)) as [->|Hne].
      + rewrite Hn0 in Hj. rewrite Hat in Hj'.
        inversion Hj; inversion Hj'; subst. by simpl.
      + rewrite Hother in Hj' by done.
        apply (Hconv1 Hc j n n'); [lia|done|done].
    - intros Hall.
      assert (Qabs (h' - debtRank n0) <= DEBT_RANK_TOLERANCE) as Hd.
      { apply (Hall k n0 (set_debtRank n0 h')); [lia|done|done]. }
      apply Qltb_false_iff in Hd. rewrite Hd.
      apply Hconv2. intros j n n' Hjk Hj Hj'.
      apply (Hall j n n'); [lia|done|].
      rewrite Hother; [done|lia]. }
  rewrite Htot, Hflag.
  destruct (Qltb _ _) eqn:Hd; [|by split].
  apply Qltb_iff in Hd. split; [done|]. intros _.
  destruct (p_hasConverged t) eqn:Hc.
  - rewrite Htrue by done. lra.
  - specialize (Hfalse eq_refl).
    pose proof (Qabs_nonneg (h' - debtRank n0)). lra.
Qed.

(** The creditor loop, when it ends, has kept the invariant for all [N]
    creditors. *)
Lemma update_ranks_inv (st : pass_state) :
  update_ranks N adj prev ns = Some st -> creditor_inv prev ns N st.
Proof.
  unfold update_ranks. intros Hrun.
  apply (for_upto_inv (creditor_inv prev ns) _ _ _ _ Hrun); [apply creditor_inv_init|].
  intros k t t' _. apply creditor_inv_step.
Qed.

(** The creditor loop cannot fail on arrays of [N] cells. *)
Lemma update_ranks_total :
  (N <= length ns)%nat -> (N <= length adj)%nat -> (N <= length prev)%nat ->
  exists st, update_ranks N adj prev ns = Some st.
Proof.
  intros Hn Ha Hp. unfold update_ranks.
  destruct (for_upto_total (fun _ st => length (p_nodes st) = length ns) N
    (update_creditor N adj (map debtRank ns) prev) (mkPass ns 0 true))
    as (st & Hst & _); [done| |by exists st].
  intros k t Hk Hlen. unfold update_creditor.
  destruct (lookup_lt_is_Some_2 (p_nodes t) k) as [n_k ->]; [lia|].
  simpl. destruct (Qltb (debtRank n_k) 1); [|by eauto].
  destruct (propagatedLossRatio_total N adj (p_nodes t) (map debtRank ns)
              prev k) as [p ->]; try lia.
  { rewrite length_map. lia. }
  simpl. eexists. split; [done|]. simpl. by rewrite length_insert.
Qed.

End CreditorLoop.

(** ** One pass of Phase 2 *)

Lemma phase2_pass_Some (N : nat) (adj : list (list Q)) (prev : list Q)
    (ns : list node) (r : pass_result) :
  phase2_pass N adj prev ns = Some r ->
  exists st, update_ranks N adj prev ns = Some st
    /\ r = mkPassResult (map reevaluate (p_nodes st)) (map debtRank ns)
                        (pass_flag st).
Proof.
  unfold phase2_pass. intros Hrun.
  apply bind_Some in Hrun as (st & Hst & Hr).
  exists st. split; [done|]. by inversion Hr.
Qed.

Lemma phase2_pass_total (N : nat) (adj : list (list Q)) (prev : list Q)
    (ns : list node) :
  (N <= length ns)%nat -> (N <= length adj)%nat -> (N <= length prev)%nat ->
  exists r, phase2_pass N adj prev ns = Some r.
Proof.
  intros Hn Ha Hp.
  destruct (update_ranks_total N adj prev ns Hn Ha Hp) as [st Hst].
  unfold phase2_pass. rewrite Hst. simpl. by eauto.
Qed.

Lemma phase2_pass_lengths (N : nat) (adj : list (list Q)) (prev : list Q)
    (ns : list node) (r : pass_result) :
  phase2_pass N adj prev ns = Some r ->
  length (r_nodes r) = length ns /\ length (r_currentRanks r) = length ns.
Proof.
  intros Hrun. apply phase2_pass_Some in Hrun as (st & Hst & ->).
  apply update_ranks_inv in Hst as (_ & Hlen & _).
  simpl. by rewrite !length_map.
Qed.

(** The flag a pass leaves is the flag of its creditor loop: the final
    test on [totalDebtRankChange] never changes it. *)
Lemma pass_flag_creditor_loop (N : nat) (adj : list (list Q))
    (prev : list Q) (ns : list node) (st : pass_state) :
  update_ranks N adj prev ns = Some st ->
  pass_flag st = p_hasConverged st.
Proof.
  intros Hst. apply update_ranks_inv in Hst as (_ & _ & _ & _ & Ht & Hf).
  unfold pass_flag. destruct (p_hasConverged st) eqn:Hc.
  - by destruct (Qltb _ _).
  - specialize (Hf eq_refl). case_cmp; [lra|done].
Qed.

(** A pass started with every rank at most 1 lowers no rank and leaves
    every rank at most 1; the banks keep their positions. *)
Lemma phase2_pass_monotone (N : nat) (adj : list (list Q)) (prev : list Q)
    (ns : list node) (r : pass_result) :
  phase2_pass N adj prev ns = Some r ->
  Forall (fun n => debtRank n <= 1) ns ->
  Forall2 (fun n n' => id n' = id n /\ debtRank n <= debtRank n'
                       /\ debtRank n' <= 1) ns (r_nodes r).
Proof.
  intros Hrun Hle. apply phase2_pass_Some in Hrun as (st & Hst & ->).
  apply update_ranks_inv in Hst as (_ & Hlen & Hnodes & _).
  simpl. apply Forall2_same_length_lookup. split.
  { by rewrite length_map. }
  intros j n n2 Hj Hj2.
  destruct (Hnodes j n Hj) as (n' & Hn' & Hst & _ & Hb & _).
  rewrite list_lookup_fmap, Hn' in Hj2. simpl in Hj2.
  inversion Hj2; subst n2.
  assert (debtRank n <= 1) as Hn1.
  { rewrite Forall_forall in Hle. apply Hle. by eapply list_elem_of_lookup_2. }
  destruct (Hb Hn1) as [Hlo Hhi].
  destruct (reevaluate_bounds n' Hhi) as [Hlo' Hhi'].
  rewrite reevaluate_id. split; [by rewrite Hst|]. split; [lra|done].
Qed.

(** Every bank is settled when a pass ends. *)
Lemma phase2_pass_settled (N : nat) (adj : list (list Q)) (prev : list Q)
    (ns : list node) (r : pass_result) :
  phase2_pass N adj prev ns = Some r -> Forall settled (r_nodes r).
Proof.
  intros Hrun. apply phase2_pass_Some in Hrun as (st & _ & ->). simpl.
  apply Forall_forall. intros n Hn.
  apply list_elem_of_fmap in Hn as (m & -> & _). apply reevaluate_settled.
Qed.

(** ** Phase 1 *)

Lemma apply_shock_id (shock : shockType) (u : Q) (n : node) :
  id (apply_shock shock u n) = id n.
Proof.
  destruct shock as [|t| |]; simpl; try done.
  - by destruct (Nat.eqb _ _).
  - by destruct (Qltb _ _).
Qed.

Lemma initial_status_id (n : node) : id (initial_status n) = id n.
Proof.
  unfold initial_status. destruct (Qle_bool (E n) 0); [done|].
  simpl. by destruct (Qle_bool _ _).
Qed.

Lemma initialRank_bounds (n : node) : 0 <= initialRank n /\ initialRank n <= 1.
Proof.
  unfold initialRank. destruct (Qeq_bool _ _); [lra|].
  apply clamp_bounds. lra.
Qed.

(** Phase 1 leaves every rank between 0, the rank of the working copy,
    and 1. *)
Lemma initial_status_bounds (n : node) :
  0 <= debtRank (initial_status n) /\ debtRank (initial_status n) <= 1.
Proof.
  unfold initial_status. destruct (Qle_bool (E n) 0); simpl; [lra|].
  destruct (Qle_bool _ _); simpl; apply initialRank_bounds.
Qed.

Lemma phase1_lookup (shock : shockType) (rnd : nat -> Q) (ns : list node)
    (k : nat) :
  phase1 shock rnd ns !! k
  = (fun n => initial_status (apply_shock shock (rnd k) n)) <$> ns !! k.
Proof. unfold phase1. by rewrite list_lookup_imap. Qed.

Lemma phase1_length (shock : shockType) (rnd : nat -> Q) (ns : list node) :
  length (phase1 shock rnd ns) = length ns.
Proof. unfold phase1. by rewrite length_imap. Qed.

Lemma phase1_bounds (shock : shockType) (rnd : nat -> Q) (ns : list node) :
  Forall (fun n => 0 <= debtRank n /\ debtRank n <= 1) (phase1 shock rnd ns).
Proof.
  apply Forall_lookup. intros k n Hk. rewrite phase1_lookup in Hk.
  destruct (ns !! k) as [m|]; simpl in Hk; [|done].
  inversion Hk; subst. apply initial_status_bounds.
Qed.

Lemma working_copy_id (n : node) : id (working_copy n) = id n.
Proof. done. Qed.

(** Phase 1 and the working copy keep the banks at their positions. *)
Lemma phase1_ids_aligned (shock : shockType) (rnd : nat -> Q)
    (ns : list node) :
  ids_aligned ns -> ids_aligned (phase1 shock rnd (map working_copy ns)).
Proof.
  intros Hal k n Hk. rewrite phase1_lookup, list_lookup_fmap in Hk.
  destruct (ns !! k) as [m|] eqn:Hm; simpl in Hk; [|done].
  inversion Hk; subst.
  rewrite initial_status_id, apply_shock_id, working_copy_id. by apply Hal.
Qed.

Lemma initialRanks_fold_length (l : list node) (acc : list Q) :
  length (fold_left (fun ranks n => <[id n := debtRank n]> ranks) l acc)
  = length acc.
Proof.
  revert acc. induction l as [|n l IH]; intros acc; simpl; [done|].
  by rewrite IH, length_insert.
Qed.

Lemma initialRanks_of_length (ns : list node) :
  length (initialRanks_of ns) = length ns.
Proof.
  unfold initialRanks_of. by rewrite initialRanks_fold_length, length_map.
Qed.

Lemma initialRanks_fold_aligned (pre l : list node) :
  ids_aligned (pre ++ l) ->
  fold_left (fun ranks n => <[id n := debtRank n]> ranks) l
            (map debtRank pre ++ map (fun _ => 0) l)
  = map debtRank (pre ++ l).
Proof.
  revert pre. induction l as [|n l IH]; intros pre Hal; simpl.
  - by rewrite !app_nil_r.
  - assert (id n = length pre) as Hid.
    { apply Hal. by rewrite lookup_app_r, Nat.sub_diag. }
    rewrite Hid.
    replace (<[length pre := debtRank n]>
               (map debtRank pre ++ 0 :: map (fun _ => 0) l))
      with (map debtRank (pre ++ [n]) ++ map (fun _ => 0) l).
    + rewrite IH; [by rewrite <- app_assoc|]. by rewrite <- app_assoc.
    + rewrite map_app, <- app_assoc. simpl.
      rewrite insert_app_r_alt by (rewrite length_map; lia).
      by rewrite length_map, Nat.sub_diag.
Qed.

(** With the banks at their positions, [initialRanks] is the vector of
    the Phase-1 ranks in array order. *)
Lemma initialRanks_of_aligned (ns : list node) :
  ids_aligned ns -> initialRanks_of ns = map debtRank ns.
Proof.
  intros Hal. unfold initialRanks_of.
  by apply (initialRanks_fold_aligned [] ns).
Qed.

(** ** The [while] loop *)

Lemma loop_init_guard (net : network) (shock : shockType) (rnd : nat -> Q) :
  loop_guard (loop_init net shock rnd) = true.
Proof. done. Qed.

(** The loop is a sequence of passes. *)
Lemma phase2_loop_reaches (N : nat) (adj : list (list Q)) (fuel : nat)
    (st st' : loop_state) :
  phase2_loop N adj fuel st = Some st' -> rtc (loop_step N adj) st st'.
Proof.
  revert st. induction fuel as [|fuel IH]; intros st Hrun; simpl in Hrun.
  - inversion Hrun; subst. apply rtc_refl.
  - destruct (loop_guard st) eqn:Hg.
    + apply bind_Some in Hrun as (r & Hr & Hrun).
      eapply rtc_l; [|by apply IH]. by constructor.
    + inversion Hrun; subst. apply rtc_refl.
Qed.

(** With enough fuel for the passes that the cap still allows, the loop
    ends because its guard is false. *)
Lemma phase2_loop_fuel (N : nat) (adj : list (list Q)) (fuel : nat)
    (st st' : loop_state) :
  (MAX_ITERATIONS <= fuel + iterations st)%nat ->
  phase2_loop N adj fuel st = Some st' -> loop_guard st' = false.
Proof.
  revert st. induction fuel as [|fuel IH]; intros st Hfuel Hrun;
    simpl in Hrun.
  - inversion Hrun; subst. unfold loop_guard.
    apply andb_false_iff. right. apply Nat.ltb_ge. lia.
  - destruct (loop_guard st) eqn:Hg.
    + apply bind_Some in Hrun as (r & Hr & Hrun).
      apply IH in Hrun; [done|]. simpl. lia.
    + by inversion Hrun; subst.
Qed.

(** The number of passes never exceeds the cap. *)
Lemma phase2_loop_iterations (N : nat) (adj : list (list Q)) (fuel : nat)
    (st st' : loop_state) :
  (iterations st <= MAX_ITERATIONS)%nat ->
  phase2_loop N adj fuel st = Some st' ->
  (iterations st <= iterations st' /\ iterations st' <= MAX_ITERATIONS)%nat.
Proof.
  revert st. induction fuel as [|fuel IH]; intros st Hit Hrun;
    simpl in Hrun.
  - inversion Hrun; subst. lia.
  - destruct (loop_guard st) eqn:Hg.
    + apply bind_Some in Hrun as (r & Hr & Hrun).
      unfold loop_guard in Hg. apply andb_true_iff in Hg as [_ Hg].
      apply Nat.ltb_lt in Hg.
      apply IH in Hrun; simpl in *; lia.
    + inversion Hrun; subst. lia.
Qed.

(** The loop returns on arrays of [N] cells. *)
Lemma phase2_loop_total (N : nat) (adj : list (list Q)) (fuel : nat)
    (st : loop_state) :
  (N <= length adj)%nat -> (N <= length (l_nodes st))%nat ->
  length (previousRanks st) = length (l_nodes st) ->
  exists st', phase2_loop N adj fuel st = Some st'
    /\ length (l_nodes st') = length (l_nodes st).
Proof.
  intros Ha. revert st. induction fuel as [|fuel IH]; intros st Hn Hp; simpl.
  - by exists st.
  - destruct (loop_guard st); [|by exists st].
    destruct (phase2_pass_total N adj (previousRanks st) (l_nodes st))
      as [r Hr]; [done|done|lia|].
    rewrite Hr. simpl.
    destruct (phase2_pass_lengths _ _ _ _ _ Hr) as [Hl1 Hl2].
    destruct (IH (mkLoop (r_nodes r) (S (iterations st)) (r_hasConverged r)
                         (r_currentRanks r))) as (st' & Hst' & Hlen);
      simpl; [lia|lia|].
    exists st'. split; [done|]. simpl in Hlen. lia.
Qed.

(** Every bank is settled once a pass has run. *)
Lemma phase2_loop_settled (N : nat) (adj : list (list Q)) (fuel : nat)
    (st st' : loop_state) :
  phase2_loop N adj fuel st = Some st' ->
  Forall settled (l_nodes st) \/ (loop_guard st = true /\ fuel <> O) ->
  Forall settled (l_nodes st').
Proof.
  revert st. induction fuel as [|fuel IH]; intros st Hrun Hor;
    simpl in Hrun.
  - inversion Hrun; subst. by destruct Hor as [?|[_ ?]].
  - destruct (loop_guard st) eqn:Hg.
    + apply bind_Some in Hrun as (r & Hr & Hrun).
      apply IH in Hrun; [done|]. left. simpl.
      by eapply phase2_pass_settled.
    + inversion Hrun; subst. by destruct Hor as [?|[? _]].
Qed.

Lemma Forall2_right {T U : Type} (P : T -> U -> Prop) (R : U -> Prop)
    (l : list T) (k : list U) :
  Forall2 P l k -> (forall x y, P x y -> R y) -> Forall R k.
Proof. induction 1; intros HPR; constructor; eauto. Qed.

(** Ranks stay at most 1 along the passes of the loop. *)
Lemma loop_step_bounded (N : nat) (adj : list (list Q))
    (st st' : loop_state) :
  loop_step N adj st st' ->
  Forall (fun n => debtRank n <= 1) (l_nodes st) ->
  Forall (fun n => debtRank n <= 1) (l_nodes st').
Proof.
  intros [st0 r Hg Hr] Hle. simpl.
  eapply Forall2_right; [by eapply phase2_pass_monotone|].
  by intros n n' (_ & _ & Hn').
Qed.

Lemma rtc_loop_bounded (N : nat) (adj : list (list Q))
    (st st' : loop_state) :
  rtc (loop_step N adj) st st' ->
  Forall (fun n => debtRank n <= 1) (l_nodes st) ->
  Forall (fun n => debtRank n <= 1) (l_nodes st').
Proof.
  induction 1 as [|x y z Hxy _ IH]; [done|].
  intros Hx. apply IH. by eapply loop_step_bounded.
Qed.

Lemma loop_step_not_lower (N : nat) (adj : list (list Q))
    (st st' : loop_state) :
  loop_step N adj st st' ->
  Forall (fun n => debtRank n <= 1) (l_nodes st) ->
  Forall2 not_lower (l_nodes st) (l_nodes st').
Proof.
  intros [st0 r Hg Hr] Hle. simpl.
  eapply Forall2_impl; [by eapply phase2_pass_monotone|].
  intros n n' (Hid & Hlo & _). by split.
Qed.

Lemma not_lower_refl (l : list node) : Forall2 not_lower l l.
Proof. apply Forall2_same_length_lookup. split; [done|].
  intros i x y Hx Hy. rewrite Hx in Hy. inversion Hy; subst.
  split; [done|lra]. Qed.

Lemma not_lower_trans (l1 l2 l3 : list node) :
  Forall2 not_lower l1 l2 -> Forall2 not_lower l2 l3 ->
  Forall2 not_lower l1 l3.
Proof.
  intros H12. revert l3.
  induction H12 as [|x y l l' [Hid Hxy] _ IH]; intros l3 H23;
    inversion H23 as [|y' z l2' l3' [Hid' Hyz] Hrest]; subst; constructor.
  - split; [congruence|lra].
  - by apply IH.
Qed.

Lemma rtc_loop_not_lower (N : nat) (adj : list (list Q))
    (st st' : loop_state) :
  rtc (loop_step N adj) st st' ->
  Forall (fun n => debtRank n <= 1) (l_nodes st) ->
  Forall2 not_lower (l_nodes st) (l_nodes st').
Proof.
  induction 1 as [x|x y z Hxy _ IH]; intros Hx.
  - apply not_lower_refl.
  - eapply not_lower_trans; [by eapply loop_step_not_lower|].
    apply IH. by eapply loop_step_bounded.
Qed.

(** ** The run as a whole *)

Lemma simulate_first_pass (N : nat) (net : network) (shock : shockType)
    (rnd : nat -> Q) (st : loop_state) :
  simulate N net shock rnd = Some st ->
  exists r,
    phase2_pass N (adj net) (previousRanks (loop_init net shock rnd))
                (l_nodes (loop_init net shock rnd)) = Some r
    /\ phase2_loop N (adj net) 99
         (mkLoop (r_nodes r) 1 (r_hasConverged r) (r_currentRanks r))
       = Some st.
Proof.
  unfold simulate. change MAX_ITERATIONS with (S 99).
  cbn [phase2_loop]. rewrite loop_init_guard. intros Hrun.
  apply bind_Some in Hrun as (r & Hr & Hrun). by exists r.
Qed.

Lemma loop_init_bounded (net : network) (shock : shockType)
    (rnd : nat -> Q) :
  Forall (fun n => debtRank n <= 1) (l_nodes (loop_init net shock rnd)).
Proof.
  simpl. eapply Forall_impl; [apply phase1_bounds|]. by intros n [_ ?].
Qed.

Lemma insert_desc_perm (x : node) (l : list node) :
  insert_desc x l ≡ₚ x :: l.
Proof.
  induction l as [|y l IH]; simpl; [done|].
  destruct (Qltb _ _); [|done].
  rewrite IH. apply Permutation_swap.
Qed.

(** Sorting rearranges the banks and nothing else. *)
Lemma sort_by_debtRank_perm (l : list node) : sort_by_debtRank l ≡ₚ l.
Proof.
  induction l as [|x l IH]; simpl; [done|].
  by rewrite insert_desc_perm, IH.
Qed.

(** The rows of the table can be read exactly when the matrix has a row
    for the id of every bank. *)
Lemma dashboard_rows_is_Some (net : network) :
  is_Some (dashboard_rows net)
  <-> Forall (fun n => is_Some (adj net !! id n)) (nodes net).
Proof.
  unfold dashboard_rows. rewrite mapM_is_Some. apply Forall_proper; [|done].
  intros n. unfold compose, outConnections.
  destruct (adj net !! id n) as [row|]; cbn.
  - split; intros _; by eexists.
  - split; intros [x Hx]; done.
Qed.

Lemma runSimulation_Some (N : nat) (net : network) (shock : shockType)
    (rnd : nat -> Q) (net' : network) :
  runSimulation N net shock rnd = Some net' ->
  exists st, simulate N net shock rnd = Some st
    /\ net' = mkNetwork (sort_by_debtRank (l_nodes st)) (adj net).
Proof.
  unfold runSimulation. intros Hrun.
  apply bind_Some in Hrun as (st & Hst & Hnet). cbn zeta in Hnet.
  apply bind_Some in Hnet as (rows & _ & Hnet).
  exists st. split; [done|]. by inversion Hnet.
Qed.

(** C3. For every bank and every shock type the rank never decreases
    during a run: Phase 1 does not go below the rank 0 of the working
    copy, no pass of the Phase-2 loop lowers the rank any bank has when the
    pass starts, and so the ranks at the end are not below those of
    Phase 1. *)
Theorem debtRank_non_decreasing (N : nat) (net : network)
    (shock : shockType) (rnd : nat -> Q) (st_end : loop_state) :
  simulate N net shock rnd = Some st_end ->
  Forall (fun n => 0 <= debtRank n) (l_nodes (loop_init net shock rnd))
  /\ (forall st st',
        rtc (loop_step N (adj net)) (loop_init net shock rnd) st ->
        loop_step N (adj net) st st' ->
        Forall2 not_lower (l_nodes st) (l_nodes st'))
  /\ rtc (loop_step N (adj net)) (loop_init net shock rnd) st_end
  /\ Forall2 not_lower (l_nodes (loop_init net shock rnd)) (l_nodes st_end).
Proof.
  intros Hrun.
  pose proof (loop_init_bounded net shock rnd) as Hle.
  assert (rtc (loop_step N (adj net)) (loop_init net shock rnd) st_end)
    as Hreach by (by eapply phase2_loop_reaches).
  split.
  { simpl. eapply Forall_impl; [apply phase1_bounds|]. by intros n [? _]. }
  split.
  { intros st st' Hst Hstep. eapply loop_step_not_lower; [done|].
    by eapply rtc_loop_bounded. }
  split; [done|]. by eapply rtc_loop_not_lower.
Qed.

(** The statement of C3 on the five-bank scenario. *)
Lemma debtRank_non_decreasing_witness :
  exists st_end,
    simulate 5 scenario (Targeted 0) rnd_half = Some st_end
    /\ Forall2 not_lower
         (l_nodes (loop_init scenario (Targeted 0) rnd_half))
         (l_nodes st_end).
Proof.
  eexists. split; [vm_compute; reflexivity|].
  refine (proj2 (proj2 (proj2
    (debtRank_non_decreasing 5 scenario (Targeted 0) rnd_half _ _)))).
  vm_compute; reflexivity.
Defined.

(** C7. In the result of a run, every bank whose rank is 1 is failed and
    has no capital left. *)
Theorem rank_one_is_failed (N : nat) (net : network) (shock : shockType)
    (rnd : nat -> Q) (net' : network) (n : node) :
  runSimulation N net shock rnd = Some net' ->
  n ∈ nodes net' ->
  debtRank n == 1 ->
  isFailed n = true /\ E n == 0.
Proof.
  intros Hrun Hn Hrank.
  apply runSimulation_Some in Hrun as (st & Hst & ->). simpl in Hn.
  rewrite sort_by_debtRank_perm in Hn.
  assert (Forall settled (l_nodes st)) as Hall.
  { unfold simulate in Hst. eapply phase2_loop_settled; [done|].
    right. split; [apply loop_init_guard|done]. }
  rewrite Forall_forall in Hall.
  destruct (Hall n Hn Hrank) as (? & _ & ?). by split.
Qed.

(** The statement of C7 on the five-bank scenario, for the targeted
    bank. *)
Lemma rank_one_is_failed_witness :
  exists net' n,
    runSimulation 5 scenario (Targeted 0) rnd_half = Some net'
    /\ n ∈ nodes net' /\ debtRank n == 1
    /\ isFailed n = true /\ E n == 0.
Proof.
  eexists. eexists.
  split; [vm_compute; reflexivity|].
  split; [apply list_elem_of_here|].
  split; [reflexivity|].
  eapply (rank_one_is_failed 5 scenario (Targeted 0) rnd_half).
  - vm_compute; reflexivity.
  - apply list_elem_of_here.
  - reflexivity.
Defined.

(** ** The convergence test *)

(** The creditor loop leaves [hasConverged] true exactly when no bank's
    rank moved by more than the tolerance. *)
Lemma update_ranks_flag (N : nat) (adj : list (list Q)) (prev : list Q)
    (ns : list node) (ps : pass_state) :
  update_ranks N adj prev ns = Some ps ->
  p_hasConverged ps = true <->
  Forall2 (fun n n' => rank_delta n n' <= DEBT_RANK_TOLERANCE)
          ns (p_nodes ps).
Proof.
  intros Hps.
  apply update_ranks_inv in Hps as (_ & Hlen & Hnodes & [Hc1 Hc2] & _).
  split.
  - intros Hc. apply Forall2_same_length_lookup. split; [done|].
    intros j n n' Hj Hj'.
    destruct (decide (j < N)%nat) as [Hlt|Hge].
    + by apply (Hc1 Hc j n n').
    + destruct (Hnodes j n Hj) as (m & Hm & _ & Hsame & _).
      rewrite Hj' in Hm. inversion Hm; subst m.
      rewrite Hsame by lia. unfold rank_delta.
      apply Qabs_Qle_condition. unfold DEBT_RANK_TOLERANCE. split; lra.
  - intros Hall. apply Hc2. intros j n n' _ Hj Hj'.
    rewrite Forall2_same_length_lookup in Hall.
    destruct Hall as [_ Hall]. by apply (Hall j n n').
Qed.

(** C4, as the script has it.  A pass of the Phase-2 loop leaves the run
    marked converged if and only if no bank's rank moved by more than
    [DEBT_RANK_TOLERANCE] in the creditor loop of that pass (a change equal
    to the tolerance counts as converged); the banks of the pass result are
    the re-evaluated banks of the creditor loop, and a converged pass is
    the last one: the loop returns its result with one more iteration
    counted. *)
Theorem converged_iff_no_delta_above_tolerance (N : nat)
    (adj : list (list Q)) (fuel : nat) (st : loop_state) (r : pass_result) :
  loop_guard st = true ->
  phase2_pass N adj (previousRanks st) (l_nodes st) = Some r ->
  exists ps,
    update_ranks N adj (previousRanks st) (l_nodes st) = Some ps
    /\ r_nodes r = map reevaluate (p_nodes ps)
    /\ (r_hasConverged r = true <->
        Forall2 (fun n n' => rank_delta n n' <= DEBT_RANK_TOLERANCE)
                (l_nodes st) (p_nodes ps))
    /\ (r_hasConverged r = true ->
        phase2_loop N adj (S fuel) st
        = Some (mkLoop (r_nodes r) (S (iterations st)) true
                       (r_currentRanks r))).
Proof.
  intros Hg Hr.
  destruct (phase2_pass_Some _ _ _ _ _ Hr) as (ps & Hps & Hr').
  exists ps. split; [done|]. split; [by rewrite Hr'|]. split.
  - rewrite Hr'. cbn [r_hasConverged].
    rewrite (pass_flag_creditor_loop _ _ _ _ _ Hps).
    by eapply update_ranks_flag.
  - intros Hc. cbn [phase2_loop]. rewrite Hg, Hr. cbn [mbind option_bind].
    rewrite Hc. by destruct fuel.
Qed.

(** The statement of C4 on the first pass of the five-bank scenario. *)
Lemma converged_iff_no_delta_above_tolerance_witness :
  loop_guard (loop_init scenario (Targeted 0) rnd_half) = true
  /\ exists r,
       phase2_pass 5 (adj scenario)
         (previousRanks (loop_init scenario (Targeted 0) rnd_half))
         (l_nodes (loop_init scenario (Targeted 0) rnd_half)) = Some r
       /\ exists ps,
            update_ranks 5 (adj scenario)
              (previousRanks (loop_init scenario (Targeted 0) rnd_half))
              (l_nodes (loop_init scenario (Targeted 0) rnd_half)) = Some ps
            /\ r_nodes r = map reevaluate (p_nodes ps)
            /\ (r_hasConverged r = true <->
                Forall2 (fun n n' => rank_delta n n' <= DEBT_RANK_TOLERANCE)
                        (l_nodes (loop_init scenario (Targeted 0) rnd_half))
                        (p_nodes ps))
            /\ (r_hasConverged r = true ->
                phase2_loop 5 (adj scenario) 100
                  (loop_init scenario (Targeted 0) rnd_half)
                = Some (mkLoop (r_nodes r) 1 true (r_currentRanks r))).
Proof.
  split; [reflexivity|]. eexists. split; [vm_compute; reflexivity|].
  apply (converged_iff_no_delta_above_tolerance 5 (adj scenario) 99
           (loop_init scenario (Targeted 0) rnd_half)).
  - reflexivity.
  - vm_compute; reflexivity.
Defined.

(** C4, counterexample to the claim as stated.  After a first run on
    [two_banks], a second run makes one pass in which the rank of a bank
    moves by exactly the tolerance, so the largest change is not below it,
    and the pass is marked converged all the same. *)
Lemma converged_with_delta_at_tolerance :
  exists net1 ps st,
    runSimulation 2 two_banks (Targeted 1) rnd_half = Some net1
    /\ update_ranks 2 (adj net1)
         (previousRanks (loop_init net1 (Targeted 1) rnd_half))
         (l_nodes (loop_init net1 (Targeted 1) rnd_half)) = Some ps
    /\ simulate 2 net1 (Targeted 1) rnd_half = Some st
    /\ iterations st = 1%nat
    /\ hasConverged st = true
    /\ ~ Forall2 (fun n n' => rank_delta n n' < DEBT_RANK_TOLERANCE)
           (l_nodes (loop_init net1 (Targeted 1) rnd_half)) (p_nodes ps).
Proof.
  eexists. eexists. eexists.
  split; [vm_compute; reflexivity|].
  split; [vm_compute; reflexivity|].
  split; [vm_compute; reflexivity|].
  split; [reflexivity|]. split; [reflexivity|].
  intros Hall. apply Forall2_cons_1 in Hall as [_ Hall].
  apply Forall2_cons_1 in Hall as [Hlt _].
  vm_compute in Hlt. discriminate Hlt.
Qed.

(** ** Runs on a snapshot whose banks are at their positions *)

Lemma reevaluate_forced (n : node) :
  forced n = true ->
  debtRank (reevaluate n) = 1 /\ isFailed (reevaluate n) = true
  /\ stressLevel (reevaluate n) = Failed /\ E (reevaluate n) = 0.
Proof.
  unfold forced, reevaluate. cbn [set_E E debtRank E_initial].
  by intros ->.
Qed.

Lemma reevaluate_unforced (n : node) :
  forced n = false ->
  debtRank (reevaluate n) = debtRank n
  /\ isFailed (reevaluate n) = isFailed n
  /\ E (reevaluate n) = E_initial n * (1 - debtRank n).
Proof.
  unfold forced, reevaluate. cbn [set_E E debtRank E_initial].
  intros ->. by destruct (Qltb _ _).
Qed.

Lemma reevaluate_outcome (n1 n' : node) :
  n' = set_debtRank n1 (debtRank n') ->
  debtRank n' == debtRank n1 ->
  phase1_outcome n1 (reevaluate n').
Proof.
  intros Hst Heq.
  assert (id n' = id n1 /\ isFailed n' = isFailed n1
          /\ E_initial n' = E_initial n1) as (Hid & Hfa & HE)
    by (by rewrite Hst).
  assert (forced n' = forced n1) as Hf.
  { unfold forced. by rewrite HE, Heq. }
  unfold phase1_outcome. rewrite reevaluate_id. split; [done|].
  rewrite <- Hf. split; intros Hforced.
  - destruct (reevaluate_forced n' Hforced) as (-> & -> & -> & ->).
    repeat split; reflexivity.
  - destruct (reevaluate_unforced n' Hforced) as (-> & -> & ->).
    rewrite HE, Heq. repeat split; done.
Qed.

(** C2, as the script behaves.  On a snapshot of [N] banks whose array is
    in id order, the Phase-2 loop converges on its first pass with nothing
    propagated: [previousRanks] equals the vector of current ranks, the
    creditor loop changes no rank, and every bank ends with its Phase-1
    rank unless the re-evaluation forces it to Failed with rank 1 and no
    capital. *)
Theorem first_pass_converges_in_id_order (N : nat) (net : network)
    (shock : shockType) (rnd : nat -> Q) :
  length (nodes net) = N ->
  length (adj net) = N ->
  ids_aligned (nodes net) ->
  exists st ps,
    simulate N net shock rnd = Some st
    /\ iterations st = 1%nat
    /\ hasConverged st = true
    /\ previousRanks (loop_init net shock rnd)
       = map debtRank (l_nodes (loop_init net shock rnd))
    /\ update_ranks N (adj net) (previousRanks (loop_init net shock rnd))
         (l_nodes (loop_init net shock rnd)) = Some ps
    /\ Forall2 (fun n n' => debtRank n' == debtRank n)
         (l_nodes (loop_init net shock rnd)) (p_nodes ps)
    /\ Forall2 phase1_outcome (l_nodes (loop_init net shock rnd))
         (l_nodes st).
Proof.
  intros Hn Ha Hal.
  set (ns := l_nodes (loop_init net shock rnd)).
  assert (previousRanks (loop_init net shock rnd) = map debtRank ns)
    as Hprev.
  { cbn [loop_init previousRanks]. apply initialRanks_of_aligned.
    by apply phase1_ids_aligned. }
  assert (length ns = N) as Hlen.
  { unfold ns. cbn [loop_init l_nodes].
    by rewrite phase1_length, length_map. }
  destruct (update_ranks_total N (adj net) (map debtRank ns) ns)
    as [ps Hps]; [lia|lia|rewrite length_map; lia|].
  pose proof (update_ranks_inv _ _ _ _ _ Hps)
    as (_ & Hlen' & Hnodes & _).
  assert (Forall2 (fun n n' => n' = set_debtRank n (debtRank n')
                               /\ debtRank n' == debtRank n)
            ns (p_nodes ps)) as Hsame.
  { apply Forall2_same_length_lookup. split; [done|].
    intros j n n' Hj Hj'.
    destruct (Hnodes j n Hj) as (m & Hm & Hst & _ & _ & Hz).
    rewrite Hj' in Hm. inversion Hm; subst m. split; [done|].
    by apply Hz. }
  assert (p_hasConverged ps = true) as Hconv.
  { apply (update_ranks_flag _ _ _ _ _ Hps).
    eapply Forall2_impl; [exact Hsame|].
    intros n n' [_ Heq]. unfold rank_delta.
    apply Qabs_Qle_condition. unfold DEBT_RANK_TOLERANCE. split; lra. }
  exists (mkLoop (map reevaluate (p_nodes ps)) 1 true (map debtRank ns)), ps.
  split.
  { unfold simulate. change MAX_ITERATIONS with (S 99).
    cbn [phase2_loop]. rewrite loop_init_guard.
    fold ns. rewrite Hprev. unfold phase2_pass. rewrite Hps.
    cbn [mbind option_bind].
    rewrite (pass_flag_creditor_loop _ _ _ _ _ Hps), Hconv.
    reflexivity. }
  split; [done|]. split; [done|]. split; [done|].
  split; [by rewrite Hprev|]. split.
  { eapply Forall2_impl; [exact Hsame|]. by intros n n' [_ ?]. }
  cbn [l_nodes]. apply Forall2_fmap_r.
  eapply Forall2_impl; [exact Hsame|].
  intros n n' [Hst Heq]. by apply reevaluate_outcome.
Qed.

(** The statement of C2 on the five-bank scenario under the
    macroeconomic shock. *)
Lemma first_pass_converges_in_id_order_witness :
  length (nodes scenario) = 5%nat /\ length (adj scenario) = 5%nat
  /\ ids_aligned (nodes scenario)
  /\ exists st,
       simulate 5 scenario Macro rnd_half = Some st
       /\ iterations st = 1%nat /\ hasConverged st = true
       /\ Forall2 phase1_outcome (l_nodes (loop_init scenario Macro rnd_half))
            (l_nodes st).
Proof.
  assert (ids_aligned (nodes scenario)) as Hal.
  { intros i n Hi.
    do 5 (destruct i as [|i]; [by inversion Hi|]). by inversion Hi. }
  split; [reflexivity|]. split; [reflexivity|]. split; [exact Hal|].
  destruct (first_pass_converges_in_id_order 5 scenario Macro rnd_half
              eq_refl eq_refl Hal)
    as (st & ps & H1 & H2 & H3 & _ & _ & _ & H7).
  exists st. by repeat split.
Defined.

(** C2, counterexample to the claim as stated.  The network that a run
    leaves in [network] is sorted by rank; on it, a second run makes two
    passes, and the bank at position 1, whose Phase-1 rank is 0 and which
    is not forced, ends with rank 1. *)
Lemma second_run_propagates :
  exists net1 st n1 n2,
    runSimulation 5 scenario (Targeted 1) rnd_half = Some net1
    /\ simulate 5 net1 (Targeted 1) rnd_half = Some st
    /\ iterations st = 2%nat
    /\ l_nodes (loop_init net1 (Targeted 1) rnd_half) !! 1%nat = Some n1
    /\ l_nodes st !! 1%nat = Some n2
    /\ debtRank n1 == 0 /\ forced n1 = false
    /\ debtRank n2 == 1.
Proof.
  do 4 eexists.
  split; [vm_compute; reflexivity|].
  split; [vm_compute; reflexivity|].
  split; [reflexivity|].
  split; [vm_compute; reflexivity|].
  split; [vm_compute; reflexivity|].
  repeat split; reflexivity.
Qed.

(** ** The targeted-shock scenario *)

(** C1, evaluated on the script.  In the five-bank scenario, the shock
    targeted at bank 0 fails bank 0 with rank 1 in Phase 1; the first pass
    of Phase 2 then propagates nothing to bank 1, whose rank stays 0, as do
    the ranks of banks 2, 3 and 4; the loop ends after that pass. *)
Theorem targeted_shock_reaches_no_creditor :
  exists st r p,
    simulate 5 scenario (Targeted 0) rnd_half = Some st
    /\ map (fun n => (id n, isFailed n, stressLevel n))
           (l_nodes (loop_init scenario (Targeted 0) rnd_half))
       = [ (0, true, Failed); (1, false, Healthy); (2, false, Healthy);
           (3, false, Healthy); (4, false, Healthy) ]%nat
    /\ Forall2 Qeq
         (map debtRank (l_nodes (loop_init scenario (Targeted 0) rnd_half)))
         [1; 0; 0; 0; 0]
    /\ propagatedLossRatio 5 (adj scenario)
         (l_nodes (loop_init scenario (Targeted 0) rnd_half))
         (map debtRank (l_nodes (loop_init scenario (Targeted 0) rnd_half)))
         (previousRanks (loop_init scenario (Targeted 0) rnd_half)) 1
       = Some p
    /\ p == 0
    /\ phase2_pass 5 (adj scenario)
         (previousRanks (loop_init scenario (Targeted 0) rnd_half))
         (l_nodes (loop_init scenario (Targeted 0) rnd_half)) = Some r
    /\ Forall2 Qeq (map debtRank (r_nodes r)) [1; 0; 0; 0; 0]
    /\ iterations st = 1%nat
    /\ Forall2 Qeq (map debtRank (l_nodes st)) [1; 0; 0; 0; 0].
Proof.
  do 3 eexists.
  split; [vm_compute; reflexivity|].
  split; [reflexivity|].
  split; [by repeat constructor|].
  split; [vm_compute; reflexivity|].
  split; [reflexivity|].
  split; [vm_compute; reflexivity|].
  split; [by repeat constructor|].
  split; [reflexivity|].
  by repeat constructor.
Qed.

(** Had [previousRanks] still held the zeros with which [initialRanks] is
    created, the first pass would carry the failure of bank 0 over to its
    only creditor, bank 1, and to no other bank. *)
Lemma targeted_shock_with_zero_previous_ranks :
  exists r,
    phase2_pass 5 (adj scenario) [0; 0; 0; 0; 0]
      (l_nodes (loop_init scenario (Targeted 0) rnd_half)) = Some r
    /\ Forall2 Qeq (map debtRank (r_nodes r)) [1; 1; 0; 0; 0].
Proof.
  eexists. split; [vm_compute; reflexivity|]. by repeat constructor.
Qed.

(** ** Repeated runs *)

(** The matrix of exposures is never written by a run. *)
Lemma runSimulation_adj (N : nat) (net : network) (shock : shockType)
    (rnd : nat -> Q) (net' : network) :
  runSimulation N net shock rnd = Some net' -> adj net' = adj net.
Proof.
  intros Hrun. by apply runSimulation_Some in Hrun as (st & _ & ->).
Qed.

Lemma reevaluate_static (n : node) :
  static_fields (reevaluate n) = static_fields n.
Proof.
  unfold reevaluate. cbn [E debtRank set_E].
  destruct (_ || _); [done|]. by destruct (Qltb _ _).
Qed.

Lemma initial_status_static (n : node) :
  static_fields (initial_status n) = static_fields n.
Proof.
  unfold initial_status. destruct (Qle_bool (E n) 0); [done|].
  cbn [debtRank set_debtRank]. by destruct (Qle_bool _ _).
Qed.

Lemma apply_shock_static (shock : shockType) (u : Q) (n : node) :
  static_fields (apply_shock shock u n) = static_fields n.
Proof.
  destruct shock as [|t| |]; simpl; try done.
  - by destruct (Nat.eqb _ _).
  - by destruct (Qltb _ _).
Qed.

Lemma phase2_pass_static (N : nat) (adj : list (list Q)) (prev : list Q)
    (ns : list node) (r : pass_result) :
  phase2_pass N adj prev ns = Some r ->
  map static_fields (r_nodes r) = map static_fields ns.
Proof.
  intros Hrun. apply phase2_pass_Some in Hrun as (st & Hst & ->).
  apply update_ranks_inv in Hst as (_ & Hlen & Hnodes & _).
  cbn [r_nodes]. apply list_eq. intros j.
  rewrite !list_lookup_fmap.
  destruct (ns !! j) as [n|] eqn:Hj.
  - destruct (Hnodes j n Hj) as (n' & -> & Hst & _). cbn.
    by rewrite reevaluate_static, Hst.
  - apply lookup_ge_None in Hj. rewrite <- Hlen in Hj.
    apply lookup_ge_None in Hj. by rewrite Hj.
Qed.

Lemma phase2_loop_static (N : nat) (adj : list (list Q)) (fuel : nat)
    (st st' : loop_state) :
  phase2_loop N adj fuel st = Some st' ->
  map static_fields (l_nodes st') = map static_fields (l_nodes st).
Proof.
  revert st. induction fuel as [|fuel IH]; intros st Hrun; simpl in Hrun.
  - by inversion Hrun; subst.
  - destruct (loop_guard st).
    + apply bind_Some in Hrun as (r & Hr & Hrun).
      apply IH in Hrun. cbn [l_nodes] in Hrun.
      by rewrite Hrun, (phase2_pass_static _ _ _ _ _ Hr).
    + by inversion Hrun; subst.
Qed.

(** A run leaves every bank's static fields as they were; only the order
    of the array may change. *)
Lemma simulate_static (N : nat) (net : network) (shock : shockType)
    (rnd : nat -> Q) (st : loop_state) :
  simulate N net shock rnd = Some st ->
  map static_fields (l_nodes st) = map static_fields (nodes net).
Proof.
  intros Hst. unfold simulate in Hst. apply phase2_loop_static in Hst.
  rewrite Hst. cbn [loop_init l_nodes].
  apply list_eq. intros j.
  rewrite !list_lookup_fmap, phase1_lookup, list_lookup_fmap.
  destruct (nodes net !! j) as [n|]; [|done]. cbn.
  by rewrite initial_status_static, apply_shock_static.
Qed.

Lemma runSimulation_static (N : nat) (net : network) (shock : shockType)
    (rnd : nat -> Q) (net' : network) :
  runSimulation N net shock rnd = Some net' ->
  map static_fields (nodes net') ≡ₚ map static_fields (nodes net).
Proof.
  intros Hrun. apply runSimulation_Some in Hrun as (st & Hst & ->).
  cbn [nodes]. rewrite sort_by_debtRank_perm.
  by rewrite (simulate_static _ _ _ _ _ Hst).
Qed.

(** After the loop the rows of the table can be read when the ids of the
    banks are below the number of rows of the matrix. *)
Lemma run_rows_readable (N : nat) (net : network) (shock : shockType)
    (rnd : nat -> Q) (st : loop_state) :
  simulate N net shock rnd = Some st ->
  length (adj net) = N ->
  Forall (fun n => (id n < N)%nat) (nodes net) ->
  is_Some (dashboard_rows
             (updateMetricsDashboard (mkNetwork (l_nodes st) (adj net)))).
Proof.
  intros Hst Ha Hids. apply dashboard_rows_is_Some.
  unfold updateMetricsDashboard. cbn [nodes adj].
  apply Forall_forall. intros n Hn. rewrite sort_by_debtRank_perm in Hn.
  apply lookup_lt_is_Some_2. rewrite Ha.
  assert (static_fields n ∈ map static_fields (nodes net)) as Hin.
  { rewrite <- (simulate_static _ _ _ _ _ Hst).
    by apply list_elem_of_fmap_2. }
  apply list_elem_of_fmap in Hin as (n0 & Heq & Hn0).
  rewrite Forall_forall in Hids. specialize (Hids n0 Hn0).
  assert (id n = id n0) as ->; [|done].
  by apply (f_equal (fun t => t.1.1.1.1.1.1.1)) in Heq.
Qed.

Lemma runSimulation_run (N : nat) (net : network) (shock : shockType)
    (rnd : nat -> Q) (st : loop_state) :
  simulate N net shock rnd = Some st ->
  is_Some (dashboard_rows
             (updateMetricsDashboard (mkNetwork (l_nodes st) (adj net)))) ->
  runSimulation N net shock rnd
  = Some (updateMetricsDashboard (mkNetwork (l_nodes st) (adj net))).
Proof.
  intros Hst [rows Hrows]. unfold runSimulation. rewrite Hst.
  cbn [mbind option_bind]. cbn zeta. by rewrite Hrows.
Qed.

(** A run reads the capital, rank and status of the banks of its input
    only through the working copy, which resets them. *)
Lemma simulate_ignores_previous_result (N : nat) (net1 net2 : network)
    (shock : shockType) (rnd : nat -> Q) :
  map working_copy (nodes net1) = map working_copy (nodes net2) ->
  adj net1 = adj net2 ->
  simulate N net1 shock rnd = simulate N net2 shock rnd.
Proof.
  intros Hn Ha. unfold simulate, loop_init. by rewrite Hn, Ha.
Qed.

(** C5, evaluated on the script.  On [two_banks], the shock targeted at
    bank 0 leaves bank 1 untouched; after a run with the shock targeted at
    bank 1, which leaves [network.nodes] sorted by rank with bank 1 first,
    the same shock targeted at bank 0 fails bank 1 as well.  The matrix of
    exposures is the same in all three networks. *)
Theorem second_run_depends_on_first :
  exists fresh net1 again,
    runSimulation 2 two_banks (Targeted 0) rnd_half = Some fresh
    /\ runSimulation 2 two_banks (Targeted 1) rnd_half = Some net1
    /\ runSimulation 2 net1 (Targeted 0) rnd_half = Some again
    /\ map id (nodes two_banks) = [0; 1]%nat
    /\ map id (nodes net1) = [1; 0]%nat
    /\ adj net1 = adj two_banks /\ adj again = adj two_banks
    /\ map (fun n => (id n, isFailed n, stressLevel n)) (nodes fresh)
       = [ (0, true, Failed); (1, false, Healthy) ]%nat
    /\ Forall2 Qeq (map debtRank (nodes fresh)) [1; 0]
    /\ map (fun n => (id n, isFailed n, stressLevel n)) (nodes again)
       = [ (1, true, Failed); (0, true, Failed) ]%nat
    /\ Forall2 Qeq (map debtRank (nodes again)) [1; 1].
Proof.
  do 3 eexists.
  split; [vm_compute; reflexivity|].
  split; [vm_compute; reflexivity|].
  split; [vm_compute; reflexivity|].
  repeat split; try reflexivity; by repeat constructor.
Qed.

(** ** The random shock *)

(** C6, as the script has it.  Under the random shock, a bank with
    positive initial capital whose draw is below 0.1 loses 0.8 of its
    initial capital in Phase 1 and ends the phase not failed, with rank 0.8
    and stress level Stressed. *)
Theorem random_shock_stresses (net : network) (rnd : nat -> Q) (k : nat)
    (n0 : node) :
  nodes net !! k = Some n0 ->
  rnd k < 1 # 10 ->
  0 < E_initial n0 ->
  exists n1,
    l_nodes (loop_init net Random rnd) !! k = Some n1
    /\ id n1 = id n0
    /\ E n1 == E_initial n0 - E_initial n0 * (8 # 10)
    /\ isFailed n1 = false
    /\ debtRank n1 == 8 # 10
    /\ stressLevel n1 = Stressed.
Proof.
  intros Hk Hdraw Hpos. cbn [loop_init l_nodes].
  rewrite phase1_lookup, list_lookup_fmap, Hk. cbn [fmap option_fmap option_map].
  eexists. split; [reflexivity|].
  apply Qltb_iff in Hdraw. cbn [apply_shock]. rewrite Hdraw.
  unfold initial_status. cbn [working_copy set_E E E_initial].
  assert (Qle_bool (E_initial n0 - E_initial n0 * (8 # 10)) 0 = false) as ->
    by (apply Qle_bool_false_iff; lra).
  assert (initialRank
            (set_E (working_copy n0)
                   (E_initial n0 - E_initial n0 * (8 # 10))) == 8 # 10)
    as Hrank.
  { unfold initialRank. cbn [working_copy set_E E E_initial].
    destruct (Qeq_bool (E_initial n0) 0) eqn:Hz.
    - apply Qeq_bool_iff in Hz. lra.
    - assert (1 - (E_initial n0 - E_initial n0 * (8 # 10)) / E_initial n0
              == 8 # 10) as Hq by (field; lra).
      rewrite clamp_id; [done|lra|lra]. }
  cbn [set_debtRank debtRank].
  assert (Qle_bool (5 # 10)
            (initialRank
               (set_E (working_copy n0)
                      (E_initial n0 - E_initial n0 * (8 # 10)))) = true)
    as -> by (apply Qle_bool_iff; lra).
  cbn. repeat split; try reflexivity. exact Hrank.
Qed.

(** The statement of C6 on bank 0 of the five-bank scenario. *)
Lemma random_shock_stresses_witness :
  nodes scenario !! 0%nat = Some (scenario_bank 0 900 0)
  /\ rnd_low 0%nat < 1 # 10
  /\ 0 < E_initial (scenario_bank 0 900 0)
  /\ exists n1,
       l_nodes (loop_init scenario Random rnd_low) !! 0%nat = Some n1
       /\ id n1 = id (scenario_bank 0 900 0)
       /\ E n1 == E_initial (scenario_bank 0 900 0)
                  - E_initial (scenario_bank 0 900 0) * (8 # 10)
       /\ isFailed n1 = false
       /\ debtRank n1 == 8 # 10
       /\ stressLevel n1 = Stressed.
Proof.
  split; [reflexivity|]. split; [reflexivity|]. split; [reflexivity|].
  apply (random_shock_stresses scenario rnd_low 0 (scenario_bank 0 900 0));
    reflexivity.
Defined.

(** C6, counterexample to the claim as stated.  In the scenario, with a
    draw of 0.05 for every bank, bank 0 is selected by the random shock
    and leaves Phase 1 not failed, Stressed, with a rank that is not 1. *)
Lemma random_shock_does_not_fail :
  exists n1,
    rnd_low 0%nat < 1 # 10
    /\ l_nodes (loop_init scenario Random rnd_low) !! 0%nat = Some n1
    /\ isFailed n1 = false
    /\ stressLevel n1 = Stressed
    /\ ~ debtRank n1 == 1.
Proof.
  eexists. split; [reflexivity|].
  split; [vm_compute; reflexivity|].
  split; [reflexivity|]. split; [reflexivity|].
  intros H. vm_compute in H. discriminate H.
Qed.

(** ** Network generation *)

Lemma loop_upto_inv {St : Type} (P : nat -> St -> Prop) (n : nat)
    (body : nat -> St -> St) (s : St) :
  P 0%nat s ->
  (forall k t, (k < n)%nat -> P k t -> P (S k) (body k t)) ->
  P n (loop_upto n body s).
Proof.
  intros H0 Hstep. induction n as [|n IH]; simpl; [done|].
  apply Hstep; [lia|]. apply IH. intros k t Hk. apply Hstep. lia.
Qed.

Lemma forEach_opt_inv {T St : Type} (P : St -> Prop)
    (body : St -> T -> option St) (l : list T) (s s' : St) :
  forEach_opt body l s = Some s' ->
  P s ->
  (forall t x t', P t -> body t x = Some t' -> P t') ->
  P s'.
Proof.
  intros Hrun Hs Hstep. revert s Hrun Hs.
  induction l as [|x l IH]; intros s Hrun Hs; simpl in Hrun.
  - by inversion Hrun; subst.
  - apply bind_Some in Hrun as (t & Ht & Hrun).
    apply (IH t); [done|]. by eapply Hstep.
Qed.

Lemma forEach_opt_total {T St : Type} (P : St -> Prop)
    (body : St -> T -> option St) (l : list T) (s : St) :
  P s ->
  (forall t x, P t -> exists t', body t x = Some t' /\ P t') ->
  exists s', forEach_opt body l s = Some s' /\ P s'.
Proof.
  intros Hs Hstep. revert s Hs.
  induction l as [|x l IH]; intros s Hs; simpl; [by exists s|].
  destruct (Hstep s x Hs) as (t & -> & Ht). simpl. by apply IH.
Qed.

Lemma row_sum_replicate (n : nat) : row_sum (replicate n 0) == 0.
Proof.
  induction n as [|n IH]; simpl; [reflexivity|].
  unfold row_sum in IH. rewrite IH. ring.
Qed.

(** Writing a non-negative value into a row of non-negative entries adds
    at most that value to the sum of the row. *)
Lemma row_sum_insert_le (row : list Q) (j : nat) (v : Q) :
  Forall (fun x => 0 <= x) row -> 0 <= v ->
  row_sum (<[j := v]> row) <= row_sum row + v.
Proof.
  intros Hrow Hv. revert j.
  induction Hrow as [|x row Hx _ IH]; intros j; simpl; [lra|].
  destruct j as [|j]; simpl.
  - unfold row_sum. lra.
  - specialize (IH j). unfold row_sum in *. lra.
Qed.

Section GeneratorProofs.

Variable rnd : nat -> Q.
Variable shuffle : forall T : Type, list T -> nat -> list T * nat.

Lemma push_bank_inv (names : list string) (N : nat) (c0 : nat) :
  let st := loop_upto N (push_bank rnd names) ([], c0) in
  length (fst st) = N /\ ids_aligned (fst st)
  /\ Forall (fun n => debtRank n = 0) (fst st)
  /\ (in_unit_interval rnd -> Forall fresh_bank (fst st)).
Proof.
  apply (loop_upto_inv
    (fun k (st : list node * nat) =>
       length (fst st) = k /\ ids_aligned (fst st)
       /\ Forall (fun n => debtRank n = 0) (fst st)
       /\ (in_unit_interval rnd -> Forall fresh_bank (fst st)))).
  - simpl. repeat split; [by intros i n Hi|done|done].
  - intros k [ns c] _ (Hlen & Hal & Hrank & Hfresh). simpl in *.
    split; [rewrite length_app; simpl; lia|]. split.
    { intros i n Hi. destruct (decide (i < length ns)%nat) as [Hlt|Hge].
      - rewrite lookup_app_l in Hi by done. by apply Hal.
      - rewrite lookup_app_r in Hi by lia.
        destruct (i - length ns)%nat as [|m] eqn:Hm; simpl in Hi; [|done].
        inversion Hi; subst. simpl. lia. }
    split.
    { apply Forall_app. split; [done|]. by repeat constructor. }
    intros Hrnd. apply Forall_app. split; [by apply Hfresh|].
    repeat constructor. simpl.
    destruct (Hrnd c) as [Hc0 Hc1]. destruct (Hrnd (c + 1)%nat) as [Hd0 Hd1].
    unfold ASSETS_MAX, ASSETS_MIN, MAX_CAPITAL_RATIO, MIN_CAPITAL_RATIO.
    set (a := rnd c * (5000 - 1000) + 1000).
    set (q := rnd (c + 1) * ((15 # 100) - (8 # 100)) + (8 # 100)).
    assert (0 <= a) as Ha by (unfold a; lra).
    assert (0 <= 1 - q) as Hq by (unfold q; lra).
    assert (a - a * q == a * (1 - q)) as -> by ring.
    by apply Qmult_le_0_compat.
Qed.

Lemma assign_share_inv (N k : nat) (adj0 : list (list Q)) (totalIBL : Q)
    (debtor creditor : node) (sh : share_state) :
  id debtor = k -> (k < N)%nat ->
  share_inv N k adj0 totalIBL sh ->
  exists sh', assign_share rnd debtor totalIBL sh creditor = Some sh'
    /\ share_inv N k adj0 totalIBL sh'.
Proof.
  intros Hid Hk (Hlen & Hrows & Hother & Hsum & H0 & Hle).
  unfold assign_share.
  set (share := Qmin (totalIBL * (rnd (s_calls sh) * (4 # 10) + (1 # 10)))
                     (totalIBL - assignedLiability sh)).
  case_cmp; [|eexists; split; [done|]; by repeat split].
  unfold adj_write. rewrite Hid.
  destruct (lookup_lt_is_Some_2 (s_adj sh) k) as [row Hrow]; [lia|].
  rewrite Hrow. simpl. eexists. split; [done|].
  assert (share <= totalIBL - assignedLiability sh) as Hshare
    by apply Q.le_min_r.
  assert (row_ok N row) as [Hrlen Hrpos].
  { rewrite Forall_forall in Hrows. apply Hrows.
    by eapply list_elem_of_lookup_2. }
  unfold share_inv. simpl. split; [by rewrite length_insert|]. split.
  { apply Forall_insert; [done|]. split; [by rewrite length_insert|].
    apply Forall_insert; [done|lra]. }
  split.
  { intros i Hik. rewrite list_lookup_insert_ne by done. by apply Hother. }
  split.
  { intros row' Hrow'.
    rewrite list_lookup_insert_eq in Hrow' by lia.
    inversion Hrow'; subst row'.
    pose proof (row_sum_insert_le row (id creditor) share Hrpos) as Hins.
    specialize (Hsum row Hrow). lra. }
  split; lra.
Qed.

Lemma assign_debtor_inv (N k : nat) (st : list node * list (list Q) * nat) :
  (k < N)%nat -> debtor_inv rnd N k st ->
  exists st', assign_debtor rnd shuffle k st = Some st'
    /\ debtor_inv rnd N (S k) st'.
Proof.
  intros Hk. destruct st as [[ns adj0] c].
  intros (Hlen & Hal & Hrank & Halen & Hrows & Hrnd). cbn [fst snd] in *.
  unfold assign_debtor.
  destruct (lookup_lt_is_Some_2 ns k) as [debtor0 Hd]; [lia|].
  rewrite Hd.
  set (totalIBL := L debtor0 * ((15 # 100) + rnd c * (15 # 100))).
  set (debtor := set_L_interbank debtor0 totalIBL).
  destruct (shuffle node _ _) as [shuffled c'].
  assert (id debtor = k) as Hid by (cbn; by apply Hal).
  (* the distribution loop runs and keeps what does not depend on the
     random draws *)
  destruct (forEach_opt_total
    (fun sh => length (s_adj sh) = N /\ Forall (row_ok N) (s_adj sh)
               /\ (forall i, i <> k -> s_adj sh !! i = adj0 !! i))
    (assign_share rnd debtor totalIBL)
    (take (Z.to_nat (Qfloor (rnd (c + 1) * 4)) + 1) shuffled)
    (mkShare adj0 0 c')) as (sh & Hsh & Hshlen & Hshrows & Hshother).
  { by repeat split. }
  { intros t x (Htl & Htr & Hto). unfold assign_share.
    case_cmp; [|eexists; split; [done|]; by repeat split].
    unfold adj_write. rewrite Hid.
    destruct (lookup_lt_is_Some_2 (s_adj t) k) as [row Hrow]; [lia|].
    rewrite Hrow. simpl. eexists. split; [done|]. simpl.
    assert (row_ok N row) as [Hrlen Hrpos].
    { rewrite Forall_forall in Htr. apply Htr.
      by eapply list_elem_of_lookup_2. }
    split; [by rewrite length_insert|]. split.
    - apply Forall_insert; [done|]. split; [by rewrite length_insert|].
      apply Forall_insert; [done|lra].
    - intros i Hik. rewrite list_lookup_insert_ne by done. by apply Hto. }
  rewrite Hsh. simpl. eexists. split; [done|].
  unfold debtor_inv. simpl.
  split; [by rewrite length_insert|]. split.
  { intros i n Hi. destruct (decide (i = k)) as [->|Hik].
    - rewrite list_lookup_insert_eq in Hi by lia. by inversion Hi; subst.
    - rewrite list_lookup_insert_ne in Hi by done. by apply Hal. }
  split.
  { apply Forall_insert; [done|]. simpl.
    rewrite Forall_forall in Hrank. apply Hrank.
    by eapply list_elem_of_lookup_2. }
  split; [done|]. split; [done|].
  intros Hunit. destruct (Hrnd Hunit) as [Hfresh Hsums].
  assert (fresh_bank debtor0) as [HL Hr0].
  { rewrite Forall_forall in Hfresh. apply Hfresh.
    by eapply list_elem_of_lookup_2. }
  assert (0 <= totalIBL) as Htot.
  { unfold totalIBL. apply Qmult_le_0_compat; [done|].
    destruct (Hunit c). lra. }
  split.
  { apply Forall_insert; [done|]. by split. }
  (* with draws in the unit interval the distribution stays within
     [totalIBL] *)
  assert (share_inv N k adj0 totalIBL sh) as (_ & _ & _ & Hsum & _ & Hle).
  { apply (forEach_opt_inv (share_inv N k adj0 totalIBL) _ _ _ _ Hsh).
    - unfold share_inv. simpl. repeat split; try done; try lra.
      intros row Hrow.
      destruct (Hsums k debtor0 row Hd Hrow) as [_ Hz].
      rewrite Hz by lia. lra.
    - intros t x t' Ht Hbody.
      destruct (assign_share_inv N k adj0 totalIBL debtor x t Hid Hk Ht)
        as (t2 & Ht2 & Hinv).
      rewrite Hbody in Ht2. by inversion Ht2; subst. }
  intros i n row Hi Hrow. destruct (decide (i = k)) as [->|Hik].
  - rewrite list_lookup_insert_eq in Hi by lia. inversion Hi; subst n.
    split; [|lia]. intros _. simpl. specialize (Hsum row Hrow). lra.
  - rewrite list_lookup_insert_ne in Hi by done.
    rewrite Hshother in Hrow by done.
    destruct (Hsums i n row Hi Hrow) as [Hlt Hge].
    split; [intros; apply Hlt; lia|intros; apply Hge; lia].
Qed.

(** The third step succeeds on an [N] by [N] matrix and changes the
    interbank and external assets only. *)
Lemma finalize_bank_total (N : nat) (adj : list (list Q)) (n : node) :
  length adj = N -> Forall (row_ok N) adj -> (id n < N)%nat ->
  exists n', finalize_bank N adj n = Some n'
    /\ id n' = id n /\ L_interbank n' = L_interbank n
    /\ debtRank n' = debtRank n.
Proof.
  intros Hlen Hrows Hid. unfold finalize_bank.
  destruct (for_upto_total (fun _ _ => True) N
    (fun j acc => x ← adj_read adj j (id n); Some (acc + x)) 0)
    as (a & -> & _); [done| |simpl; by eauto].
  intros j acc Hj _. unfold adj_read.
  destruct (lookup_lt_is_Some_2 adj j) as [row Hrow]; [lia|].
  rewrite Hrow. simpl.
  assert (row_ok N row) as [Hrlen _].
  { rewrite Forall_forall in Hrows. apply Hrows.
    by eapply list_elem_of_lookup_2. }
  destruct (lookup_lt_is_Some_2 row (id n)) as [x ->]; [lia|].
  simpl. by eauto.
Qed.

Lemma insert_desc_zero (x : node) (l : list node) :
  debtRank x = 0 -> Forall (fun n => debtRank n = 0) l ->
  insert_desc x l = x :: l.
Proof.
  intros Hx Hl. destruct Hl as [|y l Hy _]; simpl; [done|].
  by rewrite Hx, Hy.
Qed.

(** Sorting by rank leaves an array of banks of rank 0 as it is. *)
Lemma sort_by_debtRank_zero (l : list node) :
  Forall (fun n => debtRank n = 0) l -> sort_by_debtRank l = l.
Proof.
  induction 1 as [|x l Hx Hl IH]; [done|].
  change (insert_desc x (sort_by_debtRank l) = x :: l).
  rewrite IH. by apply insert_desc_zero.
Qed.

(** [generateNetwork] returns for every [N]; the network has [N] banks in
    id order and an [N] by [N] matrix, and, when the random draws are in
    the unit interval, no row sums to more than the interbank liability of
    its debtor. *)
Lemma generateNetwork_spec (N : nat) :
  exists net,
    generateNetwork rnd shuffle N = Some net
    /\ shape N net
    /\ ids_aligned (nodes net)
    /\ Forall (fun n => debtRank n = 0) (nodes net)
    /\ Forall (row_ok N) (adj net)
    /\ (in_unit_interval rnd ->
        forall i n, nodes net !! i = Some n ->
          exists row, adj net !! i = Some row
            /\ row_sum row <= L_interbank n).
Proof.
  unfold generateNetwork.
  destruct (shuffle string _ _) as [names c0].
  pose proof (push_bank_inv names N c0) as Hpush. cbn zeta in Hpush.
  destruct (loop_upto N (push_bank rnd names) ([], c0)) as [ns1 c1].
  cbn [fst] in Hpush. destruct Hpush as (Hlen1 & Hal1 & Hrank1 & Hfresh1).
  destruct (for_upto_total (debtor_inv rnd N) N (assign_debtor rnd shuffle)
              (ns1, replicate N (replicate N 0), c1))
    as ([[ns2 adj2] c2] & -> & Hinv).
  { unfold debtor_inv. cbn [fst snd].
    split; [done|]. split; [done|]. split; [done|].
    split; [by rewrite length_replicate|]. split.
    { apply Forall_replicate. split; [by rewrite length_replicate|].
      by apply Forall_replicate. }
    intros Hunit. split; [by apply Hfresh1|].
    intros i n row _ Hrow. apply lookup_replicate_1 in Hrow as [-> _].
    split; [lia|]. intros _. apply row_sum_replicate. }
  { intros k t Hk. by apply assign_debtor_inv. }
  destruct Hinv as (Hlen2 & Hal2 & Hrank2 & Halen & Hrows & Hsums).
  cbn [fst snd mbind option_bind] in *.
  assert (forall i n, ns2 !! i = Some n ->
            exists n', finalize_bank N adj2 n = Some n'
              /\ id n' = id n /\ L_interbank n' = L_interbank n
              /\ debtRank n' = debtRank n) as Hfin.
  { intros i n Hi. apply finalize_bank_total; [done|done|].
    rewrite (Hal2 i n Hi), <- Hlen2. by eapply lookup_lt_Some. }
  destruct (mapM_is_Some_2 (finalize_bank N adj2) ns2) as [ns3 Hns3].
  { apply Forall_lookup. intros i n Hi.
    destruct (Hfin i n Hi) as (n' & Hn' & _). by exists n'. }
  rewrite Hns3. cbn [mbind option_bind].
  apply mapM_Some_1 in Hns3.
  assert (Forall2 (fun n n' => id n' = id n
                               /\ L_interbank n' = L_interbank n
                               /\ debtRank n' = debtRank n) ns2 ns3) as Hsame.
  { apply Forall2_same_length_lookup. split; [by eapply Forall2_length|].
    intros i n n3 Hi Hi3.
    destruct (Hfin i n Hi) as (n' & Hn' & Hp).
    rewrite Forall2_lookup in Hns3. specialize (Hns3 i).
    rewrite Hi, Hi3 in Hns3. inversion Hns3 as [? ? Heq|]; subst.
    rewrite Hn' in Heq. by inversion Heq; subst. }
  assert (Forall (fun n => debtRank n = 0) ns3) as Hrank3.
  { apply Forall_lookup. intros i n3 Hi3.
    destruct (Forall2_lookup_r _ _ _ _ _ Hsame Hi3) as (n & Hi & _ & _ & ->).
    rewrite Forall_lookup in Hrank2. by eapply Hrank2. }
  cbn zeta.
  assert (updateMetricsDashboard (mkNetwork ns3 adj2) = mkNetwork ns3 adj2)
    as ->.
  { unfold updateMetricsDashboard. cbn [nodes adj].
    by rewrite (sort_by_debtRank_zero ns3 Hrank3). }
  destruct (proj2 (dashboard_rows_is_Some (mkNetwork ns3 adj2)))
    as [rows ->].
  { cbn [nodes adj]. apply Forall_lookup. intros i n3 Hi3.
    destruct (Forall2_lookup_r _ _ _ _ _ Hsame Hi3) as (n & Hi & -> & _).
    rewrite (Hal2 i n Hi). apply lookup_lt_is_Some_2.
    rewrite Halen, <- Hlen2. by eapply lookup_lt_Some. }
  cbn [mbind option_bind].
  eexists. split; [done|].
  split.
  { unfold shape. cbn [nodes adj].
    split; [by rewrite <- (Forall2_length _ _ _ Hsame)|]. split; [done|].
    eapply Forall_impl; [exact Hrows|]. by intros row [? _]. }
  split.
  { intros i n3 Hi3.
    destruct (Forall2_lookup_r _ _ _ _ _ Hsame Hi3) as (n & Hi & -> & _).
    by apply Hal2. }
  split; [done|]. split; [done|].
  intros Hunit i n3 Hi3.
  destruct (Forall2_lookup_r _ _ _ _ _ Hsame Hi3) as (n & Hi & _ & -> & _).
  destruct (Hsums Hunit) as [_ Hsum].
  destruct (lookup_lt_is_Some_2 adj2 i) as [row Hrow].
  { rewrite Halen, <- Hlen2. by eapply lookup_lt_Some. }
  exists row. split; [done|].
  apply (Hsum i n row Hi Hrow). rewrite <- Hlen2. by eapply lookup_lt_Some.
Qed.

End GeneratorProofs.

(** C8. In every generated network, when the random draws lie in the unit
    interval, the row of each debtor holds [N] non-negative entries whose
    sum does not exceed the debtor's [L_interbank]. *)
Theorem row_sum_within_interbank_liability (rnd : nat -> Q)
    (shuffle : forall T : Type, list T -> nat -> list T * nat) (N : nat)
    (net : network) (n : node) :
  in_unit_interval rnd ->
  generateNetwork rnd shuffle N = Some net ->
  n ∈ nodes net ->
  exists row,
    adj net !! id n = Some row
    /\ length row = N
    /\ Forall (fun x => 0 <= x) row
    /\ row_sum row <= L_interbank n.
Proof.
  intros Hunit Hgen Hn.
  destruct (generateNetwork_spec rnd shuffle N)
    as (net0 & Hgen0 & _ & Hal & _ & Hrows & Hsum).
  rewrite Hgen in Hgen0. inversion Hgen0; subst net0.
  apply list_elem_of_lookup_1 in Hn as [i Hi].
  destruct (Hsum Hunit i n Hi) as (row & Hrow & Hle).
  rewrite (Hal i n Hi). exists row. split; [done|].
  assert (row_ok N row) as [Hlen Hpos].
  { rewrite Forall_forall in Hrows. apply Hrows.
    by eapply list_elem_of_lookup_2. }
  by repeat split.
Qed.

(** The statement of C8 on a generated network of three banks. *)
Lemma row_sum_within_interbank_liability_witness :
  exists net n row,
    in_unit_interval rnd_half
    /\ generateNetwork rnd_half shuffle_id 3 = Some net
    /\ n ∈ nodes net
    /\ adj net !! id n = Some row
    /\ length row = 3%nat
    /\ Forall (fun x => 0 <= x) row
    /\ row_sum row <= L_interbank n.
Proof.
  assert (in_unit_interval rnd_half) as Hunit.
  { intros k. unfold rnd_half. split; [by vm_compute|reflexivity]. }
  assert (exists net, generateNetwork rnd_half shuffle_id 3 = Some net
            /\ exists n, n ∈ nodes net) as (net & Hgen & n & Hn).
  { eexists. split; [vm_compute; reflexivity|].
    eexists. apply list_elem_of_here. }
  destruct (row_sum_within_interbank_liability rnd_half shuffle_id 3 net n
              Hunit Hgen Hn) as (row & H1 & H2 & H3 & H4).
  exists net, n, row. by repeat split.
Defined.

(** The shortfall is left unassigned: with every draw equal to one half
    and three banks, each debtor distributes 0.6 of its interbank
    liability. *)
Lemma shortfall_left_unassigned :
  exists net n row,
    generateNetwork rnd_half shuffle_id 3 = Some net
    /\ nodes net !! 0%nat = Some n
    /\ adj net !! 0%nat = Some row
    /\ row_sum row == (6 # 10) * L_interbank n
    /\ row_sum row < L_interbank n.
Proof.
  do 3 eexists.
  split; [vm_compute; reflexivity|].
  split; [reflexivity|]. split; [reflexivity|].
  split; reflexivity.
Qed.

(** C9, as the script has it.  [generateNetwork] returns a network for
    every bank count, also for 0 and 1: there is no rejection.  The network
    has [N] banks in id order and an [N] by [N] matrix. *)
Theorem generateNetwork_never_rejects (rnd : nat -> Q)
    (shuffle : forall T : Type, list T -> nat -> list T * nat) (N : nat) :
  exists net,
    generateNetwork rnd shuffle N = Some net
    /\ shape N net
    /\ ids_aligned (nodes net).
Proof.
  destruct (generateNetwork_spec rnd shuffle N)
    as (net & Hgen & Hshape & Hal & _).
  by exists net.
Qed.

(** C9, counterexample to the claim as stated.  For [N = 1] no error is
    raised: a network with one bank is returned, and the assets of that
    bank come from the first random draw. *)
Lemma single_bank_is_generated :
  exists net n,
    generateNetwork rnd_half shuffle_id 1 = Some net
    /\ nodes net = [n]
    /\ A n == rnd_half 0 * (ASSETS_MAX - ASSETS_MIN) + ASSETS_MIN
    /\ Forall2 (Forall2 Qeq) (adj net) [[0]]
    /\ generateNetwork rnd_half shuffle_id 1 <> None.
Proof.
  do 2 eexists.
  split; [vm_compute; reflexivity|].
  split; [reflexivity|]. split; [reflexivity|].
  split; [by repeat constructor|]. by vm_compute.
Qed.

(** C10. On a snapshot of [N] banks with ids below [N] and [N] rows of
    exposures the stress test always returns: the loop makes at least one
    and at most [MAX_ITERATIONS] passes and ends because its guard is
    false, whether by convergence or at the cap, the rows of the dashboard
    are read without error, and the result holds the same banks. *)
Theorem stress_test_returns (N : nat) (net : network) (shock : shockType)
    (rnd : nat -> Q) :
  length (nodes net) = N ->
  length (adj net) = N ->
  Forall (fun n => (id n < N)%nat) (nodes net) ->
  exists st net',
    simulate N net shock rnd = Some st
    /\ runSimulation N net shock rnd = Some net'
    /\ (1 <= iterations st)%nat
    /\ (iterations st <= MAX_ITERATIONS)%nat
    /\ loop_guard st = false
    /\ nodes net' ≡ₚ l_nodes st
    /\ length (nodes net') = N.
Proof.
  intros Hn Ha Hids.
  assert (length (l_nodes (loop_init net shock rnd)) = N) as Hlen.
  { cbn [loop_init l_nodes]. by rewrite phase1_length, length_map. }
  destruct (phase2_loop_total N (adj net) MAX_ITERATIONS
              (loop_init net shock rnd)) as (st & Hst & Hlen');
    [lia|lia| |].
  { cbn [loop_init l_nodes previousRanks]. apply initialRanks_of_length. }
  exists st, (mkNetwork (sort_by_debtRank (l_nodes st)) (adj net)).
  assert (simulate N net shock rnd = Some st) as Hsim by done.
  split; [done|]. split.
  { apply runSimulation_run; [done|]. by eapply run_rows_readable. }
  destruct (simulate_first_pass _ _ _ _ _ Hsim) as (r & _ & Hrest).
  apply phase2_loop_iterations in Hrest;
    [|simpl; unfold MAX_ITERATIONS; lia].
  cbn [iterations] in Hrest.
  split; [lia|]. split; [lia|]. split.
  { eapply phase2_loop_fuel; [|exact Hst]. lia. }
  split; [apply sort_by_debtRank_perm|].
  cbn [nodes]. rewrite (Permutation_length (sort_by_debtRank_perm _)). lia.
Qed.

(** The statement of C10 on the five-bank scenario under the
    macroeconomic shock. *)
Lemma stress_test_returns_witness :
  length (nodes scenario) = 5%nat /\ length (adj scenario) = 5%nat
  /\ Forall (fun n => (id n < 5)%nat) (nodes scenario)
  /\ exists st net',
       simulate 5 scenario Macro rnd_half = Some st
       /\ runSimulation 5 scenario Macro rnd_half = Some net'
       /\ (1 <= iterations st)%nat
       /\ (iterations st <= MAX_ITERATIONS)%nat
       /\ loop_guard st = false
       /\ nodes net' ≡ₚ l_nodes st
       /\ length (nodes net') = 5%nat.
Proof.
  assert (Forall (fun n => (id n < 5)%nat) (nodes scenario)) as Hids
    by (repeat constructor; cbn; lia).
  split; [reflexivity|]. split; [reflexivity|]. split; [exact Hids|].
  apply (stress_test_returns 5 scenario Macro rnd_half);
    [reflexivity|reflexivity|exact Hids].
Defined.

(** Without a row for the id of a bank the run stops with a TypeError
    after the loop has ended: two banks with ids 0 and 5 and a matrix of
    two rows. *)
Lemma run_without_row_raises :
  let net := mkNetwork [scenario_bank 0 200 0; scenario_bank 5 200 0]
                       [[0; 0]; [0; 0]] in
  length (nodes net) = 2%nat /\ length (adj net) = 2%nat
  /\ is_Some (simulate 2 net Macro rnd_half)
  /\ runSimulation 2 net Macro rnd_half = None.
Proof.
  cbn zeta. split; [reflexivity|]. split; [reflexivity|].
  split; [eexists|]; vm_compute; reflexivity.
Qed.

(** ** The networks the script can hold *)

Lemma simulate_length (N : nat) (net : network) (shock : shockType)
    (rnd : nat -> Q) (st : loop_state) :
  simulate N net shock rnd = Some st ->
  length (l_nodes st) = length (nodes net).
Proof.
  unfold simulate. intros Hst. apply phase2_loop_static in Hst.
  apply (f_equal length) in Hst. rewrite !length_map in Hst.
  rewrite Hst. cbn [loop_init l_nodes].
  by rewrite phase1_length, length_map.
Qed.

(** Every network the script can hold has [N] banks and [N] rows of
    exposures. *)
Lemma reachable_shape (N : nat) (net : network) :
  reachable N net -> length (nodes net) = N /\ length (adj net) = N.
Proof.
  induction 1 as [rnd shuffle net Hgen|net shock rnd net' _ [IHn IHa] Hrun].
  - destruct (generateNetwork_spec rnd shuffle N)
      as (net0 & Hgen0 & (Hn & Ha & _) & _).
    rewrite Hgen in Hgen0. by inversion Hgen0; subst.
  - apply runSimulation_Some in Hrun as (st & Hst & ->). cbn [nodes adj].
    rewrite (Permutation_length (sort_by_debtRank_perm _)).
    by rewrite (simulate_length _ _ _ _ _ Hst).
Qed.

Lemma ids_aligned_seq (ns : list node) :
  ids_aligned ns -> map id ns = seq 0 (length ns).
Proof.
  intros Hal. apply list_eq. intros i. rewrite list_lookup_fmap.
  destruct (ns !! i) as [n|] eqn:Hi; cbn.
  - rewrite (Hal i n Hi). symmetry. apply lookup_seq. split; [done|].
    by eapply lookup_lt_Some.
  - symmetry. apply lookup_seq_ge. by apply lookup_ge_None.
Qed.

(** In every network the script can hold, the ids of the banks are the
    numbers below [N], each once. *)
Lemma reachable_ids (N : nat) (net : network) :
  reachable N net -> map id (nodes net) ≡ₚ seq 0 N.
Proof.
  induction 1 as [rnd shuffle net Hgen|net shock rnd net' _ IH Hrun].
  - destruct (generateNetwork_spec rnd shuffle N)
      as (net0 & Hgen0 & (Hn & _) & Hal & _).
    rewrite Hgen in Hgen0. inversion Hgen0; subst net0.
    by rewrite (ids_aligned_seq _ Hal), Hn.
  - rewrite <- IH. pose proof (runSimulation_static _ _ _ _ _ Hrun) as Hperm.
    apply (Permutation_map (fun t => t.1.1.1.1.1.1.1)) in Hperm.
    by rewrite !map_map in Hperm.
Qed.

(** So the stress test returns on every network the script can hold. *)
Lemma runSimulation_returns_on_reachable (N : nat) (net : network)
    (shock : shockType) (rnd : nat -> Q) :
  reachable N net ->
  exists net', runSimulation N net shock rnd = Some net'
    /\ reachable N net'.
Proof.
  intros Hreach. destruct (reachable_shape N net Hreach) as [Hn Ha].
  assert (Forall (fun n => (id n < N)%nat) (nodes net)) as Hids.
  { apply Forall_forall. intros n Hin.
    assert (id n ∈ map id (nodes net)) as Hid
      by (by apply list_elem_of_fmap_2).
    rewrite (reachable_ids N net Hreach) in Hid.
    apply list_elem_of_In, in_seq in Hid. lia. }
  destruct (phase2_loop_total N (adj net) MAX_ITERATIONS
              (loop_init net shock rnd)) as (st & Hst & _).
  - lia.
  - cbn [loop_init l_nodes]. rewrite phase1_length, length_map. lia.
  - cbn [loop_init l_nodes previousRanks]. apply initialRanks_of_length.
  - assert (runSimulation N net shock rnd
            = Some (updateMetricsDashboard (mkNetwork (l_nodes st) (adj net))))
      as Hrun.
    { apply runSimulation_run; [done|]. by eapply run_rows_readable. }
    eexists. split; [exact Hrun|]. by eapply reachable_run.
Qed.

(** In the script, where [N] is 50: once a network has been generated,
    every press of the run button returns. *)
Lemma script_runSimulation_returns (net : network) (shock : shockType)
    (rnd : nat -> Q) :
  reachable App.N net ->
  exists net', runSimulation App.N net shock rnd = Some net'.
Proof.
  intros Hreach.
  destruct (runSimulation_returns_on_reachable App.N net shock rnd Hreach)
    as (net' & Hrun & _).
  by exists net'.
Qed.

(** * Further properties *)

(** ** The state of the banks in the result of a run *)

Lemma apply_shock_isFailed (shock : shockType) (u : Q) (n : node) :
  isFailed (apply_shock shock u n) = isFailed n.
Proof.
  destruct shock as [|t| |]; simpl; try done.
  - by destruct (Nat.eqb _ _).
  - by destruct (Qltb _ _).
Qed.

Lemma initial_status_coherent (n : node) :
  isFailed n = false -> coherent (initial_status n).
Proof.
  intros Hf. destruct (initial_status_bounds n) as [H0 H1].
  split; [done|]. split; [done|].
  unfold initial_status. destruct (Qle_bool (E n) 0); cbn.
  - intros _. reflexivity.
  - destruct (Qle_bool _ _); cbn; by rewrite Hf.
Qed.

Lemma loop_init_coherent (net : network) (shock : shockType)
    (rnd : nat -> Q) :
  Forall coherent (l_nodes (loop_init net shock rnd)).
Proof.
  cbn [loop_init l_nodes]. apply Forall_lookup. intros k n Hk.
  rewrite phase1_lookup, list_lookup_fmap in Hk.
  destruct (nodes net !! k) as [n0|]; [|done]. cbn in Hk.
  inversion Hk; subst. apply initial_status_coherent.
  by rewrite apply_shock_isFailed.
Qed.

Lemma update_ranks_coherent (N : nat) (adj : list (list Q)) (prev : list Q)
    (ns : list node) (ps : pass_state) :
  update_ranks N adj prev ns = Some ps ->
  Forall coherent ns -> Forall coherent (p_nodes ps).
Proof.
  intros Hps Hco.
  apply update_ranks_inv in Hps as (_ & Hlen & Hnodes & _).
  apply Forall_lookup. intros j n' Hj'.
  destruct (lookup_lt_is_Some_2 ns j) as [n Hj].
  { rewrite <- Hlen. by eapply lookup_lt_Some. }
  destruct (Hnodes j n Hj) as (m & Hm & Hst & _ & Hb & _).
  rewrite Hj' in Hm. inversion Hm; subst m.
  rewrite Forall_lookup in Hco. destruct (Hco j n Hj) as (H0 & H1 & Hf).
  destruct (Hb H1) as [Hlo Hhi].
  split; [lra|]. split; [done|].
  intros Hfail. rewrite Hst in Hfail. cbn in Hfail.
  specialize (Hf Hfail). lra.
Qed.

Lemma Qeq_bool_false_lt (h : Q) : h < 1 -> Qeq_bool h 1 = false.
Proof.
  intros Hlt. destruct (Qeq_bool h 1) eqn:Hb; [|done].
  apply Qeq_bool_iff in Hb. lra.
Qed.

Lemma Qeq_bool_true_eq (h : Q) : h == 1 -> Qeq_bool h 1 = true.
Proof. intros Heq. by apply Qeq_bool_iff. Qed.

Lemma reevaluate_unforced_status (n : node) :
  forced n = false ->
  stressLevel (reevaluate n)
  = if Qltb (4 # 10) (debtRank n) then Stressed else Healthy.
Proof.
  unfold forced, reevaluate. cbn [set_E E debtRank E_initial].
  intros ->. by destruct (Qltb _ _).
Qed.

Lemma reevaluate_E_initial (n : node) :
  E_initial (reevaluate n) = E_initial n.
Proof.
  unfold reevaluate. cbn [set_E E debtRank E_initial].
  destruct (_ || _); [done|]. by destruct (Qltb _ _).
Qed.

(** The re-evaluation puts every coherent bank in its evaluated form. *)
Lemma reevaluate_evaluated (n : node) : coherent n -> evaluated (reevaluate n).
Proof.
  intros (H0 & H1 & Hf). unfold evaluated.
  rewrite reevaluate_E_initial.
  destruct (forced n) eqn:Hforced.
  - destruct (reevaluate_forced n Hforced) as (Hr & Hfa & Hs & HE).
    rewrite Hr, Hfa, Hs, HE.
    split; [lra|]. split; [lra|]. split; [ring|]. split; [by left|].
    by split.
  - destruct (reevaluate_unforced n Hforced) as (Hr & Hfa & HE).
    rewrite Hr, Hfa, HE, (reevaluate_unforced_status n Hforced).
    unfold forced in Hforced. apply orb_false_iff in Hforced as [_ Hlt].
    apply Qle_bool_false_iff in Hlt.
    assert (debtRank n < 1) as Hlt1 by lra.
    unfold status_of_rank. rewrite (Qeq_bool_false_lt _ Hlt1).
    split; [done|]. split; [done|]. split; [reflexivity|].
    split; [by right|]. split; [|done].
    destruct (isFailed n) eqn:Hfail; [|done]. specialize (Hf eq_refl). lra.
Qed.

Lemma evaluated_coherent (n : node) : evaluated n -> coherent n.
Proof.
  intros (H0 & H1 & _ & _ & Hf & _). split; [done|]. split; [done|].
  rewrite Hf. intros Hb. by apply Qeq_bool_iff.
Qed.

Lemma phase2_pass_evaluated (N : nat) (adj : list (list Q)) (prev : list Q)
    (ns : list node) (r : pass_result) :
  phase2_pass N adj prev ns = Some r ->
  Forall coherent ns -> Forall evaluated (r_nodes r).
Proof.
  intros Hrun Hco. apply phase2_pass_Some in Hrun as (ps & Hps & ->).
  cbn [r_nodes]. apply Forall_fmap.
  eapply Forall_impl; [by eapply update_ranks_coherent|].
  intros n Hn. by apply reevaluate_evaluated.
Qed.

Lemma phase2_loop_evaluated (N : nat) (adj : list (list Q)) (fuel : nat)
    (st st' : loop_state) :
  phase2_loop N adj fuel st = Some st' ->
  Forall evaluated (l_nodes st)
  \/ (Forall coherent (l_nodes st) /\ loop_guard st = true /\ fuel <> O) ->
  Forall evaluated (l_nodes st').
Proof.
  revert st. induction fuel as [|fuel IH]; intros st Hrun Hor;
    simpl in Hrun.
  - inversion Hrun; subst. by destruct Hor as [?|(_ & _ & ?)].
  - destruct (loop_guard st) eqn:Hg.
    + apply bind_Some in Hrun as (r & Hr & Hrun).
      apply IH in Hrun; [done|]. left. cbn [l_nodes].
      eapply phase2_pass_evaluated; [done|].
      destruct Hor as [Hev|(Hco & _)]; [|done].
      eapply Forall_impl; [exact Hev|]. apply evaluated_coherent.
    + inversion Hrun; subst. by destruct Hor as [?|(_ & ? & _)].
Qed.

(** Every bank of the result of a run is in its evaluated form. *)
Lemma runSimulation_evaluated (N : nat) (net : network) (shock : shockType)
    (rnd : nat -> Q) (net' : network) :
  runSimulation N net shock rnd = Some net' ->
  Forall evaluated (nodes net').
Proof.
  intros Hrun. apply runSimulation_Some in Hrun as (st & Hst & ->).
  cbn [nodes]. rewrite sort_by_debtRank_perm.
  unfold simulate in Hst. eapply phase2_loop_evaluated; [done|].
  right. split; [apply loop_init_coherent|]. by split.
Qed.

(** X1.  In the result of a run every bank has a rank between 0 and 1 and
    a capital equal to [E_initial * (1 - debtRank)]. *)
Theorem result_capital_follows_rank (N : nat) (net : network)
    (shock : shockType) (rnd : nat -> Q) (net' : network) (n : node) :
  runSimulation N net shock rnd = Some net' ->
  n ∈ nodes net' ->
  0 <= debtRank n /\ debtRank n <= 1
  /\ E n == E_initial n * (1 - debtRank n).
Proof.
  intros Hrun Hn. apply runSimulation_evaluated in Hrun.
  rewrite Forall_forall in Hrun.
  by destruct (Hrun n Hn) as (? & ? & ? & _).
Qed.

Lemma result_capital_follows_rank_witness :
  exists net' n,
    runSimulation 5 scenario Macro rnd_half = Some net'
    /\ n ∈ nodes net'
    /\ 0 <= debtRank n /\ debtRank n <= 1
    /\ E n == E_initial n * (1 - debtRank n).
Proof.
  do 2 eexists.
  split; [vm_compute; reflexivity|].
  split; [apply list_elem_of_here|].
  eapply (result_capital_follows_rank 5 scenario Macro rnd_half).
  - vm_compute; reflexivity.
  - apply list_elem_of_here.
Defined.

(** X2.  In the result of a run the status of every bank is the one its
    rank gives: failed exactly when the rank is 1, Stressed above 0.4,
    Healthy otherwise; and no rank lies between 0.9999 and 1. *)
Theorem result_status_follows_rank (N : nat) (net : network)
    (shock : shockType) (rnd : nat -> Q) (net' : network) (n : node) :
  runSimulation N net shock rnd = Some net' ->
  n ∈ nodes net' ->
  isFailed n = Qeq_bool (debtRank n) 1
  /\ stressLevel n = status_of_rank (debtRank n)
  /\ (debtRank n == 1 \/ debtRank n < 9999 # 10000).
Proof.
  intros Hrun Hn. apply runSimulation_evaluated in Hrun.
  rewrite Forall_forall in Hrun.
  by destruct (Hrun n Hn) as (_ & _ & _ & ? & ? & ?).
Qed.

Lemma result_status_follows_rank_witness :
  exists net' n,
    runSimulation 5 scenario Random rnd_low = Some net'
    /\ n ∈ nodes net'
    /\ isFailed n = Qeq_bool (debtRank n) 1
    /\ stressLevel n = status_of_rank (debtRank n)
    /\ (debtRank n == 1 \/ debtRank n < 9999 # 10000).
Proof.
  do 2 eexists.
  split; [vm_compute; reflexivity|].
  split; [apply list_elem_of_here|].
  eapply (result_status_follows_rank 5 scenario Random rnd_low).
  - vm_compute; reflexivity.
  - apply list_elem_of_here.
Defined.

(** X3.  Failure is final: a bank that Phase 1 marks failed is, at the
    same position of the working copy, failed with rank 1 and no capital
    when the loop has ended. *)
Theorem failed_in_phase1_stays_failed (N : nat) (net : network)
    (shock : shockType) (rnd : nat -> Q) (st : loop_state) (k : nat)
    (n1 : node) :
  simulate N net shock rnd = Some st ->
  l_nodes (loop_init net shock rnd) !! k = Some n1 ->
  isFailed n1 = true ->
  exists n2,
    l_nodes st !! k = Some n2
    /\ id n2 = id n1
    /\ isFailed n2 = true
    /\ stressLevel n2 = Failed
    /\ debtRank n2 == 1
    /\ E n2 == 0.
Proof.
  intros Hsim Hk Hfail.
  assert (Forall2 not_lower (l_nodes (loop_init net shock rnd)) (l_nodes st))
    as Hnl.
  { eapply rtc_loop_not_lower; [by eapply phase2_loop_reaches|].
    apply loop_init_bounded. }
  destruct (Forall2_lookup_l _ _ _ _ _ Hnl Hk) as (n2 & Hk2 & Hid & Hle).
  assert (evaluated n2) as (_ & H1 & HE & _ & Hf & Hs).
  { assert (Forall evaluated (l_nodes st)) as Hev.
    { unfold simulate in Hsim. eapply phase2_loop_evaluated; [done|].
      right. split; [apply loop_init_coherent|]. by split. }
    rewrite Forall_lookup in Hev. by eapply Hev. }
  assert (debtRank n1 == 1) as Hone.
  { pose proof (loop_init_coherent net shock rnd) as Hco.
    rewrite Forall_lookup in Hco. destruct (Hco k n1 Hk) as (_ & _ & Hf1).
    by apply Hf1. }
  assert (debtRank n2 == 1) as Hone2 by lra.
  exists n2. split; [done|]. split; [done|].
  rewrite Hf, Hs. unfold status_of_rank. rewrite (Qeq_bool_true_eq _ Hone2).
  split; [done|]. split; [done|]. split; [done|].
  rewrite HE, Hone2. ring.
Qed.

Lemma failed_in_phase1_stays_failed_witness :
  exists st n1 n2,
    simulate 5 scenario (Targeted 1) rnd_half = Some st
    /\ l_nodes (loop_init scenario (Targeted 1) rnd_half) !! 1%nat = Some n1
    /\ isFailed n1 = true
    /\ l_nodes st !! 1%nat = Some n2
    /\ id n2 = id n1
    /\ isFailed n2 = true
    /\ stressLevel n2 = Failed
    /\ debtRank n2 == 1
    /\ E n2 == 0.
Proof.
  assert (exists st, simulate 5 scenario (Targeted 1) rnd_half = Some st)
    as [st Hsim] by (eexists; vm_compute; reflexivity).
  assert (exists n1,
            l_nodes (loop_init scenario (Targeted 1) rnd_half) !! 1%nat
            = Some n1 /\ isFailed n1 = true) as (n1 & Hk & Hf)
    by (eexists; split; [vm_compute; reflexivity|reflexivity]).
  destruct (failed_in_phase1_stays_failed 5 scenario (Targeted 1) rnd_half
              st 1 n1 Hsim Hk Hf) as (n2 & H).
  exists st, n1, n2. by repeat split; try apply H.
Defined.

(** ** Phase 1, shock by shock *)

Lemma phase1_at (net : network) (shock : shockType) (rnd : nat -> Q)
    (k : nat) (n0 : node) :
  nodes net !! k = Some n0 ->
  l_nodes (loop_init net shock rnd) !! k
  = Some (initial_status (apply_shock shock (rnd k) (working_copy n0))).
Proof.
  intros Hk. cbn [loop_init l_nodes].
  by rewrite phase1_lookup, list_lookup_fmap, Hk.
Qed.

(** A bank with positive capital that the shock leaves alone ends Phase 1
    as its working copy: rank 0, Healthy, full capital. *)
Lemma initial_status_untouched (n0 : node) :
  0 < E_initial n0 ->
  isFailed (initial_status (working_copy n0)) = false
  /\ debtRank (initial_status (working_copy n0)) == 0
  /\ stressLevel (initial_status (working_copy n0)) = Healthy
  /\ E (initial_status (working_copy n0)) = E_initial n0.
Proof.
  intros Hpos. unfold initial_status. cbn [working_copy E].
  assert (Qle_bool (E_initial n0) 0 = false) as ->
    by (apply Qle_bool_false_iff; lra).
  assert (initialRank (working_copy n0) == 0) as Hrank.
  { unfold initialRank. cbn [working_copy E E_initial].
    destruct (Qeq_bool (E_initial n0) 0) eqn:Hz; [reflexivity|].
    assert (1 - E_initial n0 / E_initial n0 == 0) as Hq by (field; lra).
    rewrite clamp_id; [done|lra|lra]. }
  cbn [set_debtRank debtRank].
  assert (Qle_bool (5 # 10) (initialRank (working_copy n0)) = false) as ->
    by (apply Qle_bool_false_iff; lra).
  cbn. by repeat split.
Qed.

(** X4.  The macroeconomic shock takes [A_external * MACRO_LOSS_FACTOR]
    from the capital of every bank.  A bank with positive capital and
    non-negative external assets fails in Phase 1 exactly when that loss
    reaches its capital; otherwise its rank is the loss divided by the
    capital, and the bank is Stressed from rank 0.5 on. *)
Theorem macro_shock_phase1 (net : network) (rnd : nat -> Q) (k : nat)
    (n0 : node) :
  nodes net !! k = Some n0 ->
  0 < E_initial n0 ->
  0 <= A_external n0 ->
  exists n1,
    l_nodes (loop_init net Macro rnd) !! k = Some n1
    /\ E n1 == E_initial n0 - A_external n0 * MACRO_LOSS_FACTOR
    /\ (E_initial n0 <= A_external n0 * MACRO_LOSS_FACTOR ->
        isFailed n1 = true /\ debtRank n1 == 1 /\ stressLevel n1 = Failed)
    /\ (A_external n0 * MACRO_LOSS_FACTOR < E_initial n0 ->
        isFailed n1 = false
        /\ debtRank n1 == A_external n0 * MACRO_LOSS_FACTOR / E_initial n0
        /\ stressLevel n1
           = if Qle_bool (5 # 10) (debtRank n1) then Stressed else Healthy).
Proof.
  intros Hk Hpos Hext. rewrite (phase1_at net Macro rnd k n0 Hk).
  exists (initial_status (apply_shock Macro (rnd k) (working_copy n0))).
  split; [reflexivity|].
  cbn [apply_shock]. unfold initial_status.
  cbn [working_copy set_E E E_initial A_external].
  set (loss := A_external n0 * MACRO_LOSS_FACTOR).
  assert (0 <= loss) as Hloss.
  { unfold loss, MACRO_LOSS_FACTOR. apply Qmult_le_0_compat; lra. }
  destruct (Qle_bool (E_initial n0 - loss) 0) eqn:Hb.
  - apply Qle_bool_iff in Hb. cbn.
    split; [reflexivity|]. split; [by repeat split|]. intros Hlt. lra.
  - apply Qle_bool_false_iff in Hb.
    assert (initialRank
              (set_E (working_copy n0) (E_initial n0 - loss))
            == loss / E_initial n0) as Hrank.
    { unfold initialRank. cbn [working_copy set_E E E_initial].
      destruct (Qeq_bool (E_initial n0) 0) eqn:Hz.
      - apply Qeq_bool_iff in Hz. lra.
      - assert (1 - (E_initial n0 - loss) / E_initial n0
                == loss / E_initial n0) as Hq by (field; lra).
        assert (0 <= loss / E_initial n0) as Hq0.
        { apply Qle_shift_div_l; lra. }
        assert (loss / E_initial n0 <= 1) as Hq1.
        { apply Qle_shift_div_r; lra. }
        rewrite clamp_id; [done|lra|lra]. }
    cbn [set_debtRank debtRank].
    destruct (Qle_bool (5 # 10) _) eqn:Hs; cbn.
    + split; [reflexivity|]. split; [intros Hle; lra|]. intros _.
      rewrite Hs. by repeat split.
    + split; [reflexivity|]. split; [intros Hle; lra|]. intros _.
      rewrite Hs. by repeat split.
Qed.

Lemma macro_shock_phase1_witness :
  nodes scenario !! 1%nat = Some (scenario_bank 1 200 900)
  /\ 0 < E_initial (scenario_bank 1 200 900)
  /\ 0 <= A_external (scenario_bank 1 200 900)
  /\ exists n1,
       l_nodes (loop_init scenario Macro rnd_half) !! 1%nat = Some n1
       /\ E n1 == 80
       /\ isFailed n1 = false
       /\ debtRank n1 == 2 # 10.
Proof.
  split; [reflexivity|]. split; [reflexivity|].
  split; [by vm_compute|].
  destruct (macro_shock_phase1 scenario rnd_half 1 (scenario_bank 1 200 900))
    as (n1 & Hk & HE & _ & Hok); [reflexivity|reflexivity|by vm_compute|].
  destruct Hok as (Hf & Hr & _); [reflexivity|].
  exists n1. split; [done|]. split; [by rewrite HE|]. split; [done|].
  by rewrite Hr.
Defined.

(** X5.  The targeted shock fails exactly the banks whose id is the
    target: such a bank leaves Phase 1 failed with rank 1 and capital -1,
    and every other bank with positive capital leaves it untouched, with
    rank 0, Healthy and its full capital.  A target that no bank has fails
    nobody. *)
Theorem targeted_shock_phase1 (net : network) (t : nat) (rnd : nat -> Q)
    (k : nat) (n0 : node) :
  nodes net !! k = Some n0 ->
  exists n1,
    l_nodes (loop_init net (Targeted t) rnd) !! k = Some n1
    /\ (id n0 = t ->
        isFailed n1 = true /\ debtRank n1 == 1 /\ stressLevel n1 = Failed
        /\ E n1 == -1)
    /\ (id n0 <> t -> 0 < E_initial n0 ->
        isFailed n1 = false /\ debtRank n1 == 0 /\ stressLevel n1 = Healthy
        /\ E n1 = E_initial n0).
Proof.
  intros Hk. rewrite (phase1_at net (Targeted t) rnd k n0 Hk).
  exists (initial_status (apply_shock (Targeted t) (rnd k) (working_copy n0))).
  split; [reflexivity|]. cbn [apply_shock working_copy id]. split.
  - intros Hid. apply Nat.eqb_eq in Hid. rewrite Hid.
    by repeat split.
  - intros Hid Hpos. apply Nat.eqb_neq in Hid. rewrite Hid.
    by apply initial_status_untouched.
Qed.

Lemma targeted_shock_phase1_witness :
  nodes scenario !! 2%nat = Some (scenario_bank 2 200 0)
  /\ exists n1,
       l_nodes (loop_init scenario (Targeted 0) rnd_half) !! 2%nat = Some n1
       /\ isFailed n1 = false /\ debtRank n1 == 0
       /\ stressLevel n1 = Healthy /\ E n1 = 100.
Proof.
  split; [reflexivity|].
  destruct (targeted_shock_phase1 scenario 0 rnd_half 2
              (scenario_bank 2 200 0) eq_refl) as (n1 & Hk & _ & Hok).
  destruct Hok as (H1 & H2 & H3 & H4); [discriminate|reflexivity|].
  exists n1. by repeat split.
Defined.

(** X6.  A shock type that the script does not know, and the random shock
    for a bank whose draw is 0.1 or more, leave a bank with positive
    capital untouched in Phase 1: not failed, rank 0, Healthy, full
    capital. *)
Theorem unhit_bank_phase1 (net : network) (shock : shockType)
    (rnd : nat -> Q) (k : nat) (n0 : node) :
  nodes net !! k = Some n0 ->
  0 < E_initial n0 ->
  shock = Unrecognised \/ (shock = Random /\ 1 # 10 <= rnd k) ->
  exists n1,
    l_nodes (loop_init net shock rnd) !! k = Some n1
    /\ isFailed n1 = false /\ debtRank n1 == 0
    /\ stressLevel n1 = Healthy /\ E n1 = E_initial n0.
Proof.
  intros Hk Hpos Hshock. rewrite (phase1_at net shock rnd k n0 Hk).
  exists (initial_status (apply_shock shock (rnd k) (working_copy n0))).
  split; [reflexivity|].
  assert (apply_shock shock (rnd k) (working_copy n0) = working_copy n0)
    as ->.
  { destruct Hshock as [->|[-> Hdraw]]; [done|]. cbn [apply_shock].
    apply Qltb_false_iff in Hdraw. by rewrite Hdraw. }
  by apply initial_status_untouched.
Qed.

Lemma unhit_bank_phase1_witness :
  nodes scenario !! 0%nat = Some (scenario_bank 0 900 0)
  /\ 0 < E_initial (scenario_bank 0 900 0)
  /\ (Random = Unrecognised \/ (Random = Random /\ 1 # 10 <= rnd_half 0))
  /\ exists n1,
       l_nodes (loop_init scenario Random rnd_half) !! 0%nat = Some n1
       /\ isFailed n1 = false /\ debtRank n1 == 0
       /\ stressLevel n1 = Healthy
       /\ E n1 = E_initial (scenario_bank 0 900 0).
Proof.
  assert (Random = Unrecognised \/ (Random = Random /\ 1 # 10 <= rnd_half 0))
    as Hshock by (right; split; [reflexivity|by vm_compute]).
  split; [reflexivity|]. split; [reflexivity|]. split; [exact Hshock|].
  apply (unhit_bank_phase1 scenario Random rnd_half 0
           (scenario_bank 0 900 0)); [reflexivity|reflexivity|exact Hshock].
Defined.

(** ** Banks to which nobody owes anything *)

Lemma propagatedLossRatio_unexposed (N : nat) (adj : list (list Q))
    (ns : list node) (cur prev : list Q) (j : nat) (p : Q) :
  unexposed adj j ->
  propagatedLossRatio N adj ns cur prev j = Some p -> p = 0.
Proof.
  unfold propagatedLossRatio. intros Hun Hrun.
  apply (for_upto_inv (fun _ acc => acc = 0) _ _ _ _ Hrun); [done|].
  intros i acc acc' _ -> Hbody.
  apply bind_Some in Hbody as (row & Hrow & Hbody).
  destruct (row !! j) as [L_ij|] eqn:Hj; [|by inversion Hbody].
  assert (Qltb 0 L_ij = false) as Hno
    by (apply Qltb_false_iff; by eapply Hun).
  rewrite Hno in Hbody. by inversion Hbody.
Qed.

Lemma update_creditor_unexposed (N : nat) (adj : list (list Q))
    (cur prev : list Q) (j : nat) (st st' : pass_state) :
  unexposed adj j ->
  update_creditor N adj cur prev j st = Some st' ->
  exists n_j h',
    p_nodes st !! j = Some n_j
    /\ p_nodes st' = <[j := set_debtRank n_j h']> (p_nodes st)
    /\ h' == debtRank n_j.
Proof.
  unfold update_creditor. intros Hun Hrun.
  apply bind_Some in Hrun as (n_j & Hj & Hrun).
  destruct (Qltb (debtRank n_j) 1) eqn:Hlt.
  - apply bind_Some in Hrun as (p & Hp & Hrun).
    apply (propagatedLossRatio_unexposed _ _ _ _ _ _ _ Hun) in Hp as ->.
    inversion Hrun; subst; clear Hrun. cbn [p_nodes].
    exists n_j, (newRank_of (debtRank n_j) 0). split; [done|].
    split; [done|]. apply Qltb_iff in Hlt. unfold newRank_of.
    rewrite clamp_id; [ring|lra|lra].
  - inversion Hrun; subst; clear Hrun. exists n_j, (debtRank n_j).
    split; [done|]. split; [|reflexivity].
    by rewrite set_debtRank_same, list_insert_id.
Qed.

(** The creditor loop leaves the rank of an unexposed bank as it is. *)
Lemma update_ranks_unexposed (N : nat) (adj : list (list Q)) (prev : list Q)
    (ns : list node) (ps : pass_state) (j : nat) (n : node) :
  update_ranks N adj prev ns = Some ps ->
  unexposed adj j ->
  ns !! j = Some n ->
  exists n', p_nodes ps !! j = Some n'
    /\ n' = set_debtRank n (debtRank n')
    /\ debtRank n' == debtRank n.
Proof.
  intros Hps Hun Hj.
  pose proof (update_ranks_inv _ _ _ _ _ Hps) as (_ & _ & Hnodes & _).
  destruct (Hnodes j n Hj) as (n' & Hn' & Hst & _).
  exists n'. split; [done|]. split; [done|].
  unfold update_ranks in Hps.
  apply (for_upto_inv
    (fun _ st => forall m, p_nodes st !! j = Some m ->
                           debtRank m == debtRank n) _ _ _ _ Hps);
    [| |done].
  - cbn [p_nodes]. intros m Hm. rewrite Hj in Hm. by inversion Hm.
  - intros k t t' _ Hinv Hbody m Hm.
    destruct (decide (k = j)) as [->|Hkj].
    + apply (update_creditor_unexposed _ _ _ _ _ _ _ Hun) in Hbody
        as (n_j & h' & Hlook & Hnew & Hh).
      rewrite Hnew, list_lookup_insert_eq in Hm
        by (by eapply lookup_lt_Some).
      inversion Hm; subst m. cbn [set_debtRank debtRank].
      rewrite Hh. by apply Hinv.
    + apply update_creditor_spec in Hbody
        as (n_k & h' & _ & Hnew & _).
      rewrite Hnew, list_lookup_insert_ne in Hm by done. by apply Hinv.
Qed.

Lemma phase1_outcome_compose (n1 m m' : node) :
  E_initial m = E_initial n1 ->
  phase1_outcome n1 m -> phase1_outcome m m' -> phase1_outcome n1 m'.
Proof.
  intros HE (Hid & Hf & Hu) (Hid' & Hf' & Hu').
  split; [congruence|].
  destruct (forced n1) eqn:Hforced.
  - destruct (Hf eq_refl) as (Hr & Hfa & Hs & HE0).
    assert (forced m = true) as Hfm.
    { unfold forced. apply orb_true_iff. right. apply Qle_bool_iff. lra. }
    split; [intros _; by apply Hf'|done].
  - destruct (Hu eq_refl) as (Hr & Hfa & HE0).
    assert (forced m = false) as Hfm.
    { unfold forced in *. by rewrite HE, Hr. }
    destruct (Hu' Hfm) as (Hr' & Hfa' & HE').
    split; [done|]. intros _.
    split; [by rewrite Hr'|]. split; [congruence|].
    by rewrite HE', HE, Hr.
Qed.

Lemma phase2_pass_unexposed (N : nat) (adj : list (list Q)) (prev : list Q)
    (ns : list node) (r : pass_result) (j : nat) (m : node) :
  phase2_pass N adj prev ns = Some r ->
  unexposed adj j ->
  ns !! j = Some m ->
  exists m', r_nodes r !! j = Some m'
    /\ E_initial m' = E_initial m /\ phase1_outcome m m'.
Proof.
  intros Hrun Hun Hj. apply phase2_pass_Some in Hrun as (ps & Hps & ->).
  destruct (update_ranks_unexposed _ _ _ _ _ _ _ Hps Hun Hj)
    as (n' & Hn' & Hst & Heq).
  exists (reevaluate n'). cbn [r_nodes].
  rewrite list_lookup_fmap, Hn'. split; [done|]. split.
  - rewrite reevaluate_E_initial. by rewrite Hst.
  - by apply reevaluate_outcome.
Qed.

Lemma phase2_loop_unexposed (N : nat) (adj : list (list Q)) (fuel : nat)
    (st st' : loop_state) (j : nat) (n1 m : node) :
  phase2_loop N adj fuel st = Some st' ->
  unexposed adj j ->
  l_nodes st !! j = Some m ->
  E_initial m = E_initial n1 -> phase1_outcome n1 m ->
  exists m', l_nodes st' !! j = Some m'
    /\ E_initial m' = E_initial n1 /\ phase1_outcome n1 m'.
Proof.
  revert st m. induction fuel as [|fuel IH]; intros st m Hrun Hun Hj HE Hout;
    simpl in Hrun.
  - inversion Hrun; subst. by exists m.
  - destruct (loop_guard st).
    + apply bind_Some in Hrun as (r & Hr & Hrun).
      destruct (phase2_pass_unexposed _ _ _ _ _ _ _ Hr Hun Hj)
        as (m2 & Hm2 & HE2 & Hout2).
      apply (IH _ m2) in Hrun; try done; [congruence|].
      by eapply phase1_outcome_compose.
    + inversion Hrun; subst. by exists m.
Qed.

(** X7.  A bank to which no bank owes anything is never reached by the
    propagation, in whatever order the array is: when the loop has ended it
    has its Phase-1 rank, unless the re-evaluation forced it to Failed with
    rank 1 and no capital. *)
Theorem unexposed_bank_keeps_rank (N : nat) (net : network)
    (shock : shockType) (rnd : nat -> Q) (st : loop_state) (j : nat)
    (n1 : node) :
  simulate N net shock rnd = Some st ->
  unexposed (adj net) j ->
  l_nodes (loop_init net shock rnd) !! j = Some n1 ->
  exists n2, l_nodes st !! j = Some n2 /\ phase1_outcome n1 n2.
Proof.
  intros Hsim Hun Hj.
  destruct (simulate_first_pass _ _ _ _ _ Hsim) as (r & Hr & Hrest).
  destruct (phase2_pass_unexposed _ _ _ _ _ _ _ Hr Hun Hj)
    as (m & Hm & HE & Hout).
  destruct (phase2_loop_unexposed _ _ _ _ _ j n1 m Hrest Hun Hm HE Hout)
    as (n2 & Hn2 & _ & Hout2).
  by exists n2.
Qed.

Lemma unexposed_bank_keeps_rank_witness :
  exists net1 st n1 n2,
    runSimulation 5 scenario (Targeted 1) rnd_half = Some net1
    /\ simulate 5 net1 (Targeted 1) rnd_half = Some st
    /\ unexposed (adj net1) 3
    /\ l_nodes (loop_init net1 (Targeted 1) rnd_half) !! 3%nat = Some n1
    /\ l_nodes st !! 3%nat = Some n2
    /\ phase1_outcome n1 n2.
Proof.
  assert (exists net1,
            runSimulation 5 scenario (Targeted 1) rnd_half = Some net1
            /\ adj net1 = adj scenario) as (net1 & Hrun & Hadj)
    by (eexists; split; [vm_compute; reflexivity|reflexivity]).
  assert (exists st, simulate 5 net1 (Targeted 1) rnd_half = Some st)
    as [st Hsim].
  { apply runSimulation_Some in Hrun as (st0 & Hst0 & ->).
    vm_compute in Hst0. inversion Hst0; subst st0.
    eexists. vm_compute. reflexivity. }
  assert (unexposed (adj net1) 3) as Hun.
  { rewrite Hadj. intros i row v Hi Hv.
    do 5 (destruct i as [|i];
          [inversion Hi; subst row; inversion Hv; subst v; by vm_compute|]).
    by inversion Hi. }
  assert (exists n1,
            l_nodes (loop_init net1 (Targeted 1) rnd_half) !! 3%nat = Some n1)
    as [n1 Hn1].
  { apply runSimulation_Some in Hrun as (st0 & Hst0 & ->).
    vm_compute in Hst0. inversion Hst0; subst st0.
    eexists. vm_compute. reflexivity. }
  destruct (unexposed_bank_keeps_rank 5 net1 (Targeted 1) rnd_half st 3 n1
              Hsim Hun Hn1) as (n2 & Hn2 & Hout).
  by exists net1, st, n1, n2.
Defined.

(** ** What a run keeps *)

(** X8.  A run never writes the matrix of exposures and keeps the banks
    with their static fields (id, name, A, E_initial, L, L_interbank,
    A_interbank, A_external): it adds and removes no bank and only
    rearranges the array. *)
Theorem run_keeps_banks_and_exposures (N : nat) (net : network)
    (shock : shockType) (rnd : nat -> Q) (net' : network) :
  runSimulation N net shock rnd = Some net' ->
  adj net' = adj net
  /\ map static_fields (nodes net') ≡ₚ map static_fields (nodes net)
  /\ length (nodes net') = length (nodes net).
Proof.
  intros Hrun. split; [by eapply runSimulation_adj|].
  pose proof (runSimulation_static _ _ _ _ _ Hrun) as Hperm.
  split; [done|].
  apply Permutation_length in Hperm. by rewrite !length_map in Hperm.
Qed.

Lemma run_keeps_banks_and_exposures_witness :
  exists net',
    runSimulation 2 two_banks (Targeted 1) rnd_half = Some net'
    /\ adj net' = adj two_banks
    /\ map static_fields (nodes net') ≡ₚ map static_fields (nodes two_banks)
    /\ length (nodes net') = length (nodes two_banks).
Proof.
  eexists. split; [vm_compute; reflexivity|].
  apply (run_keeps_banks_and_exposures 2 two_banks (Targeted 1) rnd_half).
  vm_compute; reflexivity.
Defined.

(** ** The order of the dashboard *)

Lemma insert_desc_sorted (x : node) (l : list node) :
  StronglySorted by_rank l -> StronglySorted by_rank (insert_desc x l).
Proof.
  intros Hl. induction Hl as [|y l Hl IH Hy]; simpl.
  - by repeat constructor.
  - case_cmp.
    + constructor; [done|]. rewrite insert_desc_perm.
      constructor; [unfold by_rank; lra|done].
    + constructor; [by constructor|]. constructor; [done|].
      eapply Forall_impl; [exact Hy|]. unfold by_rank. intros z Hz. lra.
Qed.

Lemma sort_by_debtRank_sorted (l : list node) :
  StronglySorted by_rank (sort_by_debtRank l).
Proof.
  induction l as [|x l IH]; [constructor|].
  change (StronglySorted by_rank (insert_desc x (sort_by_debtRank l))).
  by apply insert_desc_sorted.
Qed.

(** An array in the order of the dashboard is left as it is. *)
Lemma sort_by_debtRank_fixed (l : list node) :
  StronglySorted by_rank l -> sort_by_debtRank l = l.
Proof.
  induction 1 as [|x l Hl IH Hx]; [done|].
  change (insert_desc x (sort_by_debtRank l) = x :: l). rewrite IH.
  destruct Hx as [|y l' Hy _]; [done|]. simpl.
  unfold by_rank in Hy. apply Qltb_false_iff in Hy. by rewrite Hy.
Qed.

Lemma insert_desc_stable (h : Q) (x : node) (l : list node) :
  List.filter (fun n => Qeq_bool (debtRank n) h) (insert_desc x l)
  = List.filter (fun n => Qeq_bool (debtRank n) h) (x :: l).
Proof.
  induction l as [|y l IH]; [done|]. simpl. case_cmp; [|done].
  simpl. rewrite IH. simpl.
  destruct (Qeq_bool (debtRank x) h) eqn:Hx; [|done].
  destruct (Qeq_bool (debtRank y) h) eqn:Hy; [|done].
  apply Qeq_bool_iff in Hx, Hy. lra.
Qed.

(** The sort is stable: the banks of any one rank keep their order. *)
Lemma sort_by_debtRank_stable (h : Q) (l : list node) :
  List.filter (fun n => Qeq_bool (debtRank n) h) (sort_by_debtRank l)
  = List.filter (fun n => Qeq_bool (debtRank n) h) l.
Proof.
  induction l as [|x l IH]; [done|].
  change (List.filter (fun n => Qeq_bool (debtRank n) h)
            (insert_desc x (sort_by_debtRank l))
          = List.filter (fun n => Qeq_bool (debtRank n) h) (x :: l)).
  rewrite insert_desc_stable. simpl. by rewrite IH.
Qed.

(** X9.  [updateMetricsDashboard] lists the same banks by non-increasing
    rank, keeping the banks of equal rank in their order, and leaves the
    exposures alone; applied again, it changes nothing. *)
Theorem dashboard_orders_by_rank (net : network) :
  adj (updateMetricsDashboard net) = adj net
  /\ nodes (updateMetricsDashboard net) ≡ₚ nodes net
  /\ StronglySorted by_rank (nodes (updateMetricsDashboard net))
  /\ (forall h,
        List.filter (fun n => Qeq_bool (debtRank n) h)
                    (nodes (updateMetricsDashboard net))
        = List.filter (fun n => Qeq_bool (debtRank n) h) (nodes net))
  /\ updateMetricsDashboard (updateMetricsDashboard net)
     = updateMetricsDashboard net.
Proof.
  unfold updateMetricsDashboard. cbn [nodes adj].
  split; [done|]. split; [apply sort_by_debtRank_perm|].
  split; [apply sort_by_debtRank_sorted|].
  split; [intros h; apply sort_by_debtRank_stable|].
  by rewrite (sort_by_debtRank_fixed _ (sort_by_debtRank_sorted _)).
Qed.

(** ** The aggregates of the dashboard *)

Lemma Qsum_perm (l l' : list Q) :
  l ≡ₚ l' -> foldr Qplus 0 l == foldr Qplus 0 l'.
Proof.
  induction 1 as [|x l l' _ IH|x y l|l l' l'' _ IH1 _ IH2]; simpl.
  - reflexivity.
  - by rewrite IH.
  - ring.
  - by rewrite IH1.
Qed.

Lemma sum_over_perm (f : node -> Q) (l l' : list node) :
  l ≡ₚ l' -> sum_over f l == sum_over f l'.
Proof.
  intros Hperm. unfold sum_over. apply Qsum_perm.
  by apply Permutation_map.
Qed.

Lemma sum_over_le (f g : node -> Q) (l : list node) :
  Forall (fun n => f n <= g n) l -> sum_over f l <= sum_over g l.
Proof.
  unfold sum_over. induction 1 as [|n l Hn _ IH]; simpl; lra.
Qed.

Lemma sum_over_nonneg (f : node -> Q) (l : list node) :
  Forall (fun n => 0 <= f n) l -> 0 <= sum_over f l.
Proof.
  unfold sum_over. induction 1 as [|n l Hn _ IH]; simpl; lra.
Qed.

(** The [reduce] of the dashboard computes the sum of the capitals that
    are above 0. *)
Lemma totalPostShockCapital_sum (ns : list node) :
  totalPostShockCapital ns == sum_over (fun n => Qmax 0 (E n)) ns.
Proof.
  unfold totalPostShockCapital.
  assert (forall a, fold_left (fun sum n => sum + Qmax 0 (E n)) ns a
                    == a + sum_over (fun n => Qmax 0 (E n)) ns) as Hgen.
  { induction ns as [|n ns IH]; intros a; simpl.
    - unfold sum_over. simpl. ring.
    - rewrite IH. unfold sum_over. simpl. ring. }
  rewrite Hgen. ring.
Qed.

Lemma sum_E_initial_static (l l' : list node) :
  map static_fields l ≡ₚ map static_fields l' ->
  sum_over E_initial l == sum_over E_initial l'.
Proof.
  intros Hperm. unfold sum_over. apply Qsum_perm.
  apply (Permutation_map (fun t => t.1.1.1.1.2)) in Hperm.
  by rewrite !map_map in Hperm.
Qed.

Lemma E_initial_static_nonneg (l l' : list node) :
  map static_fields l ≡ₚ map static_fields l' ->
  Forall (fun n => 0 <= E_initial n) l' ->
  Forall (fun n => 0 <= E_initial n) l.
Proof.
  intros Hperm Hl'. apply Forall_forall. intros n Hn.
  assert (static_fields n ∈ map static_fields l') as Hin.
  { rewrite <- Hperm. by apply list_elem_of_fmap_2. }
  apply list_elem_of_fmap in Hin as (n' & Heq & Hn').
  rewrite Forall_forall in Hl'. specialize (Hl' n' Hn').
  assert (E_initial n = E_initial n') as ->; [|done].
  by apply (f_equal (fun t => t.1.1.1.1.2)) in Heq.
Qed.

Lemma filter_length_le {T : Type} (f : T -> bool) (l : list T) :
  (length (List.filter f l) <= length l)%nat.
Proof.
  induction l as [|x l IH]; simpl; [lia|]. destruct (f x); simpl; lia.
Qed.

(** X10.  The aggregates of the dashboard after a run, when no bank has
    negative initial capital and [totalInitialCapital] is the sum of the
    initial capitals: the total loss lies between 0 and
    [totalInitialCapital], the contagion index between 0 and 100, and the
    number of failures is at most the number of banks. *)
Theorem dashboard_aggregates_bounded (N : nat) (net : network)
    (shock : shockType) (rnd : nat -> Q) (net' : network) (total : Q) :
  runSimulation N net shock rnd = Some net' ->
  Forall (fun n => 0 <= E_initial n) (nodes net) ->
  total == sum_over E_initial (nodes net) ->
  0 <= totalLoss total (nodes net')
  /\ totalLoss total (nodes net') <= total
  /\ 0 <= contagionIndex total (nodes net')
  /\ contagionIndex total (nodes net') <= 100
  /\ (totalFailures (nodes net') <= length (nodes net))%nat.
Proof.
  intros Hrun Hpos Htotal.
  pose proof (runSimulation_static _ _ _ _ _ Hrun) as Hperm.
  pose proof (runSimulation_evaluated _ _ _ _ _ Hrun) as Hev.
  pose proof (E_initial_static_nonneg _ _ Hperm Hpos) as Hpos'.
  assert (Forall (fun n => 0 <= Qmax 0 (E n) /\ Qmax 0 (E n) <= E_initial n)
            (nodes net')) as Hbank.
  { apply Forall_forall. intros n Hn.
    rewrite Forall_forall in Hev, Hpos'.
    destruct (Hev n Hn) as (H0 & H1 & HE & _). specialize (Hpos' n Hn).
    split; [apply Q.le_max_l|]. apply Q.max_lub; [done|].
    rewrite HE. nra. }
  assert (0 <= totalPostShockCapital (nodes net')) as Hlo.
  { rewrite totalPostShockCapital_sum. apply sum_over_nonneg.
    eapply Forall_impl; [exact Hbank|]. by intros n [? _]. }
  assert (totalPostShockCapital (nodes net') <= total) as Hhi.
  { rewrite totalPostShockCapital_sum, Htotal,
      <- (sum_E_initial_static _ _ Hperm).
    apply sum_over_le. eapply Forall_impl; [exact Hbank|]. by intros n [_ ?]. }
  assert (0 <= totalLoss total (nodes net')
          /\ totalLoss total (nodes net') <= total) as [Hl0 Hl1]
    by (unfold totalLoss; lra).
  split; [done|]. split; [done|].
  assert (0 <= contagionIndex total (nodes net')
          /\ contagionIndex total (nodes net') <= 100) as [Hc0 Hc1].
  { unfold contagionIndex. case_cmp; [|lra].
    assert (0 <= totalLoss total (nodes net') / total) as Hq0
      by (apply Qle_shift_div_l; lra).
    assert (totalLoss total (nodes net') / total <= 1) as Hq1
      by (apply Qle_shift_div_r; lra).
    lra. }
  split; [done|]. split; [done|].
  unfold totalFailures.
  pose proof (filter_length_le isFailed (nodes net')) as Hf.
  apply Permutation_length in Hperm. rewrite !length_map in Hperm.
  rewrite <- Hperm. exact Hf.
Qed.

Lemma dashboard_aggregates_bounded_witness :
  exists net',
    runSimulation 5 scenario Macro rnd_half = Some net'
    /\ Forall (fun n => 0 <= E_initial n) (nodes scenario)
    /\ 500 == sum_over E_initial (nodes scenario)
    /\ 0 <= totalLoss 500 (nodes net')
    /\ totalLoss 500 (nodes net') <= 500
    /\ 0 <= contagionIndex 500 (nodes net')
    /\ contagionIndex 500 (nodes net') <= 100
    /\ (totalFailures (nodes net') <= length (nodes scenario))%nat.
Proof.
  assert (Forall (fun n => 0 <= E_initial n) (nodes scenario)) as Hpos
    by (repeat constructor; by vm_compute).
  assert (500 == sum_over E_initial (nodes scenario)) as Hsum
    by reflexivity.
  eexists. split; [vm_compute; reflexivity|].
  split; [exact Hpos|]. split; [exact Hsum|].
  apply (dashboard_aggregates_bounded 5 scenario Macro rnd_half);
    [vm_compute; reflexivity|exact Hpos|exact Hsum].
Defined.

(** ** Looking a bank up *)

(** X11.  In every network the script can hold, after generation and any
    number of runs, [selectBank]'s lookup finds a bank for every id below
    [N]: the bank with that id, and the only one. *)
Theorem find_bank_on_reachable (N : nat) (net : network) (i : nat) :
  reachable N net ->
  (i < N)%nat ->
  exists n,
    find_bank i (nodes net) = Some n
    /\ id n = i
    /\ n ∈ nodes net
    /\ forall m, m ∈ nodes net -> id m = i -> m = n.
Proof.
  intros Hreach Hi. pose proof (reachable_ids N net Hreach) as Hids.
  assert (i ∈ map id (nodes net)) as Hin.
  { rewrite Hids. apply list_elem_of_In, in_seq. lia. }
  apply list_elem_of_fmap in Hin as (n0 & Hid0 & Hn0).
  unfold find_bank.
  destruct (List.find (fun n => Nat.eqb (id n) i) (nodes net)) as [n|] eqn:Hf.
  - apply find_some in Hf as [Hn Hid]. apply Nat.eqb_eq in Hid.
    exists n. split; [done|]. split; [done|].
    split; [by apply list_elem_of_In|].
    intros m Hm Hmi.
    assert (NoDup (map id (nodes net))) as Hnd.
    { rewrite Hids. apply NoDup_ListNoDup, seq_NoDup. }
    apply list_elem_of_In in Hn.
    apply list_elem_of_lookup_1 in Hm as [a Ha].
    apply list_elem_of_lookup_1 in Hn as [b Hb].
    assert (a = b) as ->.
    { apply (NoDup_lookup _ a b i Hnd);
        rewrite list_lookup_fmap; [by rewrite Ha; cbn; rewrite Hmi
                                  |by rewrite Hb; cbn; rewrite Hid]. }
    congruence.
  - exfalso. pose proof (find_none _ _ Hf n0) as Hnone.
    assert (In n0 (nodes net)) as HIn by (by apply list_elem_of_In).
    specialize (Hnone HIn). cbn in Hnone. apply Nat.eqb_neq in Hnone.
    by subst.
Qed.

Lemma find_bank_on_reachable_witness :
  exists net n,
    reachable 3 net /\ (2 < 3)%nat
    /\ find_bank 2 (nodes net) = Some n /\ id n = 2%nat.
Proof.
  assert (exists net, generateNetwork rnd_half shuffle_id 3 = Some net)
    as [net Hgen] by (eexists; vm_compute; reflexivity).
  pose proof (reachable_generated 3 rnd_half shuffle_id net Hgen) as Hreach.
  pose proof (Nat.lt_succ_diag_r 2) as Hlt.
  destruct (find_bank_on_reachable 3 net 2 Hreach Hlt) as (n & Hf & Hid & _).
  exists net, n. split; [exact Hreach|]. split; [exact Hlt|].
  split; [exact Hf|exact Hid].
Defined.

(** ** The stages of [generateNetwork] *)

Section GeneratorStages.

Variable rnd : nat -> Q.
Variable shuffle : forall T : Type, list T -> nat -> list T * nat.

(** The first step in closed form. *)
Lemma push_bank_loop (names : list string) (c0 N : nat) :
  loop_upto N (push_bank rnd names) ([], c0)
  = (map (bank_at_birth rnd names c0) (seq 0 N), (c0 + 2 * N)%nat).
Proof.
  induction N as [|N IH]; [by rewrite Nat.mul_0_r, Nat.add_0_r|].
  cbn [loop_upto]. rewrite IH. unfold push_bank.
  rewrite seq_S, map_app. cbn [map Nat.add].
  replace (c0 + 2 * S N)%nat with (c0 + 2 * N + 2)%nat by lia.
  reflexivity.
Qed.

(** [generateNetwork], stage by stage. *)
Lemma generateNetwork_stages (N : nat) (net : network) :
  generateNetwork rnd shuffle N = Some net ->
  exists names c0 ns2 adj2 c2 ns3,
    shuffle string (take N INDIAN_BANK_NAMES) 0%nat = (names, c0)
    /\ for_upto N (assign_debtor rnd shuffle)
         (map (bank_at_birth rnd names c0) (seq 0 N),
          replicate N (replicate N 0), (c0 + 2 * N)%nat)
       = Some (ns2, adj2, c2)
    /\ mapM (finalize_bank N adj2) ns2 = Some ns3
    /\ net = mkNetwork ns3 adj2.
Proof.
  intros Hgen.
  destruct (generateNetwork_spec rnd shuffle N)
    as (net0 & Hgen0 & _ & _ & Hrank & _).
  rewrite Hgen in Hgen0. inversion Hgen0; subst net0. clear Hgen0.
  unfold generateNetwork in Hgen.
  destruct (shuffle string _ _) as [names c0] eqn:Hnames.
  rewrite push_bank_loop in Hgen.
  apply bind_Some in Hgen as ([[ns2 adj2] c2] & Hloop & Hgen).
  apply bind_Some in Hgen as (ns3 & Hfin & Hgen). cbn zeta in Hgen.
  apply bind_Some in Hgen as (rows & _ & Hgen).
  inversion Hgen; subst net. clear Hgen.
  exists names, c0, ns2, adj2, c2, ns3.
  split; [done|]. split; [done|]. split; [done|].
  unfold updateMetricsDashboard in *. cbn [nodes adj] in *.
  rewrite sort_by_debtRank_perm in Hrank.
  by rewrite (sort_by_debtRank_zero _ Hrank).
Qed.

(** What one iteration of the loop over debtors does. *)
Lemma assign_debtor_anatomy (k : nat) (ns : list node)
    (adj : list (list Q)) (c : nat)
    (t' : list node * list (list Q) * nat) (debtor0 : node) :
  assign_debtor rnd shuffle k (ns, adj, c) = Some t' ->
  ns !! k = Some debtor0 ->
  let totalIBL := L debtor0 * ((15 # 100) + rnd c * (15 # 100)) in
  let debtor := set_L_interbank debtor0 totalIBL in
  let ns' := <[k := debtor]> ns in
  exists shuffled c' sh,
    shuffle node (filter (fun n => id n <> id debtor) ns') (c + 2)%nat
    = (shuffled, c')
    /\ forEach_opt (assign_share rnd debtor totalIBL)
         (take (Z.to_nat (Qfloor (rnd (c + 1)%nat * 4)) + 1) shuffled)
         (mkShare adj 0 c') = Some sh
    /\ t' = (ns', s_adj sh, s_calls sh).
Proof.
  intros Hrun Hk. cbn zeta. unfold assign_debtor in Hrun. rewrite Hk in Hrun.
  destruct (shuffle node _ _) as [shuffled c'] eqn:Hsh.
  apply bind_Some in Hrun as (sh & Hloop & Hrun).
  exists shuffled, c', sh. split; [done|]. split; [done|].
  by inversion Hrun.
Qed.

(** The second step changes [L_interbank] and nothing else in a bank. *)
Lemma assign_debtors_nodes (N : nat) (ns1 : list node)
    (adj0 : list (list Q)) (c1 : nat) (ns2 : list node)
    (adj2 : list (list Q)) (c2 : nat) :
  for_upto N (assign_debtor rnd shuffle) (ns1, adj0, c1)
  = Some (ns2, adj2, c2) ->
  length ns1 = N ->
  Forall2 (fun n1 n2 =>
             exists c, n2 = set_L_interbank n1
                              (L n1 * ((15 # 100) + rnd c * (15 # 100))))
          ns1 ns2.
Proof.
  intros Hrun Hlen.
  assert (length ns2 = length ns1
          /\ forall i n1, ns1 !! i = Some n1 ->
               ((i < N)%nat ->
                exists c, ns2 !! i
                          = Some (set_L_interbank n1
                                    (L n1 * ((15 # 100) + rnd c * (15 # 100)))))
               /\ ((N <= i)%nat -> ns2 !! i = Some n1)) as [Hlen2 Hall].
  { apply (for_upto_inv
      (fun k (st : list node * list (list Q) * nat) =>
         length (fst (fst st)) = length ns1
         /\ forall i n1, ns1 !! i = Some n1 ->
              ((i < k)%nat ->
               exists c, fst (fst st) !! i
                         = Some (set_L_interbank n1
                                   (L n1 * ((15 # 100) + rnd c * (15 # 100)))))
              /\ ((k <= i)%nat -> fst (fst st) !! i = Some n1))
      _ _ _ _ Hrun).
    - cbn [fst]. split; [done|]. intros i n1 Hi. split; [lia|done].
    - intros k [[ns adj] c] t' Hk [Hl Hinv] Hbody. cbn [fst] in *.
      destruct (lookup_lt_is_Some_2 ns1 k) as [d0 Hd0]; [lia|].
      destruct (Hinv k d0 Hd0) as [_ Hsame]. specialize (Hsame (le_n k)).
      destruct (assign_debtor_anatomy _ _ _ _ _ _ Hbody Hsame)
        as (shuffled & c' & sh & _ & _ & ->). cbn [fst].
      split; [by rewrite length_insert|].
      intros i n1 Hi. destruct (Hinv i n1 Hi) as [Hlt Hge]. split.
      + intros Hik. destruct (decide (i = k)) as [->|Hne].
        * rewrite Hd0 in Hi. inversion Hi; subst n1.
          exists c. apply list_lookup_insert_eq. lia.
        * rewrite list_lookup_insert_ne by done. apply Hlt. lia.
      + intros Hik. rewrite list_lookup_insert_ne by lia. apply Hge. lia. }
  apply Forall2_same_length_lookup. split; [done|].
  intros i n1 n2 Hi Hi2. destruct (Hall i n1 Hi) as [Hlt _].
  destruct Hlt as [c Hc]; [rewrite <- Hlen; by eapply lookup_lt_Some|].
  exists c. rewrite Hi2 in Hc. by inversion Hc.
Qed.

Lemma column_sum_snoc (adj : list (list Q)) (row : list Q) (k : nat) :
  column_sum (adj ++ [row]) k == column_sum adj k + default 0 (row !! k).
Proof.
  unfold column_sum. induction adj as [|r adj IH]; simpl; [ring|].
  rewrite IH. ring.
Qed.

(** The third step gives a bank the sum of its column as interbank assets
    and the rest of its assets as external assets. *)
Lemma finalize_bank_spec (N : nat) (adj : list (list Q)) (n n' : node) :
  finalize_bank N adj n = Some n' ->
  length adj = N ->
  birth_fields n' = birth_fields n
  /\ L_interbank n' = L_interbank n
  /\ A_interbank n' == column_sum adj (id n)
  /\ A_external n' = A n - A_interbank n'.
Proof.
  unfold finalize_bank. intros Hrun Hlen.
  apply bind_Some in Hrun as (a & Ha & Hrun). inversion Hrun; subst n'.
  cbn. repeat split.
  assert (a == column_sum (take N adj) (id n)) as Hsum.
  { apply (for_upto_inv (fun j acc => acc == column_sum (take j adj) (id n))
             _ _ _ _ Ha); [reflexivity|].
    intros j acc acc' Hj Hacc Hbody.
    apply bind_Some in Hbody as (x & Hx & Hbody). inversion Hbody; subst.
    unfold adj_read in Hx. apply bind_Some in Hx as (row & Hrow & Hx).
    rewrite (take_S_r _ _ _ Hrow), column_sum_snoc, Hx, Hacc. reflexivity. }
  rewrite Hsum. by rewrite firstn_all2 by lia.
Qed.

(** A bank of a generated network, traced back through the three steps. *)
Lemma generated_bank (N : nat) (net : network) (i : nat) (n : node) :
  generateNetwork rnd shuffle N = Some net ->
  nodes net !! i = Some n ->
  exists names c0 c,
    shuffle string (take N INDIAN_BANK_NAMES) 0%nat = (names, c0)
    /\ (i < N)%nat
    /\ birth_fields n = birth_fields (bank_at_birth rnd names c0 i)
    /\ L_interbank n
       = L (bank_at_birth rnd names c0 i) * ((15 # 100) + rnd c * (15 # 100))
    /\ A_interbank n == column_sum (adj net) i
    /\ A_external n = A n - A_interbank n.
Proof.
  intros Hgen Hi.
  destruct (generateNetwork_spec rnd shuffle N)
    as (net0 & Hgen0 & (Hn & Ha & _) & _).
  rewrite Hgen in Hgen0. inversion Hgen0; subst net0. clear Hgen0.
  destruct (generateNetwork_stages N net Hgen)
    as (names & c0 & ns2 & adj2 & c2 & ns3 & Hnames & Hloop & Hfin & ->).
  cbn [nodes adj] in *.
  apply assign_debtors_nodes in Hloop;
    [|by rewrite length_map, length_seq].
  apply mapM_Some_1 in Hfin.
  destruct (Forall2_lookup_r _ _ _ _ _ Hfin Hi) as (n2 & Hi2 & Hf).
  destruct (Forall2_lookup_r _ _ _ _ _ Hloop Hi2) as (n1 & Hi1 & c & Hc).
  assert (i < N)%nat as HiN by (rewrite <- Hn; by eapply lookup_lt_Some).
  rewrite list_lookup_fmap, lookup_seq_lt in Hi1 by done.
  cbn in Hi1. inversion Hi1; subst n1. clear Hi1.
  destruct (finalize_bank_spec N adj2 n2 n Hf Ha) as (Hb & Hl & Hai & Hae).
  exists names, c0, c. split; [done|]. split; [done|].
  assert (id n2 = i) as Hid by (by rewrite Hc).
  rewrite Hid in Hai.
  assert (A n2 = A n) as HA.
  { by apply (f_equal (fun t => t.1.1.1.1.1.1.2)) in Hb. }
  split; [by rewrite Hb, Hc|]. split; [by rewrite Hl, Hc|].
  split; [done|]. by rewrite Hae, HA.
Qed.

End GeneratorStages.

(** ** The balance sheets of a generated network *)

Lemma birth_fields_eq (n b : node) :
  birth_fields n = birth_fields b ->
  id n = id b /\ A n = A b /\ E_initial n = E_initial b /\ E n = E b
  /\ L n = L b /\ isFailed n = isFailed b /\ debtRank n = debtRank b
  /\ stressLevel n = stressLevel b.
Proof.
  unfold birth_fields. intros Hb. injection Hb as -> _ -> -> -> -> -> -> ->.
  by repeat split.
Qed.

Lemma bank_at_birth_sheet (rnd : nat -> Q) (names : list string)
    (c0 i : nat) :
  in_unit_interval rnd ->
  ASSETS_MIN <= A (bank_at_birth rnd names c0 i)
  /\ A (bank_at_birth rnd names c0 i) < ASSETS_MAX
  /\ MIN_CAPITAL_RATIO * A (bank_at_birth rnd names c0 i)
     <= E_initial (bank_at_birth rnd names c0 i)
  /\ E_initial (bank_at_birth rnd names c0 i)
     < MAX_CAPITAL_RATIO * A (bank_at_birth rnd names c0 i)
  /\ E_initial (bank_at_birth rnd names c0 i)
     + L (bank_at_birth rnd names c0 i)
     == A (bank_at_birth rnd names c0 i)
  /\ 0 < L (bank_at_birth rnd names c0 i).
Proof.
  intros Hunit. unfold bank_at_birth. cbn [A E_initial L].
  destruct (Hunit (c0 + 2 * i)%nat) as [Ha0 Ha1].
  destruct (Hunit (c0 + 2 * i + 1)%nat) as [Hq0 Hq1].
  unfold ASSETS_MIN, ASSETS_MAX, MIN_CAPITAL_RATIO, MAX_CAPITAL_RATIO.
  set (a := rnd (c0 + 2 * i)%nat * (5000 - 1000) + 1000).
  set (q := rnd (c0 + 2 * i + 1)%nat * ((15 # 100) - (8 # 100)) + (8 # 100)).
  assert (1000 <= a /\ a < 5000) as [Hlo Hhi] by (unfold a; lra).
  assert (8 # 100 <= q /\ q < 15 # 100) as [Hqlo Hqhi] by (unfold q; lra).
  clearbody a q.
  assert (0 <= a * (q - (8 # 100))) as Hp1
    by (apply Qmult_le_0_compat; lra).
  assert (0 < a * ((15 # 100) - q)) as Hp2
    by (apply Qmult_lt_0_compat; lra).
  assert (0 < a * (1 - q)) as Hp3 by (apply Qmult_lt_0_compat; lra).
  split; [lra|]. split; [lra|]. split; [lra|]. split; [lra|].
  split; [ring|lra].
Qed.

(** X12.  With draws in the unit interval, every bank of a generated
    network has assets from [ASSETS_MIN] up to [ASSETS_MAX], a capital
    between [MIN_CAPITAL_RATIO] and [MAX_CAPITAL_RATIO] of its assets,
    positive liabilities that make up the rest, and starts with its full
    capital, not failed, rank 0, Healthy. *)
Theorem generated_balance_sheet (rnd : nat -> Q)
    (shuffle : forall T : Type, list T -> nat -> list T * nat) (N : nat)
    (net : network) (n : node) :
  in_unit_interval rnd ->
  generateNetwork rnd shuffle N = Some net ->
  n ∈ nodes net ->
  ASSETS_MIN <= A n /\ A n < ASSETS_MAX
  /\ MIN_CAPITAL_RATIO * A n <= E_initial n
  /\ E_initial n < MAX_CAPITAL_RATIO * A n
  /\ E_initial n + L n == A n
  /\ 0 < L n
  /\ E n = E_initial n
  /\ isFailed n = false /\ debtRank n = 0 /\ stressLevel n = Healthy.
Proof.
  intros Hunit Hgen Hn. apply list_elem_of_lookup_1 in Hn as [i Hi].
  destruct (generated_bank rnd shuffle N net i n Hgen Hi)
    as (names & c0 & c & _ & _ & Hb & _).
  apply birth_fields_eq in Hb
    as (_ & HA & HE0 & HE & HL & Hf & Hr & Hs).
  rewrite HA, HE0, HE, HL, Hf, Hr, Hs.
  destruct (bank_at_birth_sheet rnd names c0 i Hunit)
    as (H1 & H2 & H3 & H4 & H5 & H6).
  by repeat split.
Qed.

Lemma generated_balance_sheet_witness :
  exists net n,
    in_unit_interval rnd_half
    /\ generateNetwork rnd_half shuffle_id 3 = Some net
    /\ n ∈ nodes net
    /\ ASSETS_MIN <= A n /\ A n < ASSETS_MAX
    /\ MIN_CAPITAL_RATIO * A n <= E_initial n
    /\ E_initial n < MAX_CAPITAL_RATIO * A n
    /\ E_initial n + L n == A n.
Proof.
  assert (in_unit_interval rnd_half) as Hunit.
  { intros k. unfold rnd_half. split; [by vm_compute|reflexivity]. }
  assert (exists net, generateNetwork rnd_half shuffle_id 3 = Some net
            /\ exists n, n ∈ nodes net) as (net & Hgen & n & Hn).
  { eexists. split; [vm_compute; reflexivity|].
    eexists. apply list_elem_of_here. }
  destruct (generated_balance_sheet rnd_half shuffle_id 3 net n
              Hunit Hgen Hn) as (H1 & H2 & H3 & H4 & H5 & _).
  exists net, n. by repeat split.
Defined.

(** X13.  With draws in the unit interval, the interbank liability of
    every bank of a generated network is at least 0.15 and less than 0.30
    of its liabilities. *)
Theorem generated_interbank_liability (rnd : nat -> Q)
    (shuffle : forall T : Type, list T -> nat -> list T * nat) (N : nat)
    (net : network) (n : node) :
  in_unit_interval rnd ->
  generateNetwork rnd shuffle N = Some net ->
  n ∈ nodes net ->
  (15 # 100) * L n <= L_interbank n
  /\ L_interbank n < (30 # 100) * L n
  /\ 0 < L_interbank n.
Proof.
  intros Hunit Hgen Hn.
  pose proof Hn as Hn'. apply list_elem_of_lookup_1 in Hn' as [i Hi].
  destruct (generated_bank rnd shuffle N net i n Hgen Hi)
    as (names & c0 & c & _ & _ & Hb & Hl & _).
  assert (L n = L (bank_at_birth rnd names c0 i)) as HLb
    by (by apply (f_equal (fun t => t.1.1.1.2)) in Hb).
  rewrite Hl, <- HLb. destruct (Hunit c) as [Hc0 Hc1].
  assert (0 < L n) as HLpos.
  { rewrite HLb. by apply bank_at_birth_sheet. }
  set (l := L n) in *. set (u := rnd c) in *. clearbody l u.
  assert (0 <= l * u) as Hp1 by (apply Qmult_le_0_compat; lra).
  assert (0 < l * (1 - u)) as Hp2 by (apply Qmult_lt_0_compat; lra).
  split; [lra|]. split; lra.
Qed.

Lemma generated_interbank_liability_witness :
  exists net n,
    in_unit_interval rnd_half
    /\ generateNetwork rnd_half shuffle_id 3 = Some net
    /\ n ∈ nodes net
    /\ (15 # 100) * L n <= L_interbank n
    /\ L_interbank n < (30 # 100) * L n.
Proof.
  assert (in_unit_interval rnd_half) as Hunit.
  { intros k. unfold rnd_half. split; [by vm_compute|reflexivity]. }
  assert (exists net, generateNetwork rnd_half shuffle_id 3 = Some net
            /\ exists n, n ∈ nodes net) as (net & Hgen & n & Hn).
  { eexists. split; [vm_compute; reflexivity|].
    eexists. apply list_elem_of_here. }
  destruct (generated_interbank_liability rnd_half shuffle_id 3 net n
              Hunit Hgen Hn) as (H1 & H2 & _).
  exists net, n. by repeat split.
Defined.

(** ** Interbank assets *)

Lemma column_sum_nonneg (N : nat) (adj : list (list Q)) (k : nat) :
  Forall (row_ok N) adj -> 0 <= column_sum adj k.
Proof.
  unfold column_sum. induction 1 as [|row adj [_ Hrow] _ IH]; simpl; [lra|].
  assert (0 <= default 0 (row !! k)) as Hk.
  { destruct (row !! k) as [v|] eqn:Hv; simpl; [|lra].
    rewrite Forall_forall in Hrow. apply Hrow.
    by eapply list_elem_of_lookup_2. }
  lra.
Qed.

(** The entries of a row of length [N], summed over the columns. *)
Lemma row_sum_columns (N : nat) (row : list Q) :
  length row = N ->
  foldr Qplus 0 (map (fun k => default 0 (row !! k)) (seq 0 N)) == row_sum row.
Proof.
  intros <-. induction row as [|x row IH] using rev_ind; [reflexivity|].
  rewrite length_app. cbn [length]. rewrite Nat.add_1_r, seq_S, map_app.
  cbn [map Nat.add].
  assert (forall l l' : list Q,
            foldr Qplus 0 (l ++ l') == foldr Qplus 0 l + foldr Qplus 0 l')
    as Happ.
  { intros l l'. induction l as [|y l IHl]; simpl; [ring|].
    rewrite IHl. ring. }
  unfold row_sum. rewrite !Happ.
  rewrite lookup_app_r, Nat.sub_diag by lia. cbn [lookup list_lookup default].
  rewrite <- IH. cbn [foldr].
  assert (map (fun k => default 0 ((row ++ [x]) !! k)) (seq 0 (length row))
          = map (fun k => default 0 (row !! k)) (seq 0 (length row))) as ->.
  { apply map_ext_in. intros k Hk. apply in_seq in Hk.
    by rewrite lookup_app_l by lia. }
  unfold row_sum. reflexivity.
Qed.

Lemma Qsum_zero {T : Type} (l : list T) :
  foldr Qplus 0 (map (fun _ => 0) l) == 0.
Proof. induction l as [|k l IH]; simpl; [reflexivity|]. rewrite IH. ring. Qed.

Lemma Qsum_plus {T : Type} (f g : T -> Q) (l : list T) :
  foldr Qplus 0 (map (fun k => f k + g k) l)
  == foldr Qplus 0 (map f l) + foldr Qplus 0 (map g l).
Proof. induction l as [|k l IH]; simpl; [ring|]. rewrite IH. ring. Qed.

(** In an [N] by [N] matrix the column sums add up to what the row sums
    add up to. *)
Lemma column_sums_total (N : nat) (adj : list (list Q)) :
  Forall (fun row => length row = N) adj ->
  foldr Qplus 0 (map (column_sum adj) (seq 0 N))
  == foldr Qplus 0 (map row_sum adj).
Proof.
  induction 1 as [|row adj Hrow _ IH].
  - cbn [map foldr]. unfold column_sum. cbn [map foldr]. apply Qsum_zero.
  - cbn [map foldr]. rewrite <- IH, <- (row_sum_columns N row Hrow).
    unfold column_sum. cbn [map foldr]. apply Qsum_plus.
Qed.

Lemma sum_over_ext (f g : node -> Q) (l : list node) :
  Forall (fun n => f n == g n) l -> sum_over f l == sum_over g l.
Proof.
  unfold sum_over. induction 1 as [|n l Hn _ IH]; simpl; [reflexivity|].
  by rewrite Hn, IH.
Qed.

Lemma row_sums_le (rows : list (list Q)) (ns : list node) :
  Forall2 (fun row n => row_sum row <= L_interbank n) rows ns ->
  foldr Qplus 0 (map row_sum rows) <= sum_over L_interbank ns.
Proof.
  unfold sum_over. induction 1 as [|row n rows ns Hle _ IH]; simpl; lra.
Qed.

(** X14.  In a generated network the interbank assets of a bank are the
    sum of its column of the exposure matrix, which is not negative, and
    its external assets are the rest of its assets. *)
Theorem generated_interbank_assets (rnd : nat -> Q)
    (shuffle : forall T : Type, list T -> nat -> list T * nat) (N : nat)
    (net : network) (n : node) :
  generateNetwork rnd shuffle N = Some net ->
  n ∈ nodes net ->
  A_interbank n == column_sum (adj net) (id n)
  /\ 0 <= A_interbank n
  /\ A_external n + A_interbank n == A n.
Proof.
  intros Hgen Hn. apply list_elem_of_lookup_1 in Hn as [i Hi].
  destruct (generateNetwork_spec rnd shuffle N)
    as (net0 & Hgen0 & _ & Hal & _ & Hrows & _).
  rewrite Hgen in Hgen0. inversion Hgen0; subst net0. clear Hgen0.
  destruct (generated_bank rnd shuffle N net i n Hgen Hi)
    as (names & c0 & c & _ & _ & _ & _ & Hai & Hae).
  rewrite (Hal i n Hi). split; [done|].
  split; [rewrite Hai; by eapply column_sum_nonneg|].
  rewrite Hae. ring.
Qed.

Lemma generated_interbank_assets_witness :
  exists net n,
    generateNetwork rnd_half shuffle_id 3 = Some net
    /\ n ∈ nodes net
    /\ A_interbank n == column_sum (adj net) (id n)
    /\ 0 <= A_interbank n
    /\ A_external n + A_interbank n == A n.
Proof.
  assert (exists net, generateNetwork rnd_half shuffle_id 3 = Some net
            /\ exists n, n ∈ nodes net) as (net & Hgen & n & Hn).
  { eexists. split; [vm_compute; reflexivity|].
    eexists. apply list_elem_of_here. }
  exists net, n. split; [exact Hgen|]. split; [exact Hn|].
  exact (generated_interbank_assets rnd_half shuffle_id 3 net n Hgen Hn).
Defined.

(** X15.  In a generated network the interbank assets of all banks add up
    to the sum of all exposures; with draws in the unit interval this is at
    most the sum of the interbank liabilities. *)
Theorem generated_claims_match_exposures (rnd : nat -> Q)
    (shuffle : forall T : Type, list T -> nat -> list T * nat) (N : nat)
    (net : network) :
  in_unit_interval rnd ->
  generateNetwork rnd shuffle N = Some net ->
  sum_over A_interbank (nodes net) == foldr Qplus 0 (map row_sum (adj net))
  /\ sum_over A_interbank (nodes net) <= sum_over L_interbank (nodes net).
Proof.
  intros Hunit Hgen.
  destruct (generateNetwork_spec rnd shuffle N)
    as (net0 & Hgen0 & (Hn & Ha & Hlens) & Hal & _ & Hrows & Hsum).
  rewrite Hgen in Hgen0. inversion Hgen0; subst net0. clear Hgen0.
  assert (sum_over A_interbank (nodes net)
          == foldr Qplus 0 (map row_sum (adj net))) as Heq.
  { rewrite <- (column_sums_total N (adj net) Hlens).
    rewrite <- Hn, <- (ids_aligned_seq _ Hal), map_map.
    apply sum_over_ext, Forall_forall. intros n Hin.
    apply list_elem_of_lookup_1 in Hin as [i Hi].
    destruct (generated_bank rnd shuffle N net i n Hgen Hi)
      as (names & c0 & c & _ & _ & _ & _ & Hai & _).
    by rewrite (Hal i n Hi). }
  split; [done|]. rewrite Heq. specialize (Hsum Hunit).
  apply row_sums_le, Forall2_same_length_lookup. split; [lia|].
  intros i row n Hrow Hi. destruct (Hsum i n Hi) as (row' & Hrow' & Hle).
  rewrite Hrow in Hrow'. by inversion Hrow'; subst.
Qed.

Lemma generated_claims_match_exposures_witness :
  exists net,
    in_unit_interval rnd_half
    /\ generateNetwork rnd_half shuffle_id 3 = Some net
    /\ sum_over A_interbank (nodes net)
       == foldr Qplus 0 (map row_sum (adj net))
    /\ sum_over A_interbank (nodes net) <= sum_over L_interbank (nodes net).
Proof.
  assert (in_unit_interval rnd_half) as Hunit.
  { intros k. unfold rnd_half. split; [by vm_compute|reflexivity]. }
  assert (exists net, generateNetwork rnd_half shuffle_id 3 = Some net)
    as [net Hgen] by (eexists; vm_compute; reflexivity).
  exists net. split; [exact Hunit|]. split; [exact Hgen|].
  exact (generated_claims_match_exposures rnd_half shuffle_id 3 net
           Hunit Hgen).
Defined.

(** ** The creditors of a bank *)

Lemma forEach_opt_inv_in {T St : Type} (P : St -> Prop)
    (body : St -> T -> option St) (l : list T) (s s' : St) :
  forEach_opt body l s = Some s' ->
  P s ->
  (forall t x t', x ∈ l -> P t -> body t x = Some t' -> P t') ->
  P s'.
Proof.
  intros Hrun Hs Hstep. revert s Hrun Hs.
  induction l as [|x l IH]; intros s Hrun Hs; simpl in Hrun.
  - by inversion Hrun; subst.
  - apply bind_Some in Hrun as (t & Ht & Hrun).
    apply (IH (fun t x t' Hx => Hstep t x t' (list_elem_of_further _ _ _ Hx))
              t Hrun).
    eapply Hstep; [apply list_elem_of_here|exact Hs|exact Ht].
Qed.

(** A write off the diagonal leaves the diagonal alone. *)
Lemma adj_write_diagonal (adj adj' : list (list Q)) (i j : nat) (v : Q) :
  adj_write adj i j v = Some adj' -> i <> j ->
  no_self_exposure adj -> no_self_exposure adj'.
Proof.
  unfold adj_write. intros Hw Hij Hdiag.
  apply bind_Some in Hw as (row & Hrow & Hw). inversion Hw; subst adj'.
  intros a row' x Ha Hx. destruct (decide (a = i)) as [->|Hai].
  - rewrite list_lookup_insert_eq in Ha by (by eapply lookup_lt_Some).
    inversion Ha; subst row'.
    rewrite list_lookup_insert_ne in Hx by done. by eapply Hdiag.
  - rewrite list_lookup_insert_ne in Ha by done. by eapply Hdiag.
Qed.

Lemma assign_share_diagonal (rnd : nat -> Q) (debtor creditor : node)
    (totalIBL : Q) (sh sh' : share_state) :
  assign_share rnd debtor totalIBL sh creditor = Some sh' ->
  id creditor <> id debtor ->
  no_self_exposure (s_adj sh) -> no_self_exposure (s_adj sh').
Proof.
  unfold assign_share. intros Hrun Hne Hdiag.
  destruct (Qltb 0 _); [|by inversion Hrun; subst].
  apply bind_Some in Hrun as (adj' & Hw & Hrun). inversion Hrun; subst sh'.
  cbn [s_adj]. eapply adj_write_diagonal; [exact Hw|congruence|done].
Qed.

Lemma assign_debtor_diagonal (rnd : nat -> Q)
    (shuffle : forall T : Type, list T -> nat -> list T * nat) (k : nat)
    (st st' : list node * list (list Q) * nat) :
  shuffle_permutes shuffle ->
  assign_debtor rnd shuffle k st = Some st' ->
  no_self_exposure (snd (fst st)) -> no_self_exposure (snd (fst st')).
Proof.
  intros Hperm Hrun Hdiag. destruct st as [[ns adj0] c]. cbn [fst snd] in *.
  destruct (ns !! k) as [debtor0|] eqn:Hk.
  - destruct (assign_debtor_anatomy rnd shuffle k ns adj0 c st' debtor0
                Hrun Hk) as (shuffled & c' & sh & Hsh & Hloop & ->).
    cbn [fst snd].
    apply (forEach_opt_inv_in (fun t => no_self_exposure (s_adj t))
             _ _ _ _ Hloop); [done|].
    intros t x t' Hx Ht Hbody.
    eapply assign_share_diagonal; [exact Hbody| |done].
    assert (x ∈ shuffled) as Hin.
    { apply list_elem_of_lookup_1 in Hx as [a Ha].
      apply lookup_take_Some in Ha as [Ha _].
      by eapply list_elem_of_lookup_2. }
    apply (f_equal fst) in Hsh. cbn [fst] in Hsh.
    rewrite <- Hsh, (Hperm node) in Hin.
    by apply list_elem_of_filter in Hin as [Hne _].
  - unfold assign_debtor in Hrun. rewrite Hk in Hrun. by inversion Hrun; subst.
Qed.

(** X16.  When [d3.shuffle] returns a rearrangement of its argument, no
    bank of a generated network owes anything to itself: every entry on
    the diagonal of the exposure matrix is the 0 it was filled with. *)
Theorem generated_no_self_exposure (rnd : nat -> Q)
    (shuffle : forall T : Type, list T -> nat -> list T * nat) (N : nat)
    (net : network) (i : nat) :
  shuffle_permutes shuffle ->
  generateNetwork rnd shuffle N = Some net ->
  (i < N)%nat ->
  adj_read (adj net) i i = Some 0.
Proof.
  intros Hperm Hgen Hi.
  destruct (generateNetwork_spec rnd shuffle N)
    as (net0 & Hgen0 & (_ & Ha & Hlens) & _).
  rewrite Hgen in Hgen0. inversion Hgen0; subst net0. clear Hgen0.
  destruct (generateNetwork_stages rnd shuffle N net Hgen)
    as (names & c0 & ns2 & adj2 & c2 & ns3 & _ & Hloop & _ & ->).
  cbn [adj] in *.
  assert (no_self_exposure adj2) as Hdiag.
  { apply (for_upto_inv
      (fun _ (st : list node * list (list Q) * nat) =>
         no_self_exposure (snd (fst st))) _ _ _ _ Hloop).
    - cbn [fst snd]. intros a row v Hrow Hv.
      apply lookup_replicate_1 in Hrow as [-> _].
      by apply lookup_replicate_1 in Hv as [-> _].
    - intros k t t' _ Ht Hbody.
      by eapply assign_debtor_diagonal. }
  unfold adj_read.
  destruct (lookup_lt_is_Some_2 adj2 i) as [row Hrow]; [lia|].
  rewrite Hrow. cbn.
  assert (length row = N) as Hlen.
  { rewrite Forall_forall in Hlens. apply Hlens.
    by eapply list_elem_of_lookup_2. }
  destruct (lookup_lt_is_Some_2 row i) as [v Hv]; [lia|].
  rewrite Hv. f_equal. by eapply Hdiag.
Qed.

Lemma shuffle_id_permutes : shuffle_permutes shuffle_id.
Proof. by intros T l c. Qed.

Lemma generated_no_self_exposure_witness :
  exists net,
    shuffle_permutes shuffle_id
    /\ generateNetwork rnd_half shuffle_id 3 = Some net
    /\ (1 < 3)%nat
    /\ adj_read (adj net) 1 1 = Some 0.
Proof.
  assert (exists net, generateNetwork rnd_half shuffle_id 3 = Some net)
    as [net Hgen] by (eexists; vm_compute; reflexivity).
  pose proof (Nat.lt_succ_diag_r 1) as Hlt. apply Nat.lt_lt_succ_r in Hlt.
  exists net. split; [exact shuffle_id_permutes|]. split; [exact Hgen|].
  split; [exact Hlt|].
  exact (generated_no_self_exposure rnd_half shuffle_id 3 net 1
           shuffle_id_permutes Hgen Hlt).
Defined.

Lemma positive_entries_replicate (n : nat) :
  positive_entries (replicate n 0) = 0%nat.
Proof. induction n as [|n IH]; [done|]. unfold positive_entries in *. by cbn. Qed.

Lemma positive_entries_insert_le (row : list Q) (j : nat) (v : Q) :
  (positive_entries (<[j := v]> row) <= S (positive_entries row))%nat.
Proof.
  unfold positive_entries. revert j.
  induction row as [|x row IH]; intros j; [simpl; lia|].
  destruct j as [|j]; simpl.
  - destruct (Qltb 0 v), (Qltb 0 x); simpl; lia.
  - specialize (IH j). destruct (Qltb 0 x); simpl; lia.
Qed.

Lemma positive_entries_insert_ge (row : list Q) (j : nat) (v : Q) :
  0 < v ->
  (positive_entries row <= positive_entries (<[j := v]> row))%nat.
Proof.
  intros Hv. apply Qltb_iff in Hv. unfold positive_entries. revert j.
  induction row as [|x row IH]; intros j; [simpl; lia|].
  destruct j as [|j]; simpl.
  - rewrite Hv. destruct (Qltb 0 x); simpl; lia.
  - specialize (IH j). destruct (Qltb 0 x); simpl; lia.
Qed.

Lemma positive_entries_lookup (row : list Q) (j : nat) (v : Q) :
  row !! j = Some v -> 0 < v -> (1 <= positive_entries row)%nat.
Proof.
  intros Hj Hv. apply Qltb_iff in Hv. unfold positive_entries. revert j Hj.
  induction row as [|x row IH]; intros j Hj; [done|].
  destruct j as [|j]; simpl in *.
  - inversion Hj; subst. rewrite Hv. simpl. lia.
  - specialize (IH j Hj). destruct (Qltb 0 x); simpl; lia.
Qed.

(** One creditor: the other rows stay, and the row of the debtor gains at
    most one positive entry and loses none. *)
Lemma assign_share_count (rnd : nat -> Q) (debtor creditor : node)
    (totalIBL : Q) (sh sh' : share_state) :
  assign_share rnd debtor totalIBL sh creditor = Some sh' ->
  (forall i, i <> id debtor -> s_adj sh' !! i = s_adj sh !! i)
  /\ forall row, s_adj sh !! id debtor = Some row ->
       exists row', s_adj sh' !! id debtor = Some row'
         /\ (positive_entries row <= positive_entries row'
             <= S (positive_entries row))%nat.
Proof.
  unfold assign_share. intros Hrun.
  destruct (Qltb 0 _) eqn:Hpos.
  - apply Qltb_iff in Hpos.
    apply bind_Some in Hrun as (adj' & Hw & Hrun). inversion Hrun; subst sh'.
    cbn [s_adj]. unfold adj_write in Hw.
    apply bind_Some in Hw as (row0 & Hrow0 & Hw). inversion Hw; subst adj'.
    split; [intros i Hi; by rewrite list_lookup_insert_ne|].
    intros row Hrow. rewrite Hrow0 in Hrow. inversion Hrow; subst row0.
    eexists. split.
    { apply list_lookup_insert_eq. by eapply lookup_lt_Some. }
    split; [by apply positive_entries_insert_ge
           |apply positive_entries_insert_le].
  - inversion Hrun; subst sh'. cbn [s_adj]. split; [done|].
    intros row Hrow. exists row. split; [done|lia].
Qed.

Lemma assign_shares_count (rnd : nat -> Q) (debtor : node) (totalIBL : Q)
    (l : list node) (sh sh' : share_state) :
  forEach_opt (assign_share rnd debtor totalIBL) l sh = Some sh' ->
  (forall i, i <> id debtor -> s_adj sh' !! i = s_adj sh !! i)
  /\ forall row, s_adj sh !! id debtor = Some row ->
       exists row', s_adj sh' !! id debtor = Some row'
         /\ (positive_entries row <= positive_entries row'
             <= positive_entries row + length l)%nat.
Proof.
  revert sh. induction l as [|x l IH]; intros sh Hrun; simpl in Hrun.
  - inversion Hrun; subst sh'. split; [done|].
    intros row Hrow. exists row. split; [done|simpl; lia].
  - apply bind_Some in Hrun as (t & Ht & Hrun).
    destruct (assign_share_count _ _ _ _ _ _ Ht) as [Ho1 Hc1].
    destruct (IH t Hrun) as [Ho2 Hc2]. split.
    { intros i Hi. by rewrite Ho2, Ho1. }
    intros row Hrow. destruct (Hc1 row Hrow) as (row1 & Hrow1 & Hb1).
    destruct (Hc2 row1 Hrow1) as (row2 & Hrow2 & Hb2).
    exists row2. split; [done|]. simpl. lia.
Qed.

(** [numCreditors] is at most 4 for a draw in the unit interval. *)
Lemma numCreditors_le (r : Q) :
  0 <= r -> r < 1 -> (Z.to_nat (Qfloor (r * 4)) + 1 <= 4)%nat.
Proof.
  intros H0 H1.
  assert (Qfloor (r * 4) < 4)%Z as Hlt.
  { rewrite Zlt_Qlt. pose proof (Qfloor_le (r * 4)) as Hfl.
    change (inject_Z 4) with 4. lra. }
  lia.
Qed.

(** The first creditor of the list always receives a positive share. *)
Lemma assign_share_first (rnd : nat -> Q) (debtor creditor : node)
    (totalIBL : Q) (adj0 : list (list Q)) (c : nat) (sh' : share_state)
    (row : list Q) :
  in_unit_interval rnd -> 0 < totalIBL ->
  adj0 !! id debtor = Some row -> (id creditor < length row)%nat ->
  assign_share rnd debtor totalIBL (mkShare adj0 0 c) creditor = Some sh' ->
  exists row', s_adj sh' !! id debtor = Some row'
    /\ (1 <= positive_entries row')%nat.
Proof.
  intros Hunit Htot Hrow Hlen. unfold assign_share.
  cbn [s_adj assignedLiability s_calls].
  destruct (Hunit c) as [Hc0 Hc1].
  set (share := Qmin _ _).
  assert (0 < share) as Hshare.
  { unfold share. apply Q.min_glb_lt; [|lra].
    apply Qmult_lt_0_compat; lra. }
  pose proof Hshare as Hb. apply Qltb_iff in Hb. rewrite Hb.
  unfold adj_write. rewrite Hrow. cbn. intros Hrun.
  inversion Hrun; subst sh'. cbn [s_adj]. eexists. split.
  { apply list_lookup_insert_eq. by eapply lookup_lt_Some. }
  eapply positive_entries_lookup; [|exact Hshare].
  by apply list_lookup_insert_eq.
Qed.

Lemma debtor_inv_init (rnd : nat -> Q) (names : list string) (c0 N : nat) :
  debtor_inv rnd N 0
    (map (bank_at_birth rnd names c0) (seq 0 N),
     replicate N (replicate N 0), (c0 + 2 * N)%nat).
Proof.
  pose proof (push_bank_inv rnd names N c0) as Hpush. cbn zeta in Hpush.
  rewrite push_bank_loop in Hpush. cbn [fst] in Hpush.
  destruct Hpush as (Hlen1 & Hal1 & Hrank1 & Hfresh1).
  unfold debtor_inv. cbn [fst snd].
  split; [done|]. split; [done|]. split; [done|].
  split; [by rewrite length_replicate|]. split.
  { apply Forall_replicate. split; [by rewrite length_replicate|].
    by apply Forall_replicate. }
  intros Hunit. split; [by apply Hfresh1|].
  intros i n row _ Hrow. apply lookup_replicate_1 in Hrow as [-> _].
  split; [lia|]. intros _. apply row_sum_replicate.
Qed.

(** One debtor: the other rows stay, and the row of the debtor, empty
    before, gets at most four positive entries, and at least one when
    there is another bank to pick. *)
Lemma assign_debtor_count (rnd : nat -> Q)
    (shuffle : forall T : Type, list T -> nat -> list T * nat) (N k : nat)
    (st st' : list node * list (list Q) * nat) :
  in_unit_interval rnd -> (k < N)%nat ->
  debtor_inv rnd N k st ->
  assign_debtor rnd shuffle k st = Some st' ->
  Forall (fun n => 0 < L n) (fst (fst st)) ->
  (forall row, snd (fst st) !! k = Some row -> positive_entries row = 0%nat) ->
  Forall (fun n => 0 < L n) (fst (fst st'))
  /\ (forall i, i <> k -> snd (fst st') !! i = snd (fst st) !! i)
  /\ exists row', snd (fst st') !! k = Some row'
       /\ (positive_entries row' <= 4)%nat
       /\ (shuffle_permutes shuffle -> (2 <= N)%nat ->
           (1 <= positive_entries row')%nat).
Proof.
  intros Hunit Hk Hinv Hrun HL Hzero. destruct st as [[ns adj0] c].
  destruct Hinv as (Hlen & Hal & _ & Halen & Hrows & _). cbn [fst snd] in *.
  destruct (lookup_lt_is_Some_2 ns k) as [debtor0 Hd]; [lia|].
  destruct (assign_debtor_anatomy rnd shuffle k ns adj0 c st' debtor0
              Hrun Hd) as (shuffled & c' & sh & Hsh & Hloop & ->).
  cbn [fst snd]. clear Hrun.
  set (totalIBL := L debtor0 * ((15 # 100) + rnd c * (15 # 100))) in *.
  set (debtor := set_L_interbank debtor0 totalIBL) in *.
  assert (id debtor = k) as Hid by (cbn; by apply Hal).
  assert (0 < L debtor0) as HLd.
  { rewrite Forall_forall in HL. apply HL. by eapply list_elem_of_lookup_2. }
  split; [by apply Forall_insert|].
  destruct (assign_shares_count _ _ _ _ _ _ Hloop) as [Hother Hcount].
  cbn [s_adj] in *. rewrite Hid in *.
  split; [done|].
  destruct (lookup_lt_is_Some_2 adj0 k) as [row Hrow]; [lia|].
  destruct (Hcount row Hrow) as (row' & Hrow' & _ & Hle).
  rewrite (Hzero row Hrow) in Hle.
  exists row'. split; [done|]. split.
  { rewrite length_take in Hle. destruct (Hunit (c + 1)%nat) as [H0 H1].
    pose proof (numCreditors_le _ H0 H1). lia. }
  intros Hperm HN.
  assert (row_ok N row) as [Hrlen _].
  { rewrite Forall_forall in Hrows. apply Hrows.
    by eapply list_elem_of_lookup_2. }
  assert (ids_aligned (<[k := debtor]> ns)) as Hal'.
  { intros i n Hi. destruct (decide (i = k)) as [->|Hik].
    - rewrite list_lookup_insert_eq in Hi by lia. by inversion Hi; subst.
    - rewrite list_lookup_insert_ne in Hi by done. by apply Hal. }
  assert (forall x, x ∈ shuffled -> (id x < N)%nat) as Hbelow.
  { intros x Hx. apply (f_equal fst) in Hsh. cbn [fst] in Hsh.
    rewrite <- Hsh, (Hperm node) in Hx.
    apply list_elem_of_filter in Hx as [_ Hx].
    apply list_elem_of_lookup_1 in Hx as [i Hi].
    rewrite (Hal' i x Hi). apply lookup_lt_Some in Hi.
    by rewrite length_insert, Hlen in Hi. }
  assert (exists m, m ∈ shuffled) as [m Hm].
  { set (j := if decide (k = 0)%nat then 1%nat else 0%nat).
    assert (j <> k /\ (j < N)%nat) as [Hjk HjN]
      by (unfold j; destruct (decide (k = 0)%nat); lia).
    destruct (lookup_lt_is_Some_2 ns j) as [m Hm]; [lia|].
    exists m. apply (f_equal fst) in Hsh. cbn [fst] in Hsh.
    rewrite <- Hsh, (Hperm node). apply list_elem_of_filter. split.
    - by rewrite (Hal j m Hm).
    - apply (list_elem_of_lookup_2 _ j).
      by rewrite list_lookup_insert_ne. }
  destruct shuffled as [|x rest]; [by apply elem_of_nil in Hm|].
  rewrite Nat.add_1_r in Hloop. cbn [take forEach_opt] in Hloop.
  apply bind_Some in Hloop as (t & Ht & Hrest).
  destruct (assign_share_first rnd debtor x totalIBL adj0 c' t row)
    as (row1 & Hrow1 & Hone); [done| |by rewrite Hid| |done|].
  { unfold totalIBL. destruct (Hunit c) as [Hc0 Hc1].
    apply Qmult_lt_0_compat; lra. }
  { rewrite Hrlen. apply Hbelow, list_elem_of_here. }
  destruct (assign_shares_count _ _ _ _ _ _ Hrest) as [_ Hcount'].
  destruct (Hcount' row1 Hrow1) as (row2 & Hrow2 & Hge & _).
  rewrite Hid in Hrow2. rewrite Hrow' in Hrow2. inversion Hrow2; subst row2.
  lia.
Qed.

(** The loop over the debtors, seen from the rows of the matrix. *)
Lemma assign_debtors_count (rnd : nat -> Q)
    (shuffle : forall T : Type, list T -> nat -> list T * nat)
    (names : list string) (c0 N : nat) (ns2 : list node)
    (adj2 : list (list Q)) (c2 : nat) :
  in_unit_interval rnd ->
  for_upto N (assign_debtor rnd shuffle)
    (map (bank_at_birth rnd names c0) (seq 0 N),
     replicate N (replicate N 0), (c0 + 2 * N)%nat)
  = Some (ns2, adj2, c2) ->
  forall i row, adj2 !! i = Some row ->
    (positive_entries row <= 4)%nat
    /\ (shuffle_permutes shuffle -> (2 <= N)%nat ->
        (1 <= positive_entries row)%nat).
Proof.
  intros Hunit Hloop.
  assert (debtor_inv rnd N N (ns2, adj2, c2)
          /\ Forall (fun n => 0 < L n) ns2
          /\ forall i row, adj2 !! i = Some row ->
               ((i < N)%nat ->
                (positive_entries row <= 4)%nat
                /\ (shuffle_permutes shuffle -> (2 <= N)%nat ->
                    (1 <= positive_entries row)%nat))
               /\ ((N <= i)%nat -> positive_entries row = 0%nat))
    as (Hinv & _ & Hall).
  { apply (for_upto_inv
      (fun k (st : list node * list (list Q) * nat) =>
         debtor_inv rnd N k st
         /\ Forall (fun n => 0 < L n) (fst (fst st))
         /\ forall i row, snd (fst st) !! i = Some row ->
              ((i < k)%nat ->
               (positive_entries row <= 4)%nat
               /\ (shuffle_permutes shuffle -> (2 <= N)%nat ->
                   (1 <= positive_entries row)%nat))
              /\ ((k <= i)%nat -> positive_entries row = 0%nat))
      _ _ _ _ Hloop).
    - split; [apply debtor_inv_init|]. cbn [fst snd]. split.
      + apply Forall_forall. intros n Hn.
        apply list_elem_of_fmap in Hn as (i & -> & _).
        by apply bank_at_birth_sheet.
      + intros i row Hrow. apply lookup_replicate_1 in Hrow as [-> _].
        split; [lia|]. intros _. apply positive_entries_replicate.
    - intros k t t' Hk (Hinv & HL & Hrows) Hbody.
      destruct (assign_debtor_inv rnd shuffle N k t Hk Hinv)
        as (t2 & Ht2 & Hinv').
      rewrite Hbody in Ht2. inversion Ht2; subst t2. clear Ht2.
      split; [done|].
      destruct (assign_debtor_count rnd shuffle N k t t' Hunit Hk Hinv
                  Hbody HL) as (HL' & Hother & row' & Hrow' & Hb).
      { intros row Hrow. by apply (Hrows k row Hrow). }
      split; [done|]. intros i row Hrow.
      destruct (decide (i = k)) as [->|Hik].
      + rewrite Hrow' in Hrow. inversion Hrow; subst row'.
        split; [done|lia].
      + rewrite Hother in Hrow by done.
        destruct (Hrows i row Hrow) as [Hlt Hge].
        split; [intros; apply Hlt; lia|intros; apply Hge; lia]. }
  intros i row Hrow. apply (Hall i row Hrow).
  destruct Hinv as (_ & _ & _ & Halen & _). cbn [fst snd] in Halen.
  rewrite <- Halen. by eapply lookup_lt_Some.
Qed.

(** X17.  With draws in the unit interval, the number of outbound
    connections that the dashboard shows for a bank of a generated network
    is at most 4; it is at least 1 when there are two banks or more and
    [d3.shuffle] returns a rearrangement of its argument. *)
Theorem generated_outConnections (rnd : nat -> Q)
    (shuffle : forall T : Type, list T -> nat -> list T * nat) (N : nat)
    (net : network) (n : node) :
  in_unit_interval rnd ->
  generateNetwork rnd shuffle N = Some net ->
  n ∈ nodes net ->
  exists k,
    outConnections (adj net) n = Some k
    /\ (k <= 4)%nat
    /\ (shuffle_permutes shuffle -> (2 <= N)%nat -> (1 <= k)%nat).
Proof.
  intros Hunit Hgen Hn. apply list_elem_of_lookup_1 in Hn as [i Hi].
  destruct (generateNetwork_spec rnd shuffle N)
    as (net0 & Hgen0 & (Hlen & Ha & _) & Hal & _).
  rewrite Hgen in Hgen0. inversion Hgen0; subst net0. clear Hgen0.
  destruct (generateNetwork_stages rnd shuffle N net Hgen)
    as (names & c0 & ns2 & adj2 & c2 & ns3 & _ & Hloop & _ & ->).
  cbn [nodes adj] in *.
  unfold outConnections. rewrite (Hal i n Hi).
  destruct (lookup_lt_is_Some_2 adj2 i) as [row Hrow].
  { rewrite Ha, <- Hlen. by eapply lookup_lt_Some. }
  rewrite Hrow. cbn. eexists. split; [done|].
  exact (assign_debtors_count rnd shuffle names c0 N ns2 adj2 c2 Hunit
           Hloop i row Hrow).
Qed.

Lemma generated_outConnections_witness :
  exists net n k,
    in_unit_interval rnd_half
    /\ generateNetwork rnd_half shuffle_id 3 = Some net
    /\ n ∈ nodes net
    /\ outConnections (adj net) n = Some k
    /\ (k <= 4)%nat.
Proof.
  assert (in_unit_interval rnd_half) as Hunit.
  { intros k. unfold rnd_half. split; [by vm_compute|reflexivity]. }
  assert (exists net, generateNetwork rnd_half shuffle_id 3 = Some net
            /\ exists n, n ∈ nodes net) as (net & Hgen & n & Hn).
  { eexists. split; [vm_compute; reflexivity|].
    eexists. apply list_elem_of_here. }
  destruct (generated_outConnections rnd_half shuffle_id 3 net n
              Hunit Hgen Hn) as (k & Hk & Hle & _).
  exists net, n, k. by repeat split.
Defined.

(** ** The dashboard of a new network *)

Lemma sum_over_app (f : node -> Q) (l l' : list node) :
  sum_over f (l ++ l') == sum_over f l + sum_over f l'.
Proof.
  unfold sum_over. induction l as [|n l IH]; simpl; [ring|].
  rewrite IH. ring.
Qed.

Lemma sum_over_Forall2 (f : node -> Q) (l l' : list node) :
  Forall2 (fun n b => f n == f b) l l' -> sum_over f l == sum_over f l'.
Proof.
  unfold sum_over. induction 1 as [|n b l l' Hn _ IH]; simpl; [reflexivity|].
  by rewrite Hn, IH.
Qed.

Lemma totalFailures_none (l : list node) :
  Forall (fun n => isFailed n = false) l -> totalFailures l = 0%nat.
Proof.
  unfold totalFailures. induction 1 as [|n l Hf _ IH]; [done|].
  cbn. by rewrite Hf.
Qed.

(** The running total of the first step in closed form. *)
Lemma accumulate_capital_loop (rnd : nat -> Q) (names : list string)
    (c0 N : nat) :
  fst (loop_upto N (accumulate_capital rnd) (c0, 0)) = (c0 + 2 * N)%nat
  /\ snd (loop_upto N (accumulate_capital rnd) (c0, 0))
     == sum_over E_initial (map (bank_at_birth rnd names c0) (seq 0 N)).
Proof.
  induction N as [|N [IHc IHt]].
  - split; [cbn [loop_upto fst]; lia|reflexivity].
  - cbn [loop_upto].
    destruct (loop_upto N (accumulate_capital rnd) (c0, 0)) as [c t].
    cbn [fst snd] in *. subst c. unfold accumulate_capital. cbn [fst snd].
    split; [lia|].
    rewrite seq_S, map_app, sum_over_app, <- IHt, Nat.add_0_l.
    unfold sum_over, bank_at_birth. cbn [map foldr E_initial]. ring.
Qed.

(** The banks of a generated network, field by field as the first step
    pushed them. *)
Lemma generated_banks_birth (rnd : nat -> Q)
    (shuffle : forall T : Type, list T -> nat -> list T * nat) (N : nat)
    (net : network) (names : list string) (c0 : nat) :
  generateNetwork rnd shuffle N = Some net ->
  shuffle string (take N INDIAN_BANK_NAMES) 0%nat = (names, c0) ->
  Forall2 (fun n b => birth_fields n = birth_fields b)
    (nodes net) (map (bank_at_birth rnd names c0) (seq 0 N)).
Proof.
  intros Hgen Hnames.
  destruct (generateNetwork_spec rnd shuffle N)
    as (net0 & Hgen0 & (Hlen & _) & _).
  rewrite Hgen in Hgen0. inversion Hgen0; subst net0. clear Hgen0.
  apply Forall2_same_length_lookup.
  split; [by rewrite length_map, length_seq|].
  intros i n b Hi Hb.
  destruct (generated_bank rnd shuffle N net i n Hgen Hi)
    as (names' & c0' & c & Hnames' & HiN & Hbirth & _).
  rewrite Hnames in Hnames'. inversion Hnames'; subst names' c0'.
  rewrite list_lookup_fmap, lookup_seq_lt in Hb by done.
  cbn in Hb. by inversion Hb; subst b.
Qed.

(** X18.  After [generateNetwork], with draws in the unit interval,
    [totalInitialCapital] is the sum of the initial capitals of the banks,
    and the dashboard shows no failure, no loss and a contagion index
    of 0. *)
Theorem new_network_dashboard (rnd : nat -> Q)
    (shuffle : forall T : Type, list T -> nat -> list T * nat) (N : nat)
    (net : network) :
  in_unit_interval rnd ->
  generateNetwork rnd shuffle N = Some net ->
  totalInitialCapital_of rnd shuffle N == sum_over E_initial (nodes net)
  /\ totalFailures (nodes net) = 0%nat
  /\ totalLoss (totalInitialCapital_of rnd shuffle N) (nodes net) == 0
  /\ contagionIndex (totalInitialCapital_of rnd shuffle N) (nodes net) == 0.
Proof.
  intros Hunit Hgen.
  destruct (shuffle string (take N INDIAN_BANK_NAMES) 0%nat)
    as [names c0] eqn:Hnames.
  pose proof (generated_banks_birth rnd shuffle N net names c0 Hgen Hnames)
    as Hbirth.
  assert (Forall (fun n => 0 <= E_initial n /\ E n = E_initial n
                           /\ isFailed n = false) (nodes net)) as Hbank.
  { apply Forall_lookup. intros i n Hi.
    destruct (Forall2_lookup_l _ _ _ _ _ Hbirth Hi) as (b & Hb & Heq).
    rewrite list_lookup_fmap in Hb.
    destruct (seq 0 N !! i) as [j|]; [|done]. cbn in Hb.
    inversion Hb; subst b. clear Hb.
    apply birth_fields_eq in Heq as (_ & _ & HE0 & HE & _ & Hf & _).
    rewrite HE, HE0, Hf.
    destruct (bank_at_birth_sheet rnd names c0 j Hunit)
      as (H1 & _ & H3 & _).
    unfold ASSETS_MIN, MIN_CAPITAL_RATIO in *.
    split; [lra|]. by split. }
  assert (totalInitialCapital_of rnd shuffle N
          == sum_over E_initial (nodes net)) as Htotal.
  { unfold totalInitialCapital_of. rewrite Hnames.
    destruct (accumulate_capital_loop rnd names c0 N) as [_ ->].
    symmetry. apply sum_over_Forall2.
    eapply Forall2_impl; [exact Hbirth|]. intros n b Heq.
    apply birth_fields_eq in Heq as (_ & _ & -> & _). reflexivity. }
  assert (totalFailures (nodes net) = 0%nat) as Hfail.
  { apply totalFailures_none. eapply Forall_impl; [exact Hbank|].
    by intros n (_ & _ & Hf). }
  assert (totalLoss (totalInitialCapital_of rnd shuffle N) (nodes net) == 0)
    as Hloss.
  { unfold totalLoss. rewrite totalPostShockCapital_sum, Htotal.
    assert (sum_over (fun n => Qmax 0 (E n)) (nodes net)
            == sum_over E_initial (nodes net)) as ->; [|ring].
    apply sum_over_ext. eapply Forall_impl; [exact Hbank|].
    intros n (H0 & HE & _). cbn beta. rewrite HE. by apply Q.max_r. }
  split; [done|]. split; [done|]. split; [done|].
  unfold contagionIndex. destruct (Qltb 0 _); [|reflexivity].
  unfold Qdiv. rewrite Hloss. ring.
Qed.

Lemma new_network_dashboard_witness :
  exists net,
    in_unit_interval rnd_half
    /\ generateNetwork rnd_half shuffle_id 3 = Some net
    /\ totalInitialCapital_of rnd_half shuffle_id 3
       == sum_over E_initial (nodes net)
    /\ totalFailures (nodes net) = 0%nat
    /\ totalLoss (totalInitialCapital_of rnd_half shuffle_id 3) (nodes net)
       == 0.
Proof.
  assert (in_unit_interval rnd_half) as Hunit.
  { intros k. unfold rnd_half. split; [by vm_compute|reflexivity]. }
  assert (exists net, generateNetwork rnd_half shuffle_id 3 = Some net)
    as [net Hgen] by (eexists; vm_compute; reflexivity).
  destruct (new_network_dashboard rnd_half shuffle_id 3 net Hunit Hgen)
    as (H1 & H2 & H3 & _).
  exists net. by repeat split.
Defined.

(** ** The names of the banks *)

Lemma INDIAN_BANK_NAMES_not_empty :
  Forall (fun s => String.eqb s EmptyString = false) INDIAN_BANK_NAMES.
Proof.
  apply Forall_forall. intros s Hs. apply list_elem_of_In in Hs.
  assert (forallb (fun s => negb (String.eqb s EmptyString))
            INDIAN_BANK_NAMES = true) as Hall by (vm_compute; reflexivity).
  rewrite forallb_forall in Hall. specialize (Hall s Hs).
  by apply negb_true_iff in Hall.
Qed.

Lemma INDIAN_BANK_NAMES_NoDup : NoDup INDIAN_BANK_NAMES.
Proof.
  apply NoDup_ListNoDup.
  assert (List.nodup string_dec INDIAN_BANK_NAMES = INDIAN_BANK_NAMES) as <-
    by (vm_compute; reflexivity).
  apply List.NoDup_nodup.
Qed.

(** X19.  When [d3.shuffle] returns a rearrangement of its argument, the
    names of the first banks of a generated network, up to the length of
    [INDIAN_BANK_NAMES], are the first [N] names of that list in some
    order, each used once; every later bank [i] is called "Bank i+1". *)
Theorem generated_bank_names (rnd : nat -> Q)
    (shuffle : forall T : Type, list T -> nat -> list T * nat) (N : nat)
    (net : network) :
  shuffle_permutes shuffle ->
  generateNetwork rnd shuffle N = Some net ->
  map name (take (length INDIAN_BANK_NAMES) (nodes net))
  ≡ₚ take N INDIAN_BANK_NAMES
  /\ NoDup (map name (take (length INDIAN_BANK_NAMES) (nodes net)))
  /\ forall i n,
       nodes net !! i = Some n -> (length INDIAN_BANK_NAMES <= i)%nat ->
       name n
       = String.append "Bank " (NilEmpty.string_of_uint (Nat.to_uint (i + 1))).
Proof.
  intros Hperm Hgen.
  destruct (shuffle string (take N INDIAN_BANK_NAMES) 0%nat)
    as [names c0] eqn:Hnames.
  pose proof (generated_banks_birth rnd shuffle N net names c0 Hgen Hnames)
    as Hbirth.
  pose proof (Hperm string (take N INDIAN_BANK_NAMES) 0%nat) as Hp.
  rewrite Hnames in Hp. cbn [fst] in Hp.
  destruct (generateNetwork_spec rnd shuffle N)
    as (net0 & Hgen0 & (Hlen & _) & _).
  rewrite Hgen in Hgen0. inversion Hgen0; subst net0. clear Hgen0.
  assert (forall i n, nodes net !! i = Some n -> name n = bank_name names i)
    as Hname.
  { intros i n Hi.
    destruct (Forall2_lookup_l _ _ _ _ _ Hbirth Hi) as (b & Hb & Heq).
    rewrite list_lookup_fmap in Hb.
    destruct (seq 0 N !! i) as [j|] eqn:Hj; [|done].
    apply lookup_seq in Hj as [-> _]. cbn in Hb.
    inversion Hb; subst b. clear Hb.
    by apply (f_equal (fun t => t.1.1.1.1.1.1.1.2)) in Heq. }
  assert (length names = (N `min` length INDIAN_BANK_NAMES)%nat) as Hnlen
    by (by rewrite Hp, length_take).
  assert (map name (take (length INDIAN_BANK_NAMES) (nodes net)) = names)
    as Heq.
  { apply list_eq. intros i. rewrite list_lookup_fmap.
    destruct (decide (i < length names)%nat) as [Hlt|Hge].
    - destruct (lookup_lt_is_Some_2 names i Hlt) as [s Hs].
      destruct (lookup_lt_is_Some_2 (nodes net) i) as [n Hn]; [lia|].
      rewrite lookup_take_lt, Hn by lia. cbn.
      rewrite (Hname i n Hn), Hs. unfold bank_name. rewrite Hs.
      assert (String.eqb s EmptyString = false) as ->; [|done].
      pose proof INDIAN_BANK_NAMES_not_empty as Hne.
      rewrite Forall_forall in Hne. apply Hne.
      apply (list_elem_of_lookup_2 _ i) in Hs. rewrite Hp in Hs.
      by eapply subseteq_take.
    - rewrite (proj2 (lookup_ge_None names i)) by lia.
      rewrite (proj2 (lookup_ge_None _ i)); [done|].
      rewrite length_take. lia. }
  rewrite Heq. split; [done|]. split.
  { rewrite Hp. pose proof INDIAN_BANK_NAMES_NoDup as Hnd.
    rewrite <- (take_drop N INDIAN_BANK_NAMES) in Hnd.
    by apply NoDup_app in Hnd as [Hnd _]. }
  intros i n Hi Hge. rewrite (Hname i n Hi). unfold bank_name.
  rewrite (proj2 (lookup_ge_None names i)); [done|lia].
Qed.

Lemma generated_bank_names_witness :
  exists net,
    shuffle_permutes shuffle_id
    /\ generateNetwork rnd_half shuffle_id 3 = Some net
    /\ map name (take (length INDIAN_BANK_NAMES) (nodes net))
       ≡ₚ take 3 INDIAN_BANK_NAMES.
Proof.
  assert (exists net, generateNetwork rnd_half shuffle_id 3 = Some net)
    as [net Hgen] by (eexists; vm_compute; reflexivity).
  destruct (generated_bank_names rnd_half shuffle_id 3 net
              shuffle_id_permutes Hgen) as (H1 & _).
  exists net. split; [exact shuffle_id_permutes|]. split; [exact Hgen|].
  exact H1.
Defined.

(** ** The links *)

(** The links pushed for one bank: one for every positive entry of its
    row, in the first [N] columns. *)
Lemma push_links_spec (N : nat) (adj : list (list Q)) (ls0 : list link)
    (n : node) (row : list Q) :
  adj !! id n = Some row ->
  exists ls, push_links N adj ls0 n = Some ls
    /\ forall x, x ∈ ls <->
         x ∈ ls0
         \/ exists j v, x = mkLink (id n) j v /\ (j < N)%nat
                        /\ row !! j = Some v /\ 0 < v.
Proof.
  intros Hrow. unfold push_links.
  apply (for_upto_total
    (fun k ls => forall x, x ∈ ls <->
       x ∈ ls0
       \/ exists j v, x = mkLink (id n) j v /\ (j < k)%nat
                      /\ row !! j = Some v /\ 0 < v)).
  - intros x. split; [by left|]. intros [H|(j & v & _ & Hj & _)]; [done|lia].
  - intros k ls Hk Hinv. rewrite Hrow. cbn.
    destruct (row !! k) as [v|] eqn:Hv.
    + case_cmp.
      * eexists. split; [done|]. intros x. rewrite elem_of_app, Hinv.
        rewrite list_elem_of_singleton. split.
        -- intros [[H|(j & w & -> & Hj & Hw & Hpos)]| ->]; [by left| |].
           ++ right. exists j, w. repeat split; [lia|done|done].
           ++ right. exists k, v. repeat split; [lia|done|done].
        -- intros [H|(j & w & -> & Hj & Hw & Hpos)]; [by left; left|].
           destruct (decide (j = k)) as [->|Hjk].
           ++ right. rewrite Hv in Hw. by inversion Hw; subst.
           ++ left. right. exists j, w. repeat split; [lia|done|done].
      * eexists. split; [done|]. intros x. rewrite Hinv. split.
        -- intros [H|(j & w & -> & Hj & Hw & Hpos)]; [by left|].
           right. exists j, w. repeat split; [lia|done|done].
        -- intros [H|(j & w & -> & Hj & Hw & Hpos)]; [by left|].
           destruct (decide (j = k)) as [->|Hjk].
           ++ rewrite Hv in Hw. inversion Hw; subst. lra.
           ++ right. exists j, w. repeat split; [lia|done|done].
    + eexists. split; [done|]. intros x. rewrite Hinv. split.
      * intros [H|(j & w & -> & Hj & Hw & Hpos)]; [by left|].
        right. exists j, w. repeat split; [lia|done|done].
      * intros [H|(j & w & -> & Hj & Hw & Hpos)]; [by left|].
        destruct (decide (j = k)) as [->|Hjk]; [congruence|].
        right. exists j, w. repeat split; [lia|done|done].
Qed.

Lemma push_links_all (N : nat) (adj : list (list Q)) (l : list node)
    (ls0 : list link) :
  (forall n, n ∈ l -> is_Some (adj !! id n)) ->
  exists ls, forEach_opt (push_links N adj) l ls0 = Some ls
    /\ forall x, x ∈ ls <->
         x ∈ ls0
         \/ exists n row j v,
              n ∈ l /\ adj !! id n = Some row /\ x = mkLink (id n) j v
              /\ (j < N)%nat /\ row !! j = Some v /\ 0 < v.
Proof.
  revert ls0. induction l as [|n l IH]; intros ls0 Hrows.
  - exists ls0. split; [done|]. intros x. split; [by left|].
    intros [H|(n & row & j & v & Hn & _)]; [done|].
    by apply elem_of_nil in Hn.
  - destruct (Hrows n) as [row Hrow]; [apply list_elem_of_here|].
    destruct (push_links_spec N adj ls0 n row Hrow) as (ls1 & Hls1 & H1).
    destruct (IH ls1) as (ls & Hls & H2).
    { intros m Hm. apply Hrows. by apply list_elem_of_further. }
    exists ls. split; [cbn [forEach_opt]; by rewrite Hls1|].
    intros x. rewrite H2, H1. split.
    + intros [[H|(j & v & -> & Hj & Hv & Hpos)]
             |(m & r & j & v & Hm & Hr & -> & Hj & Hv & Hpos)].
      * by left.
      * right. exists n, row, j, v.
        repeat split; [apply list_elem_of_here|done|done|done|done].
      * right. exists m, r, j, v.
        repeat split; [by apply list_elem_of_further|done|done|done|done].
    + intros [H|(m & r & j & v & Hm & Hr & -> & Hj & Hv & Hpos)];
        [by left; left|].
      apply elem_of_cons in Hm as [->|Hm].
      * left. right. rewrite Hrow in Hr. inversion Hr; subst r.
        by exists j, v.
      * right. by exists m, r, j, v.
Qed.

(** X20.  The third step of [generateNetwork] builds a [links] array that
    holds a link for exactly the positive entries of the exposure matrix:
    debtor as source, creditor as target, the exposure as value. *)
Theorem generated_links (rnd : nat -> Q)
    (shuffle : forall T : Type, list T -> nat -> list T * nat) (N : nat)
    (net : network) :
  generateNetwork rnd shuffle N = Some net ->
  exists ls,
    links_of N net = Some ls
    /\ forall s t v,
         mkLink s t v ∈ ls <-> adj_read (adj net) s t = Some v /\ 0 < v.
Proof.
  intros Hgen.
  destruct (generateNetwork_spec rnd shuffle N)
    as (net0 & Hgen0 & (Hlen & Ha & Hlens) & Hal & _).
  rewrite Hgen in Hgen0. inversion Hgen0; subst net0. clear Hgen0.
  destruct (push_links_all N (adj net) (nodes net) []) as (ls & Hls & Hin).
  { intros n Hn. apply list_elem_of_lookup_1 in Hn as [i Hi].
    rewrite (Hal i n Hi). apply lookup_lt_is_Some_2.
    rewrite Ha, <- Hlen. by eapply lookup_lt_Some. }
  exists ls. split; [done|]. intros s t v. rewrite Hin. unfold adj_read. split.
  - intros [H|(n & row & j & w & Hn & Hrow & Heq & Hj & Hw & Hpos)];
      [by apply elem_of_nil in H|].
    inversion Heq; subst s t v. rewrite Hrow. cbn. by split.
  - intros [Hread Hpos]. right.
    apply bind_Some in Hread as (row & Hrow & Ht).
    assert (s < N)%nat as Hs by (rewrite <- Ha; by eapply lookup_lt_Some).
    destruct (lookup_lt_is_Some_2 (nodes net) s) as [n Hn]; [lia|].
    pose proof (Hal s n Hn) as Hid.
    exists n, row, t, v. rewrite Hid.
    split; [by eapply list_elem_of_lookup_2|]. split; [done|].
    split; [done|]. split; [|done].
    rewrite Forall_forall in Hlens.
    rewrite <- (Hlens row); [by eapply lookup_lt_Some|].
    by eapply list_elem_of_lookup_2.
Qed.

Lemma generated_links_witness :
  exists net ls,
    generateNetwork rnd_half shuffle_id 3 = Some net
    /\ links_of 3 net = Some ls
    /\ forall s t v,
         mkLink s t v ∈ ls <-> adj_read (adj net) s t = Some v /\ 0 < v.
Proof.
  assert (exists net, generateNetwork rnd_half shuffle_id 3 = Some net)
    as [net Hgen] by (eexists; vm_compute; reflexivity).
  destruct (generated_links rnd_half shuffle_id 3 net Hgen)
    as (ls & Hls & Hin).
  exists net, ls. split; [exact Hgen|]. split; [exact Hls|exact Hin].
Defined.

(** ** Inbound connections *)

(** The [reduce] of the dashboard counts the rows with a positive entry in
    the column of the bank. *)
Lemma inConnections_count (adj : list (list Q)) (n : node) :
  inConnections adj n
  = length (List.filter
              (fun row => match row !! id n with
                          | Some v => Qltb 0 v
                          | None => false
                          end) adj).
Proof.
  unfold inConnections.
  set (f := fun (sum : nat) (row : list Q) =>
              match row !! id n with
              | Some v => if Qltb 0 v then (sum + 1)%nat else (sum + 0)%nat
              | None => (sum + 0)%nat
              end).
  set (p := fun row : list Q =>
              match row !! id n with
              | Some v => Qltb 0 v
              | None => false
              end).
  assert (forall a, fold_left f adj a = (a + length (List.filter p adj))%nat)
    as Hgen; [|by rewrite Hgen].
  induction adj as [|row adj IH]; intros a; cbn [fold_left List.filter length];
    [lia|].
  rewrite IH. unfold f, p.
  destruct (row !! id n) as [v|]; [destruct (Qltb 0 v)|]; cbn [length]; lia.
Qed.

Lemma inConnections_zero (adj : list (list Q)) (n : node) :
  inConnections adj n = 0%nat <-> unexposed adj (id n).
Proof.
  rewrite inConnections_count. unfold unexposed.
  induction adj as [|row adj IH]; cbn [List.filter].
  - split; [intros _ i row v Hi; by rewrite lookup_nil in Hi|done].
  - destruct (row !! id n) as [v|] eqn:Hv.
    + destruct (Qltb 0 v) eqn:Hpos.
      * apply Qltb_iff in Hpos. cbn [length]. split; [done|]. intros Hun.
        specialize (Hun 0%nat row v eq_refl Hv). lra.
      * apply Qltb_false_iff in Hpos. rewrite IH. split.
        -- intros Hun [|i] r w Hr Hw; cbn in Hr.
           ++ inversion Hr; subst r. rewrite Hv in Hw. by inversion Hw; subst.
           ++ by eapply Hun.
        -- intros Hun i r w Hr Hw. by apply (Hun (S i) r w).
    + rewrite IH. split.
      * intros Hun [|i] r w Hr Hw; cbn in Hr.
        -- inversion Hr; subst r. congruence.
        -- by eapply Hun.
      * intros Hun i r w Hr Hw. by apply (Hun (S i) r w).
Qed.

(** A sum of entries that are not negative is 0 exactly when no entry is
    positive. *)
Lemma column_sum_zero (N : nat) (adj : list (list Q)) (k : nat) :
  Forall (row_ok N) adj ->
  column_sum adj k == 0 <-> unexposed adj k.
Proof.
  unfold unexposed. induction 1 as [|row adj Hrow Hrows IH].
  - split; [intros _ i row v Hi; by rewrite lookup_nil in Hi|reflexivity].
  - pose proof (column_sum_nonneg N adj k Hrows) as Hnn.
    destruct Hrow as [_ Hpos]. unfold column_sum in *. cbn [map foldr].
    assert (0 <= default 0 (row !! k)) as Hk.
    { destruct (row !! k) as [v|] eqn:Hv; cbn; [|lra].
      rewrite Forall_forall in Hpos. apply Hpos.
      by eapply list_elem_of_lookup_2. }
    split.
    + intros Hsum.
      assert (foldr Qplus 0 (map (fun row => default 0 (row !! k)) adj) == 0)
        as Hrest by lra.
      pose proof (proj1 IH Hrest) as Hun.
      intros [|i] r w Hr Hw; cbn in Hr.
      * inversion Hr; subst r. rewrite Hw in Hk. cbn in Hk.
        rewrite Hw in Hsum. cbn in Hsum. lra.
      * by eapply Hun.
    + intros Hun.
      assert (foldr Qplus 0 (map (fun row => default 0 (row !! k)) adj) == 0)
        as Hrest.
      { apply (proj2 IH). intros i r w Hr Hw. by apply (Hun (S i) r w). }
      assert (default 0 (row !! k) <= 0) as Hle.
      { destruct (row !! k) as [v|] eqn:Hv; cbn; [|lra].
        by apply (Hun 0%nat row v). }
      lra.
Qed.

(** X21.  For a bank of a generated network the dashboard shows 0 inbound
    connections exactly when no bank owes it a positive amount, and
    exactly when its interbank assets are 0. *)
Theorem generated_inConnections (rnd : nat -> Q)
    (shuffle : forall T : Type, list T -> nat -> list T * nat) (N : nat)
    (net : network) (n : node) :
  generateNetwork rnd shuffle N = Some net ->
  n ∈ nodes net ->
  (inConnections (adj net) n = 0%nat <-> unexposed (adj net) (id n))
  /\ (inConnections (adj net) n = 0%nat <-> A_interbank n == 0).
Proof.
  intros Hgen Hn. split; [apply inConnections_zero|].
  rewrite inConnections_zero.
  apply list_elem_of_lookup_1 in Hn as [i Hi].
  destruct (generateNetwork_spec rnd shuffle N)
    as (net0 & Hgen0 & _ & Hal & _ & Hrows & _).
  rewrite Hgen in Hgen0. inversion Hgen0; subst net0. clear Hgen0.
  destruct (generated_bank rnd shuffle N net i n Hgen Hi)
    as (names & c0 & c & _ & _ & _ & _ & Hai & _).
  rewrite (Hal i n Hi), Hai. symmetry. by eapply column_sum_zero.
Qed.

Lemma generated_inConnections_witness :
  exists net n,
    generateNetwork rnd_half shuffle_id 3 = Some net
    /\ n ∈ nodes net
    /\ (inConnections (adj net) n = 0%nat <-> A_interbank n == 0).
Proof.
  assert (exists net, generateNetwork rnd_half shuffle_id 3 = Some net
            /\ exists n, n ∈ nodes net) as (net & Hgen & n & Hn).
  { eexists. split; [vm_compute; reflexivity|].
    eexists. apply list_elem_of_here. }
  destruct (generated_inConnections rnd_half shuffle_id 3 net n Hgen Hn)
    as [_ H2].
  exists net, n. split; [exact Hgen|]. split; [exact Hn|exact H2].
Defined.
